(** * DMET active-space selector of the iron-porphyrin DMRG-CASSCF example

    A shallow embedding of [dmet_cas] and of the name-binding skeleton of
    the surrounding script
    (examples/1-advanced/018-dmrg_casscf_for_feporph.py).

    Conventions of the embedding
    - Python integers are [Z]; counts that the program obtains as sizes
      ([nao], [ncore], [ncas], [len(...)]) are [nat] and are injected into
      [Z] where the program subtracts or slices with them.
    - Array entries are float64 in the program.  The development computes
      in exact arithmetic over an arbitrary commutative ring [K] (the reals
      being the intended reading); rounding is not modelled.
    - A two-dimensional numpy array is its shape together with its rows.
    - Python exceptions are the [Raise] branch of [result].
    - [scipy.linalg.eigh], [lo.orth.orth_ao] and the mean-field and
      active-space constructors are not part of the file under study; they
      are parameters of the development. *)

From Stdlib Require Import ZArith List Lia Ring Bool Permutation Sorted.
From stdpp Require Import gmap strings.
Import ListNotations.

Set Implicit Arguments.

(** ** Scalars *)

Record scalar := Scalar {
  num :> Type;
  num0 : num;
  num1 : num;
  nadd : num -> num -> num;
  nmul : num -> num -> num;
  nsub : num -> num -> num;
  nopp : num -> num;
  nle : num -> num -> Prop;
  num_ring : ring_theory num0 num1 nadd nmul nsub nopp eq;
  nle_opp : forall a b, nle a b -> nle (nopp b) (nopp a)
}.

Declare Scope num_scope.
Delimit Scope num_scope with K.
Notation "0" := (num0 _) : num_scope.
Notation "1" := (num1 _) : num_scope.
Infix "+" := (nadd _) : num_scope.
Infix "*" := (nmul _) : num_scope.
Infix "-" := (nsub _) : num_scope.
Notation "- x" := (nopp _ x) : num_scope.

(** The integers, used to run the model on concrete inputs. *)
Definition Zscalar : scalar :=
  {| num := Z; num0 := 0%Z; num1 := 1%Z;
     nadd := Z.add; nmul := Z.mul; nsub := Z.sub; nopp := Z.opp;
     nle := Z.le; num_ring := Zth;
     nle_opp := fun a b => proj1 (Z.opp_le_mono a b) |}.

(** ** Exceptions *)

Inductive exn :=
| NameError (name : string)
| AttributeError
| TypeError
| ValueError
| IndexError
| LinAlgError.

Inductive result (A : Type) :=
| Ok (a : A)
| Raise (e : exn).
Arguments Ok {A} a.
Arguments Raise {A} e.

Definition rbind {A B} (m : result A) (k : A -> result B) : result B :=
  match m with
  | Ok a => k a
  | Raise e => Raise e
  end.

#[global] Instance result_bind : MBind result := fun A B k m => rbind m k.
#[global] Instance result_ret : MRet result := @Ok.

Fixpoint rmapM {A B} (f : A -> result B) (l : list A) : result (list B) :=
  match l with
  | [] => Ok []
  | x :: l' => y ← f x; ys ← rmapM f l'; Ok (y :: ys)
  end.

(** ** Python slices and indices *)

(** [a:b] on a sequence of length [len] (step 1): a missing bound takes its
    default, a negative bound counts from the end, and both are clamped
    into [0, len]. *)
Definition slice_bound (len : nat) (default : Z) (b : option Z) : Z :=
  match b with
  | None => default
  | Some v =>
      let v' := if (v <? 0)%Z then (v + Z.of_nat len)%Z else v in
      Z.max 0 (Z.min v' (Z.of_nat len))
  end.

Definition slice_start (len : nat) (lo : option Z) : nat :=
  Z.to_nat (slice_bound len 0%Z lo).

Definition slice_len (len : nat) (lo hi : option Z) : nat :=
  Z.to_nat (slice_bound len (Z.of_nat len) hi) - slice_start len lo.

(** An integer used as an index into an axis of length [len]: negative
    values wrap once, anything else out of range raises. *)
Definition resolve_index (len : nat) (i : Z) : result nat :=
  if ((0 <=? i) && (i <? Z.of_nat len))%Z then Ok (Z.to_nat i)
  else if ((- Z.of_nat len <=? i) && (i <? 0))%Z then Ok (Z.to_nat (i + Z.of_nat len))
  else Raise IndexError.

(** [numpy.asarray] of a list of Python integers.  A non-empty list gives
    an integer array; the empty list gives an array of dtype float64. *)
Inductive dtype := Int64 | Float64.

Record index_array := IndexArray { ia_dtype : dtype; ia_data : list Z }.

Definition np_asarray (l : list Z) : index_array :=
  match l with
  | [] => IndexArray Float64 []
  | _ => IndexArray Int64 l
  end.

(** [i in a] for an array [a]: [(a == i).any()]. *)
Definition np_contains (a : index_array) (i : Z) : bool :=
  existsb (Z.eqb i) (ia_data a).

(** [[i for i in range(n) if i not in a]] *)
Definition complement (n : nat) (a : index_array) : list Z :=
  List.filter (fun i => negb (np_contains a i)) (map Z.of_nat (seq 0 n)).

(** An array used as an index must be of integer type. *)
Definition index_list (len : nat) (a : index_array) : result (list nat) :=
  match ia_dtype a with
  | Float64 => Raise IndexError
  | Int64 => rmapM (resolve_index len) (ia_data a)
  end.

(** ** Two-dimensional arrays over [K] *)

Section Arrays.
Context (K : scalar).
Add Ring Kring : (num_ring K).
Local Open Scope num_scope.

Fixpoint sum_n (n : nat) (f : nat -> K) : K :=
  match n with
  | O => 0
  | S m => sum_n m f + f m
  end.

Record ndarray := NDArray {
  nrows : nat;
  ncols : nat;
  rows : list (list K)
}.

Definition shape (a : ndarray) : nat * nat := (nrows a, ncols a).

Definition entry (a : ndarray) (i j : nat) : K :=
  nth j (nth i (rows a) []) 0.

Definition tabulate (r c : nat) (f : nat -> nat -> K) : ndarray :=
  NDArray r c (map (fun i => map (f i) (seq 0 c)) (seq 0 r)).

(** The data agree with the shape. *)
Definition wf_ndarray (a : ndarray) : Prop :=
  length (rows a) = nrows a /\ Forall (fun r => length r = ncols a) (rows a).

Definition vec_entry (v : list K) (j : nat) : K := nth j v 0.

Definition delta (i j : nat) : K := if Nat.eqb i j then 1 else 0.

Definition identity (n : nat) : ndarray := tabulate n n delta.

(** [a.T] *)
Definition np_T (a : ndarray) : ndarray :=
  tabulate (ncols a) (nrows a) (fun i j => entry a j i).

(** [-a] *)
Definition np_neg (a : ndarray) : ndarray :=
  tabulate (nrows a) (ncols a) (fun i j => - entry a i j).

(** The matrix product, entry by entry. *)
Definition mdot (a b : ndarray) : ndarray :=
  tabulate (nrows a) (ncols b)
    (fun i j => sum_n (ncols a) (fun k => entry a i k * entry b k j)).

(** [numpy.dot(a, b)] for two-dimensional [a] and [b]. *)
Definition np_dot (a b : ndarray) : result ndarray :=
  if Nat.eqb (ncols a) (nrows b) then Ok (mdot a b) else Raise ValueError.

(** [functools.reduce(numpy.dot, ms)] *)
Fixpoint fold_dot (acc : ndarray) (ms : list ndarray) : result ndarray :=
  match ms with
  | [] => Ok acc
  | m :: ms' => acc' ← np_dot acc m; fold_dot acc' ms'
  end.

Definition reduce_dot (ms : list ndarray) : result ndarray :=
  match ms with
  | [] => Raise TypeError
  | m :: ms' => fold_dot m ms'
  end.

(** Broadcasting of one axis: equal lengths, or one of them is 1. *)
Definition broadcast_dim (m n : nat) : result nat :=
  if Nat.eqb m n then Ok m
  else if Nat.eqb m 1 then Ok n
  else if Nat.eqb n 1 then Ok m
  else Raise ValueError.

Definition bidx (dim i : nat) : nat := if Nat.eqb dim 1 then 0%nat else i.

(** [a + b] *)
Definition np_add (a b : ndarray) : result ndarray :=
  r ← broadcast_dim (nrows a) (nrows b);
  c ← broadcast_dim (ncols a) (ncols b);
  Ok (tabulate r c (fun i j =>
        entry a (bidx (nrows a) i) (bidx (ncols a) j)
        + entry b (bidx (nrows b) i) (bidx (ncols b) j))).

(** [a * v] for a two-dimensional [a] and a one-dimensional [v]: [v] is
    broadcast along the rows, so column [j] of [a] is scaled by [v[j]]. *)
Definition np_mul_vec (a : ndarray) (v : list K) : result ndarray :=
  c ← broadcast_dim (ncols a) (length v);
  Ok (tabulate (nrows a) c (fun i j =>
        entry a i (bidx (ncols a) j) * vec_entry v (bidx (length v) j))).

Definition take_rows (a : ndarray) (ris : list nat) : ndarray :=
  tabulate (length ris) (ncols a) (fun i j => entry a (nth i ris 0%nat) j).

Definition take_cols (a : ndarray) (js : list nat) : ndarray :=
  tabulate (nrows a) (length js) (fun i j => entry a i (nth j js 0%nat)).

(** [a[idx]]: rows picked by an index array. *)
Definition np_take_rows (a : ndarray) (idx : index_array) : result ndarray :=
  ris ← index_list (nrows a) idx; Ok (take_rows a ris).

(** [a[:, idx]]: columns picked by an index array. *)
Definition np_take_cols (a : ndarray) (idx : index_array) : result ndarray :=
  js ← index_list (ncols a) idx; Ok (take_cols a js).

(** [a[:, lo:hi]] *)
Definition np_cols (a : ndarray) (lo hi : option Z) : ndarray :=
  tabulate (nrows a) (slice_len (ncols a) lo hi)
    (fun i j => entry a i (slice_start (ncols a) lo + j)).

Definition mhstack (a b : ndarray) : ndarray :=
  tabulate (nrows a) (ncols a + ncols b)
    (fun i j => if Nat.ltb j (ncols a) then entry a i j
                else entry b i (j - ncols a)).

(** [numpy.hstack((a, b))] of two-dimensional arrays. *)
Definition hstack2 (a b : ndarray) : result ndarray :=
  if Nat.eqb (nrows a) (nrows b) then Ok (mhstack a b) else Raise ValueError.

Fixpoint np_hstack_from (acc : ndarray) (ms : list ndarray) : result ndarray :=
  match ms with
  | [] => Ok acc
  | m :: ms' => acc' ← hstack2 acc m; np_hstack_from acc' ms'
  end.

Definition np_hstack (ms : list ndarray) : result ndarray :=
  match ms with
  | [] => Raise ValueError
  | m :: ms' => np_hstack_from m ms'
  end.

End Arrays.

Arguments NDArray {K} nrows ncols rows.

(** ** Objects of the program *)

Definition loc := nat.

(** Whether [p] occurs in [s] (Python's [p in s] on strings). *)
Fixpoint str_contains (p s : string) : bool :=
  String.prefix p s ||
  match s with
  | EmptyString => false
  | String _ s' => str_contains p s'
  end.

Section Objects.
Context (K : scalar).

(** A [gto.Mole] object, as far as the program observes it:
    [mol.nao_nr()], [mol.intor_symmetric('cint1e_ovlp_sph')],
    [mol.spheric_labels(1)] and the attribute [mol.spin]. *)
Record Mole := {
  mol_nao : nat;
  mol_ovlp : ndarray K;
  mol_labels : list string;
  mol_spin : Z
}.

Definition set_spin (v : Z) (m : Mole) : Mole :=
  {| mol_nao := mol_nao m; mol_ovlp := mol_ovlp m;
     mol_labels := mol_labels m; mol_spin := v |}.

(** A mean-field object: [mf.mol], [mf.mo_coeff], [mf.mo_energy] and the
    spin density matrices [mf.make_rdm1()]. *)
Record SCF := {
  scf_mol : loc;
  mo_coeff : ndarray K;
  mo_energy : list K;
  scf_rdm1 : list (ndarray K)
}.

(** An active-space object: [mc.mol], [mc.ncore], [mc.ncas], [mc._scf]. *)
Record CASSCF := {
  cas_mol : loc;
  cas_ncore : nat;
  cas_ncas : nat;
  cas_scf : SCF
}.

Inductive val :=
| VModule (name : string)
| VFunction (name : string)
| VMole (l : loc)
| VSCF (f : SCF)
| VCAS (c : CASSCF)
| VIndices (l : list Z)
| VArray (a : ndarray K)
| VOpaque.

(** The interpreter state the program reads and writes: the module's
    global names, the [Mole] objects they (and the solver objects) refer
    to, and the number of times the body of [dmet_cas] has been entered. *)
Record state := {
  globals : gmap string val;
  heap : gmap loc Mole;
  selector_calls : nat
}.

Definition lookup_global (st : state) (x : string) : result val :=
  match globals st !! x with
  | Some v => Ok v
  | None => Raise (NameError x)
  end.

Definition deref (st : state) (l : loc) : result Mole :=
  match heap st !! l with
  | Some m => Ok m
  | None => Raise AttributeError
  end.

Definition as_mole (st : state) (v : val) : result Mole :=
  match v with
  | VMole l => deref st l
  | _ => Raise AttributeError
  end.

(** [xs[i]] on a Python sequence. *)
Definition seq_item {A} (xs : list A) (i : nat) : result A :=
  match nth_error xs i with
  | Some x => Ok x
  | None => Raise IndexError
  end.

End Objects.

Arguments VModule {K} name.
Arguments VFunction {K} name.
Arguments VMole {K} l.
Arguments VIndices {K} l.
Arguments VOpaque {K}.

(** ** The selector *)

Section Selector.
Context (K : scalar).
Local Open Scope num_scope.

(** [scipy.linalg.eigh]: eigenvalues and eigenvectors of a symmetric
    matrix. *)
Context (eigh : ndarray K -> result (list K * ndarray K)).
(** [lo.orth.orth_ao(mol, method='meta_lowdin')] *)
Context (orth_ao : Mole K -> ndarray K).

(** Locals after lines 37-49. *)
Record density_frame := {
  d_nao : nat;
  d_ncore : nat;
  d_ncas : nat;
  d_nocc : nat;
  d_nimp : nat;
  d_nbath : Z;
  d_corth : ndarray K;
  d_s : ndarray K;
  d_cinv : ndarray K;
  d_dm_mixed : ndarray K;   (* the value of dm[0]+dm[1] *)
  d_dm : ndarray K          (* dm as rebound on line 49 *)
}.

Definition dmet_density (st : state K) (mc : CASSCF K)
    (dm : list (ndarray K)) (implst : list Z) : result density_frame :=
  (* 37 *) mcmol ← deref st (cas_mol mc);
           let nao := mol_nao mcmol in
  (* 38 *) let ncore := cas_ncore mc in
  (* 39 *) let ncas := cas_ncas mc in
  (* 40 *) let nocc := (ncore + ncas)%nat in
  (* 41 *) let nimp := length implst in
  (* 42 *) let nbath := (Z.of_nat ncas - Z.of_nat nimp)%Z in
  (* 43 *) gmol ← lookup_global st "mol" ≫= as_mole st;
           let corth := orth_ao gmol in
  (* 44 *) let s := mol_ovlp gmol in
  (* 45 *) cinv ← np_dot (np_T corth) s;
  (* 49 *) dm0 ← seq_item dm 0;
           dm1 ← seq_item dm 1;
           mixed ← np_add dm0 dm1;
           dm' ← reduce_dot [cinv; mixed; np_T cinv];
  Ok {| d_nao := nao; d_ncore := ncore; d_ncas := ncas; d_nocc := nocc;
        d_nimp := nimp; d_nbath := nbath; d_corth := corth; d_s := s;
        d_cinv := cinv; d_dm_mixed := mixed; d_dm := dm' |}.

(** Locals after lines 56-64. *)
Record partition_frame := {
  p_implst : index_array;
  p_notimp : index_array;
  p_occi : list K;
  p_ui : ndarray K;
  p_occb : list K;
  p_ub : ndarray K;
  p_bathorb : ndarray K;
  p_imporb : ndarray K;
  p_mocore : ndarray K;
  p_mocas : ndarray K;
  p_moext : ndarray K
}.

(** [x[idx][:,idx]] *)
Definition sub_block (x : ndarray K) (idx : index_array) : result (ndarray K) :=
  r ← np_take_rows x idx; np_take_cols r idx.

Definition dmet_partition (d : density_frame) (implst0 : list Z)
    : result partition_frame :=
  let nao := d_nao d in
  let ncore := Z.of_nat (d_ncore d) in
  let nbath := d_nbath d in
  let dm := d_dm d in
  let corth := d_corth d in
  (* 56 *) let implst := np_asarray implst0 in
  (* 57 *) let notimp := np_asarray (complement nao implst) in
  (* 58 *) blki ← sub_block dm implst;
           '(occi, ui) ← eigh (np_neg blki);
  (* 59 *) blkb ← sub_block dm notimp;
           '(occb, ub) ← eigh (np_neg blkb);
  (* 60 *) cb ← np_take_cols corth notimp;
           bathorb ← np_dot cb ub;
  (* 61 *) ci ← np_take_cols corth implst;
           imporb ← np_dot ci ui;
  (* 62 *) let mocore := np_cols bathorb None (Some ncore) in
  (* 63 *) mocas ← np_hstack
             [imporb; np_cols bathorb (Some ncore) (Some (ncore + nbath)%Z)];
  (* 64 *) let moext := np_cols bathorb (Some (ncore + nbath)%Z) None in
  Ok {| p_implst := implst; p_notimp := notimp; p_occi := occi; p_ui := ui;
        p_occb := occb; p_ub := ub; p_bathorb := bathorb;
        p_imporb := imporb; p_mocore := mocore; p_mocas := mocas;
        p_moext := moext |}.

(** Locals after lines 70-86; [e] and [u] are rebound three times. *)
Record canon_frame := {
  c_hf_orb : ndarray K;
  c_fock : ndarray K;
  c_fockc : ndarray K;
  c_uc : ndarray K;
  c_mocore : ndarray K;
  c_focka : ndarray K;
  c_ua : ndarray K;
  c_mocas : ndarray K;
  c_focke : ndarray K;
  c_ue : ndarray K;
  c_moext : ndarray K;
  c_mo_init : ndarray K
}.

Definition dmet_canonical (mc : CASSCF K) (d : density_frame)
    (p : partition_frame) : result canon_frame :=
  let s := d_s d in
  let mocore := p_mocore p in
  let mocas := p_mocas p in
  let moext := p_moext p in
  (* 70 *) let hf_orb := mo_coeff (cas_scf mc) in
  (* 71 *) scaled ← np_mul_vec hf_orb (mo_energy (cas_scf mc));
           fock ← reduce_dot [s; scaled; np_T hf_orb; s];
  (* 73 *) fockc ← reduce_dot [np_T mocore; fock; mocore];
  (* 74 *) '(_, uc) ← eigh fockc;
  (* 75 *) mocore' ← np_dot mocore uc;
  (* 76 *) focka ← reduce_dot [np_T mocas; fock; mocas];
  (* 77 *) '(_, ua) ← eigh focka;
  (* 78 *) mocas' ← np_dot mocas ua;
  (* 79 *) focke ← reduce_dot [np_T moext; fock; moext];
  (* 80 *) '(_, ue) ← eigh focke;
  (* 81 *) moext' ← np_dot moext ue;
  (* 86 *) mo_init ← np_hstack [mocore'; mocas'; moext'];
  Ok {| c_hf_orb := hf_orb; c_fock := fock; c_fockc := fockc; c_uc := uc;
        c_mocore := mocore'; c_focka := focka; c_ua := ua;
        c_mocas := mocas'; c_focke := focke; c_ue := ue;
        c_moext := moext'; c_mo_init := mo_init |}.

(** The three parts of the body in sequence, keeping every local. *)
Definition dmet_cas_frames (st : state K) (mc : CASSCF K)
    (dm : list (ndarray K)) (implst : list Z)
    : result (density_frame * partition_frame * canon_frame) :=
  d ← dmet_density st mc dm implst;
  p ← dmet_partition d implst;
  c ← dmet_canonical mc d p;
  Ok (d, p, c).

(** [dmet_cas(mc, dm, implst)] *)
Definition dmet_cas (st : state K) (mc : CASSCF K)
    (dm : list (ndarray K)) (implst : list Z) : result (ndarray K) :=
  '(_, _, c) ← dmet_cas_frames st mc dm implst;
  (* 87 *) Ok (c_mo_init c).

End Selector.

(** ** The surrounding script

    The script is modelled at the level of its global names: every
    statement looks up the names it reads in evaluation order (an unbound
    name raises [NameError]), calls the selector or an external
    collaborator, and binds its target.  Values computed by collaborators
    that the selector never sees (energies, solver results) are opaque. *)

Section Script.
Context (K : scalar).

(** The external quantum-chemistry engine. *)
Record engine := {
  eng_eigh : ndarray K -> result (list K * ndarray K);
  eng_orth_ao : Mole K -> ndarray K;
  (* gto.Mole() ... mol.build(), lines 98-143, before [spin] is recorded *)
  eng_build : Mole K;
  (* scf.ROHF(mol) *)
  eng_ROHF : loc -> Mole K -> SCF K;
  (* scf.fast_newton(mf) *)
  eng_fast_newton : Mole K -> SCF K -> result (SCF K);
  (* mcscf.density_fit(dmrgscf.dmrgci.DMRGSCF(m, ncas, nelecas)) *)
  eng_DMRGSCF : Mole K -> SCF K -> nat -> nat -> result (CASSCF K);
  (* mc.kernel(mo) *)
  eng_kernel : CASSCF K -> ndarray K -> result unit;
  (* mrpt.nevpt2.sc_nevpt(mc) *)
  eng_nevpt : CASSCF K -> result unit
}.

Context (E : engine).

(** State and exceptions; the state at the point of a raise is kept. *)
Definition script (A : Type) : Type := state K -> result A * state K.

Definition sret {A} (a : A) : script A := fun st => (Ok a, st).

Definition sbind {A B} (m : script A) (k : A -> script B) : script B :=
  fun st =>
    match m st with
    | (Ok a, st') => k a st'
    | (Raise e, st') => (Raise e, st')
    end.

Definition lift {A} (r : result A) : script A := fun st => (r, st).

Definition sraise {A} (e : exn) : script A := lift (Raise e).

Definition get_state : script (state K) := fun st => (Ok st, st).

(** Reading a global name. *)
Definition name (x : string) : script (val K) :=
  fun st => (lookup_global st x, st).

(** Binding a global name. *)
Definition assign (x : string) (v : val K) : script unit :=
  fun st => (Ok tt, {| globals := <[x := v]> (globals st);
                       heap := heap st;
                       selector_calls := selector_calls st |}).

Definition alloc (m : Mole K) : script loc :=
  fun st =>
    let l := fresh (dom (heap st)) in
    (Ok l, {| globals := globals st;
              heap := <[l := m]> (heap st);
              selector_calls := selector_calls st |}).

Definition store (l : loc) (m : Mole K) : script unit :=
  fun st => (Ok tt, {| globals := globals st;
                       heap := <[l := m]> (heap st);
                       selector_calls := selector_calls st |}).

Definition enter_selector : script unit :=
  fun st => (Ok tt, {| globals := globals st;
                       heap := heap st;
                       selector_calls := S (selector_calls st) |}).

Definition the_mole (v : val K) : script (loc * Mole K) :=
  match v with
  | VMole l => fun st => (m ← deref st l; Ok (l, m), st)
  | _ => sraise AttributeError
  end.

Definition the_scf (v : val K) : script (SCF K) :=
  match v with
  | VSCF f => sret f
  | _ => sraise AttributeError
  end.

Definition the_cas (v : val K) : script (CASSCF K) :=
  match v with
  | VCAS c => sret c
  | _ => sraise AttributeError
  end.

Definition the_indices (v : val K) : script (list Z) :=
  match v with
  | VIndices l => sret l
  | _ => sraise TypeError
  end.

Definition the_array (v : val K) : script (ndarray K) :=
  match v with
  | VArray a => sret a
  | _ => sraise TypeError
  end.

Notation "x ⇐ m ; k" := (sbind m (fun x => k))
  (at level 20, m at level 100, k at level 200, right associativity,
   format "x  ⇐  m ;  '/' k").
Notation "m ;; k" := (sbind m (fun _ => k))
  (at level 100, k at level 200, right associativity).

Fixpoint bind_modules (xs : list string) : script unit :=
  match xs with
  | [] => sret tt
  | x :: xs' => assign x (VModule x) ;; bind_modules xs'
  end.

(** Lines 3-12: the imports and [dmrgscf.settings.MPIPREFIX = ...]. *)
Definition lines_3_12 : script unit :=
  assign "reduce" (VFunction "reduce") ;;
  bind_modules ["numpy"; "scipy"; "scf"; "gto"; "mcscf"; "fci"; "dmrgscf"; "mrpt"] ;;
  _ ⇐ name "dmrgscf"; sret tt.

(** Line 35: [def dmet_cas(mc, dm, implst)]. *)
Definition line_35 : script unit :=
  assign "dmet_cas" (VFunction "dmet_cas").

(** A call [dmet_cas(mc, dm, implst)] from the script: the body is entered
    once the arguments have been evaluated; [mc.mol] (line 37) and
    [len(implst)] (line 41) are the first uses of the arguments. *)
Definition call_dmet_cas (vmc : val K) (dm : list (ndarray K))
    (vidx : val K) : script (ndarray K) :=
  enter_selector ;;
  mc ⇐ the_cas vmc;
  implst ⇐ the_indices vidx;
  st ⇐ get_state;
  lift (dmet_cas (eng_eigh E) (eng_orth_ao E) st mc dm implst).

(** Lines 98-143: [mol = gto.Mole()], its attributes ([mol.spin = 4] among
    them) and [mol.build()]. *)
Definition lines_98_143 : script unit :=
  _ ⇐ name "gto";
  l ⇐ alloc (set_spin 4 (eng_build E));
  assign "mol" (VMole l).

(** [mf = scf.ROHF(mol)] (lines 145 and 184) *)
Definition stmt_rohf : script unit :=
  _ ⇐ name "scf";
  v ⇐ name "mol";
  lm ⇐ the_mole v;
  assign "mf" (VSCF (eng_ROHF E (fst lm) (snd lm))).

(** [mf = scf.fast_newton(mf)] (lines 146 and 185) *)
Definition stmt_fast_newton : script unit :=
  _ ⇐ name "scf";
  v ⇐ name "mf";
  f ⇐ the_scf v;
  st ⇐ get_state;
  m ⇐ lift (deref st (scf_mol f));
  f' ⇐ lift (eng_fast_newton E m f);
  assign "mf" (VSCF f').

(** [mc = mcscf.density_fit(dmrgscf.dmrgci.DMRGSCF(m, 20, 16))]
    (lines 156 and 194) *)
Definition stmt_dmrgscf : script unit :=
  _ ⇐ name "mcscf";
  _ ⇐ name "dmrgscf";
  v ⇐ name "m";
  f ⇐ the_scf v;
  st ⇐ get_state;
  m ⇐ lift (deref st (scf_mol f));
  c ⇐ lift (eng_DMRGSCF E m f 20 16);
  assign "mc" (VCAS c).

Definition enumerate {A} (xs : list A) : list (Z * A) :=
  combine (map Z.of_nat (seq 0 (length xs))) xs.

Definition impurity_label (s : string) : bool :=
  str_contains "Fe 3d" s || str_contains "Fe 4d" s
  || str_contains "Fe 4s" s || str_contains "N 2pz" s.

(** [idx = [i for i,s in enumerate(mol.spheric_labels(1)) if ...]]
    (lines 157-158 and 195-196).  The comprehension has a scope of its
    own, so [i] and [s] are not bound in the module. *)
Definition stmt_idx : script unit :=
  v ⇐ name "mol";
  lm ⇐ the_mole v;
  assign "idx"
    (VIndices (map fst (List.filter (fun p => impurity_label (snd p))
                               (enumerate (mol_labels (snd lm)))))).

(** [mo = dmet_cas(mc, mf.make_rdm1(), <implst>)] (lines 159 and 197);
    the name of the third argument differs between the two lines. *)
Definition stmt_dmet_cas (implst_name : string) : script unit :=
  _ ⇐ name "dmet_cas";
  vmc ⇐ name "mc";
  vmf ⇐ name "mf";
  f ⇐ the_scf vmf;
  vidx ⇐ name implst_name;
  mo ⇐ call_dmet_cas vmc (scf_rdm1 f) vidx;
  assign "mo" (VArray mo).

(** [mc.fcisolver.wfnsym = ...; mc.kernel(mo)] (lines 161-162, 198-199) *)
Definition stmt_kernel : script unit :=
  vmc ⇐ name "mc";
  _ ⇐ the_cas vmc;
  vmc ⇐ name "mc";
  c ⇐ the_cas vmc;
  vmo ⇐ name "mo";
  mo ⇐ the_array vmo;
  lift (eng_kernel E c mo).

(** [x = <expression reading mc>] (lines 164-165, 200-203) *)
Definition stmt_read_mc (x : string) : script unit :=
  vmc ⇐ name "mc";
  _ ⇐ the_cas vmc;
  assign x VOpaque.

(** [x = mrpt.nevpt2.sc_nevpt(mc)] (lines 170 and 208) *)
Definition stmt_nevpt (x : string) : script unit :=
  _ ⇐ name "mrpt";
  vmc ⇐ name "mc";
  c ⇐ the_cas vmc;
  _ ⇐ lift (eng_nevpt E c);
  assign x VOpaque.

(** Line 182: [mol.spin = 2]. *)
Definition line_182 : script unit :=
  v ⇐ name "mol";
  lm ⇐ the_mole v;
  store (fst lm) (set_spin 2 (snd lm)).

(** Lines 210-233: the report and the molden export. *)
Definition lines_210_233 : script unit :=
  _ ⇐ name "e_t"; _ ⇐ name "e_q"; _ ⇐ name "e_t"; _ ⇐ name "e_q";
  _ ⇐ name "reduce"; _ ⇐ name "numpy"; _ ⇐ name "cas_t"; _ ⇐ name "mol";
  _ ⇐ name "cas_q";
  assign "s" VOpaque ;;
  _ ⇐ name "numpy"; _ ⇐ name "s";
  _ ⇐ name "ept2_t"; _ ⇐ name "ept2_q"; _ ⇐ name "ept2_t"; _ ⇐ name "ept2_q";
  assign "tools" (VModule "tools") ;;
  _ ⇐ name "tools"; _ ⇐ name "mol"; _ ⇐ name "cas_t";
  _ ⇐ name "tools"; _ ⇐ name "mol"; _ ⇐ name "cas_q";
  sret tt.

Fixpoint run (stmts : list (script unit)) : script unit :=
  match stmts with
  | [] => sret tt
  | s :: rest => s ;; run rest
  end.

(** Lines 98-170. *)
Definition quintet_branch : list (script unit) :=
  [ lines_98_143; stmt_rohf; stmt_fast_newton;
    stmt_dmrgscf; stmt_idx; stmt_dmet_cas "idx";
    stmt_kernel; stmt_read_mc "e_q"; stmt_read_mc "cas_q";
    stmt_nevpt "ept2_q" ].

(** Lines 182-208. *)
Definition triplet_branch : list (script unit) :=
  [ line_182; stmt_rohf; stmt_fast_newton;
    stmt_dmrgscf; stmt_idx; stmt_dmet_cas "idx3d";
    stmt_kernel; stmt_read_mc "mo"; stmt_read_mc "e_t";
    stmt_read_mc "cas_t"; stmt_nevpt "ept2_t" ].

Definition program : list (script unit) :=
  [lines_3_12; line_35] ++ quintet_branch ++ triplet_branch ++ [lines_210_233].

(** The names that the statements of the program bind. *)
Definition program_targets : list string :=
  ["reduce"; "numpy"; "scipy"; "scf"; "gto"; "mcscf"; "fci"; "dmrgscf";
   "mrpt"; "dmet_cas"; "mol"; "mf"; "mc"; "idx"; "mo"; "e_q"; "cas_q";
   "ept2_q"; "e_t"; "cas_t"; "ept2_t"; "s"; "tools"].

Definition initial_state : state K :=
  {| globals := ∅; heap := ∅; selector_calls := 0 |}.

End Script.

(** ** Relations between the states before and after a statement *)

Section ScriptContracts.
Context (K : scalar).

(** [m] keeps the relation [R] between the state before and after. *)
Definition preserves (R : state K -> state K -> Prop) {A} (m : script K A) : Prop :=
  forall st, R st (snd (m st)).

(** The name [x] stays unbound. *)
Definition unbound_kept (x : string) (st st' : state K) : Prop :=
  globals st !! x = None -> globals st' !! x = None.

(** The name [x] stays bound. *)
Definition bound_kept (x : string) (st st' : state K) : Prop :=
  is_Some (globals st !! x) -> is_Some (globals st' !! x).

(** The body of the selector is not entered. *)
Definition calls_kept (st st' : state K) : Prop :=
  selector_calls st' = selector_calls st.

(** Neither the global names nor the objects change. *)
Definition store_kept (st st' : state K) : Prop :=
  globals st' = globals st /\ heap st' = heap st.

Class StepRel (R : state K -> state K -> Prop) := {
  step_refl : forall st, R st st;
  step_trans : forall a b c, R a b -> R b c -> R a c
}.

End ScriptContracts.

(** ** Contracts and the algorithm in the words of the specification *)

Section Contracts.
Context (K : scalar).
Local Open Scope num_scope.

(** The eigensolver returns, for every square matrix, as many eigenvalues
    and eigenvectors as the matrix has rows. *)
Definition eigh_total (eigh : ndarray K -> result (list K * ndarray K)) : Prop :=
  forall a, nrows a = ncols a ->
    exists w u, eigh a = Ok (w, u) /\ length w = nrows a
                /\ nrows u = nrows a /\ ncols u = nrows a.

(** The columns of [u] are orthonormal: [u.T u = 1]. *)
Definition orthonormal_columns (u : ndarray K) : Prop :=
  forall i j, (i < ncols u)%nat -> (j < ncols u)%nat ->
    sum_n K (nrows u) (fun k => entry u k i * entry u k j) = delta K i j.

(** The eigenvectors returned by the eigensolver are orthonormal. *)
Definition eigh_orthonormal (eigh : ndarray K -> result (list K * ndarray K)) : Prop :=
  forall a w u, eigh a = Ok (w, u) -> orthonormal_columns u.

(** [w] is in ascending order. *)
Definition ascending (w : list K) : Prop :=
  forall i j, (i <= j)%nat -> (j < length w)%nat ->
    nle K (vec_entry K w i) (vec_entry K w j).

(** [u] diagonalises [a] with eigenvalues [w]: [u.T a u = diag(w)]. *)
Definition diagonalises (a : ndarray K) (w : list K) (u : ndarray K) : Prop :=
  forall i j, (i < ncols u)%nat -> (j < ncols u)%nat ->
    entry (mdot (mdot (np_T u) a) u) i j
    = if Nat.eqb i j then vec_entry K w i else 0.

(** The occupation of the [k]-th column of [u] with respect to the density
    block [a]: the [k]-th diagonal entry of [u.T a u]. *)
Definition occupation (a u : ndarray K) (k : nat) : K :=
  entry (mdot (mdot (np_T u) a) u) k k.

(** The occupations do not increase along the columns of [u]. *)
Definition occupations_descending (a u : ndarray K) : Prop :=
  forall i j, (i <= j)%nat -> (j < ncols u)%nat ->
    nle K (occupation a u j) (occupation a u i).

(** The state and the density matrices fit together: the global [mol] is
    the molecule [g], [mc.mol] has as many atomic orbitals as [g], and the
    transform, the overlap and the two density matrices have [nao] rows
    and columns. *)
Record valid_density (orth_ao : Mole K -> ndarray K) (st : state K)
    (mc : CASSCF K) (dma dmb : ndarray K) (g : Mole K) : Prop := {
  vd_global : exists l, globals st !! "mol" = Some (VMole l)
                        /\ heap st !! l = Some g;
  vd_mc_mol : exists m, heap st !! cas_mol mc = Some m
                        /\ mol_nao m = mol_nao g;
  vd_corth : shape (orth_ao g) = (mol_nao g, mol_nao g);
  vd_ovlp : shape (mol_ovlp g) = (mol_nao g, mol_nao g);
  vd_dma : shape dma = (mol_nao g, mol_nao g);
  vd_dmb : shape dmb = (mol_nao g, mol_nao g)
}.

(** In addition, the mean-field coefficients have [nao] rows and one
    orbital energy per column. *)
Record valid_shapes (orth_ao : Mole K -> ndarray K) (st : state K)
    (mc : CASSCF K) (dma dmb : ndarray K) (g : Mole K) : Prop := {
  vs_density : valid_density orth_ao st mc dma dmb g;
  vs_hf_rows : nrows (mo_coeff (cas_scf mc)) = mol_nao g;
  vs_hf_cols : ncols (mo_coeff (cas_scf mc)) = length (mo_energy (cas_scf mc))
}.

(** The preconditions of the specification on the partition: the impurity
    list holds distinct orbital indices, [nimp <= ncas] and
    [ncore + ncas <= nao]. *)
Record valid_partition (nao ncore ncas : nat) (implst : list Z) : Prop := {
  vp_distinct : List.NoDup implst;
  vp_range : List.Forall (fun i => (0 <= i < Z.of_nat nao)%Z) implst;
  vp_nimp : (length implst <= ncas)%nat;
  vp_nocc : (ncore + ncas <= nao)%nat
}.

Definition valid_input (orth_ao : Mole K -> ndarray K) (st : state K)
    (mc : CASSCF K) (dma dmb : ndarray K) (implst : list Z) (g : Mole K) : Prop :=
  valid_shapes orth_ao st mc dma dmb g
  /\ valid_partition (mol_nao g) (cas_ncore mc) (cas_ncas mc) implst.

(** Neither the impurity list nor its complement is empty.  numpy converts
    an empty list to an array of floats, which it refuses as an index, so
    lines 58 and 59 raise on an empty impurity list and on one that
    exhausts [range(nao)]. *)
Definition nondegenerate (nao : nat) (implst : list Z) : Prop :=
  implst <> [] /\ (length implst < nao)%nat.

(** Distinct indices in range that are nondegenerate. *)
Record valid_indices (nao : nat) (implst : list Z) : Prop := {
  vx_distinct : List.NoDup implst;
  vx_range : List.Forall (fun i => (0 <= i < Z.of_nat nao)%Z) implst;
  vx_nonempty : implst <> [];
  vx_bath : (length implst < nao)%nat
}.

(** Valid input on which the body runs to its end. *)
Record runnable_partition (nao ncore ncas : nat) (implst : list Z) : Prop := {
  rp_indices : valid_indices nao implst;
  rp_nimp : (length implst <= ncas)%nat;
  rp_nocc : (ncore + ncas <= nao)%nat
}.

Definition runnable_input (orth_ao : Mole K -> ndarray K) (st : state K)
    (mc : CASSCF K) (dma dmb : ndarray K) (implst : list Z) (g : Mole K) : Prop :=
  valid_shapes orth_ao st mc dma dmb g
  /\ runnable_partition (mol_nao g) (cas_ncore mc) (cas_ncas mc) implst.

(** Step 1: [dm_mixed = dm_alpha + dm_beta]. *)
Definition spec_dm_mixed (dma dmb : ndarray K) : ndarray K :=
  tabulate K (nrows dma) (ncols dma) (fun i j => entry dma i j + entry dmb i j).

(** Step 2: [cinv = orth_transform^T S] and
    [dm_orth = cinv . dm_mixed . cinv^T]. *)
Definition spec_cinv (corth s : ndarray K) : ndarray K :=
  mdot (np_T corth) s.

Definition spec_dm_orth (corth s dma dmb : ndarray K) : ndarray K :=
  mdot (mdot (spec_cinv corth s) (spec_dm_mixed dma dmb))
       (np_T (spec_cinv corth s)).

(** Step 6: [Fock = S . (hf_coeff * hf_energy) . hf_coeff^T . S]. *)
Definition scale_columns (c : ndarray K) (e : list K) : ndarray K :=
  tabulate K (nrows c) (ncols c) (fun i j => entry c i j * vec_entry K e j).

Definition spec_fock (s hf_coeff : ndarray K) (hf_energy : list K) : ndarray K :=
  mdot (mdot (mdot s (scale_columns hf_coeff hf_energy)) (np_T hf_coeff)) s.

(** Step 6: a block [b] is rotated by the eigenvectors of
    [b^T . Fock . b]. *)
Definition spec_canonicalize (eigh : ndarray K -> result (list K * ndarray K))
    (fock b : ndarray K) : result (ndarray K) :=
  wu ← eigh (mdot (mdot (np_T b) fock) b);
  Ok (mdot b (snd wu)).

(** Step 7: the blocks side by side, core first, external last. *)
Definition spec_assemble (core active external : ndarray K) : ndarray K :=
  mhstack (mhstack core active) external.

(** [a^T . s . b], entry by entry. *)
Definition gram (s a b : ndarray K) (i j : nat) : K :=
  sum_n K (nrows s) (fun p => sum_n K (ncols s) (fun q =>
    entry a p i * entry s p q * entry b q j)).

(** The columns of [a] are orthonormal in the metric [s]. *)
Definition s_orthonormal (s a : ndarray K) : Prop :=
  forall i j, (i < ncols a)%nat -> (j < ncols a)%nat ->
    gram s a a i j = delta K i j.

(** Every column of [a] is orthogonal to every column of [b]. *)
Definition s_orthogonal (s a b : ndarray K) : Prop :=
  forall i j, (i < ncols a)%nat -> (j < ncols b)%nat -> gram s a b i j = 0.

End Contracts.

(** ** The frames of a successful run, given what the eigensolver returned *)

Section ClosedForms.
Context (K : scalar).
Context (orth_ao : Mole K -> ndarray K).

(** What the five calls of the eigensolver returned, in program order
    (the eigenvalues of the three canonicalisation calls are dropped by the
    program). *)
Record eigh_results := {
  r_occi : list K; r_ui : ndarray K;
  r_occb : list K; r_ub : ndarray K;
  r_uc : ndarray K;
  r_ua : ndarray K;
  r_ue : ndarray K
}.

Definition density_of (mc : CASSCF K) (dma dmb : ndarray K)
    (implst : list Z) (g : Mole K) : density_frame K :=
  {| d_nao := mol_nao g;
     d_ncore := cas_ncore mc;
     d_ncas := cas_ncas mc;
     d_nocc := cas_ncore mc + cas_ncas mc;
     d_nimp := length implst;
     d_nbath := (Z.of_nat (cas_ncas mc) - Z.of_nat (length implst))%Z;
     d_corth := orth_ao g;
     d_s := mol_ovlp g;
     d_cinv := spec_cinv (orth_ao g) (mol_ovlp g);
     d_dm_mixed := spec_dm_mixed dma dmb;
     d_dm := spec_dm_orth (orth_ao g) (mol_ovlp g) dma dmb |}.

(** The impurity indices and the bath-candidate indices as positions. *)
Definition imp_positions (implst : list Z) : list nat := map Z.to_nat implst.

Definition bath_positions (nao : nat) (implst : list Z) : list nat :=
  map Z.to_nat (complement nao (np_asarray implst)).

(** [x[idx][:,idx]] for a list of positions. *)
Definition block (x : ndarray K) (idx : list nat) : ndarray K :=
  take_cols (take_rows x idx) idx.

Definition partition_of (d : density_frame K) (implst : list Z)
    (r : eigh_results) : partition_frame K :=
  let ncore := Z.of_nat (d_ncore d) in
  let nbath := d_nbath d in
  let bathorb := mdot (take_cols (d_corth d) (bath_positions (d_nao d) implst))
                      (r_ub r) in
  let imporb := mdot (take_cols (d_corth d) (imp_positions implst)) (r_ui r) in
  {| p_implst := np_asarray implst;
     p_notimp := np_asarray (complement (d_nao d) (np_asarray implst));
     p_occi := r_occi r; p_ui := r_ui r;
     p_occb := r_occb r; p_ub := r_ub r;
     p_bathorb := bathorb;
     p_imporb := imporb;
     p_mocore := np_cols bathorb None (Some ncore);
     p_mocas := mhstack imporb
                  (np_cols bathorb (Some ncore) (Some (ncore + nbath)%Z));
     p_moext := np_cols bathorb (Some (ncore + nbath)%Z) None |}.

(** [b^T . fock . b] *)
Definition fock_block (fock b : ndarray K) : ndarray K :=
  mdot (mdot (np_T b) fock) b.

Definition canon_of (mc : CASSCF K) (d : density_frame K)
    (p : partition_frame K) (r : eigh_results) : canon_frame K :=
  let hf_orb := mo_coeff (cas_scf mc) in
  let fock := spec_fock (d_s d) hf_orb (mo_energy (cas_scf mc)) in
  let mocore' := mdot (p_mocore p) (r_uc r) in
  let mocas' := mdot (p_mocas p) (r_ua r) in
  let moext' := mdot (p_moext p) (r_ue r) in
  {| c_hf_orb := hf_orb;
     c_fock := fock;
     c_fockc := fock_block fock (p_mocore p);
     c_uc := r_uc r;
     c_mocore := mocore';
     c_focka := fock_block fock (p_mocas p);
     c_ua := r_ua r;
     c_mocas := mocas';
     c_focke := fock_block fock (p_moext p);
     c_ue := r_ue r;
     c_moext := moext';
     c_mo_init := spec_assemble mocore' mocas' moext' |}.

(** The eigensolver returned [r] on the five matrices of the run, each
    result having the shape of its argument. *)
Record eigh_run (eigh : ndarray K -> result (list K * ndarray K))
    (d : density_frame K) (p : partition_frame K) (c : canon_frame K)
    (implst : list Z) (r : eigh_results) : Prop := {
  er_imp : eigh (np_neg (block (d_dm d) (imp_positions implst)))
           = Ok (r_occi r, r_ui r);
  er_bath : eigh (np_neg (block (d_dm d) (bath_positions (d_nao d) implst)))
            = Ok (r_occb r, r_ub r);
  er_core : exists w, eigh (c_fockc c) = Ok (w, r_uc r);
  er_act : exists w, eigh (c_focka c) = Ok (w, r_ua r);
  er_ext : exists w, eigh (c_focke c) = Ok (w, r_ue r);
  er_occi_len : length (r_occi r) = length implst;
  er_occb_len : length (r_occb r) = length (bath_positions (d_nao d) implst);
  er_ui_shape : shape (r_ui r) = (length implst, length implst);
  er_ub_shape : shape (r_ub r) = (length (bath_positions (d_nao d) implst),
                                  length (bath_positions (d_nao d) implst));
  er_uc_shape : shape (r_uc r) = (ncols (p_mocore p), ncols (p_mocore p));
  er_ua_shape : shape (r_ua r) = (ncols (p_mocas p), ncols (p_mocas p));
  er_ue_shape : shape (r_ue r) = (ncols (p_moext p), ncols (p_moext p))
}.

End ClosedForms.

(** ** What the claims say about the locals of a run *)

Section Properties.
Context (K : scalar).
Context (eigh : ndarray K -> result (list K * ndarray K)).
Context (orth_ao : Mole K -> ndarray K).

(** Step 5: [core = bathorb[:, 0:ncore]],
    [active = imporb ++ bathorb[:, ncore:ncore+nbath]] with
    [nbath = ncas - nimp], [external = bathorb[:, ncore+nbath:]]; the widths
    add up to [nao] and the active block has [ncas] columns. *)
Definition blocks_assigned (mc : CASSCF K) (g : Mole K) (implst : list Z)
    (d : density_frame K) (p : partition_frame K) : Prop :=
  d_nbath d = (Z.of_nat (cas_ncas mc) - Z.of_nat (length implst))%Z
  /\ p_mocore p = np_cols (p_bathorb p) (Some 0%Z) (Some (Z.of_nat (cas_ncore mc)))
  /\ p_mocas p
     = mhstack (p_imporb p)
         (np_cols (p_bathorb p) (Some (Z.of_nat (cas_ncore mc)))
            (Some (Z.of_nat (cas_ncore mc) + d_nbath d)%Z))
  /\ p_moext p
     = np_cols (p_bathorb p) (Some (Z.of_nat (cas_ncore mc) + d_nbath d)%Z) None
  /\ (ncols (p_mocore p) + ncols (p_mocas p) + ncols (p_moext p))%nat = mol_nao g
  /\ ncols (p_mocas p) = cas_ncas mc.

(** Steps 3 and 4: the index split, the two eigendecompositions of the
    negated blocks, the order of the occupations that follows from
    ascending eigenvalues, and the two rotations. *)
Definition natural_orbitals (g : Mole K) (implst : list Z)
    (d : density_frame K) (p : partition_frame K) : Prop :=
  let imp := imp_positions implst in
  let bath := bath_positions (mol_nao g) implst in
  ia_data (p_implst p) = implst
  /\ Permutation (implst ++ ia_data (p_notimp p))
       (map Z.of_nat (seq 0 (mol_nao g)))
  /\ StronglySorted Z.lt (ia_data (p_notimp p))
  /\ imp = map Z.to_nat (ia_data (p_implst p))
  /\ bath = map Z.to_nat (ia_data (p_notimp p))
  /\ eigh (np_neg (block (d_dm d) imp)) = Ok (p_occi p, p_ui p)
  /\ eigh (np_neg (block (d_dm d) bath)) = Ok (p_occb p, p_ub p)
  /\ (forall i j, (i < length imp)%nat -> (j < length imp)%nat ->
        entry (block (d_dm d) imp) i j
        = entry (d_dm d) (nth i imp 0%nat) (nth j imp 0%nat))
  /\ (forall i j, (i < length bath)%nat -> (j < length bath)%nat ->
        entry (block (d_dm d) bath) i j
        = entry (d_dm d) (nth i bath 0%nat) (nth j bath 0%nat))
  /\ (ascending K (p_occi p) ->
      diagonalises (np_neg (block (d_dm d) imp)) (p_occi p) (p_ui p) ->
      occupations_descending (block (d_dm d) imp) (p_ui p))
  /\ (ascending K (p_occb p) ->
      diagonalises (np_neg (block (d_dm d) bath)) (p_occb p) (p_ub p) ->
      occupations_descending (block (d_dm d) bath) (p_ub p))
  /\ p_imporb p = mdot (take_cols (orth_ao g) imp) (p_ui p)
  /\ p_bathorb p = mdot (take_cols (orth_ao g) bath) (p_ub p).

(** Steps 6 and 7: the Fock matrix, the three canonicalised blocks and
    their assembly, core first, then active, then external. *)
Definition canonical_blocks (mc : CASSCF K) (g : Mole K)
    (p : partition_frame K) (c : canon_frame K) : Prop :=
  c_fock c = spec_fock (mol_ovlp g) (mo_coeff (cas_scf mc))
               (mo_energy (cas_scf mc))
  /\ spec_canonicalize eigh (c_fock c) (p_mocore p) = Ok (c_mocore c)
  /\ spec_canonicalize eigh (c_fock c) (p_mocas p) = Ok (c_mocas c)
  /\ spec_canonicalize eigh (c_fock c) (p_moext p) = Ok (c_moext c)
  /\ c_mo_init c = spec_assemble (c_mocore c) (c_mocas c) (c_moext c)
  /\ shape (c_mo_init c) = (mol_nao g, mol_nao g)
  /\ forall i, (i < mol_nao g)%nat ->
       (forall j, (j < cas_ncore mc)%nat ->
          entry (c_mo_init c) i j = entry (c_mocore c) i j)
       /\ (forall j, (j < cas_ncas mc)%nat ->
          entry (c_mo_init c) i (cas_ncore mc + j) = entry (c_mocas c) i j)
       /\ (forall j, (j < mol_nao g - cas_ncore mc - cas_ncas mc)%nat ->
          entry (c_mo_init c) i (cas_ncore mc + cas_ncas mc + j)
          = entry (c_moext c) i j).

End Properties.

(** ** Concrete runs

    The scenario of the specification: four atomic orbitals, identity
    overlap, a diagonal density matrix, one core orbital, two active
    orbitals and the impurity list [[1]]. *)

Module Scenario.

(** An eigensolver for concrete runs.  On a square matrix it returns the
    diagonal as eigenvalues and the identity as eigenvectors: what [eigh]
    returns, up to the sign of each eigenvector, on a diagonal matrix whose
    diagonal is strictly ascending. *)
Definition eigh_diagonal (a : ndarray Zscalar)
    : result (list Z * ndarray Zscalar) :=
  if Nat.eqb (nrows a) (ncols a) then
    Ok (map (fun i => entry a i i) (seq 0 (nrows a)), identity Zscalar (nrows a))
  else Raise ValueError.

Definition diag (l : list Z) : ndarray Zscalar :=
  tabulate Zscalar (length l) (length l)
    (fun i j => if Nat.eqb i j then nth i l 0%Z else 0%Z).

(** A second basis for the same four orbitals, in which the first two
    functions overlap, and a transform that orthogonalises it. *)
Definition sheared_ovlp : ndarray Zscalar :=
  @NDArray Zscalar 4 4
    [[1; -1; 0; 0]; [-1; 2; 0; 0]; [0; 0; 1; 0]; [0; 0; 0; 1]]%Z.

Definition sheared_orth : ndarray Zscalar :=
  @NDArray Zscalar 4 4
    [[1; 1; 0; 0]; [0; 1; 0; 0]; [0; 0; 1; 0]; [0; 0; 0; 1]]%Z.

(** The orthogonalising transform of the molecules of the examples: the
    identity for a basis with identity overlap, [sheared_orth] for the
    basis with overlap [sheared_ovlp]. *)
Definition orth_ao (m : Mole Zscalar) : ndarray Zscalar :=
  if bool_decide ((rows (mol_ovlp m) : list (list Z)) = rows sheared_ovlp)
  then sheared_orth
  else identity Zscalar (mol_nao m).

Definition mol4 : Mole Zscalar :=
  {| mol_nao := 4; mol_ovlp := identity Zscalar 4;
     mol_labels := ["0 Fe 3dxy"; "0 Fe 4s"; "1 N 2px"; "1 N 2pz"];
     mol_spin := 4 |}.

Definition dm_alpha : ndarray Zscalar := diag [1; 1; 1; 0]%Z.
Definition dm_beta : ndarray Zscalar := diag [1; 0; 0; 0]%Z.

Definition mf4 : SCF Zscalar :=
  {| scf_mol := 0; mo_coeff := identity Zscalar 4;
     mo_energy := [-3; -2; -1; 5]%Z;
     scf_rdm1 := [dm_alpha; dm_beta] |}.

Definition mc4 (ncore ncas : nat) : CASSCF Zscalar :=
  {| cas_mol := 0; cas_ncore := ncore; cas_ncas := ncas; cas_scf := mf4 |}.

Definition mol4_sheared : Mole Zscalar :=
  {| mol_nao := 4; mol_ovlp := sheared_ovlp;
     mol_labels := ["0 Fe 3dxy"; "0 Fe 4s"; "1 N 2px"; "1 N 2pz"];
     mol_spin := 4 |}.

(** The global [mol] is the molecule that [mc.mol] refers to. *)
Definition st4 : state Zscalar :=
  {| globals := <["mol" := VMole 0]> ∅;
     heap := <[0 := mol4]> ∅;
     selector_calls := 0 |}.

(** The same state later in a session: more names are bound and the
    selector has been called once. *)
Definition st4_later : state Zscalar :=
  {| globals := <["mf" := VSCF mf4]> (<["mol" := VMole 0]> ∅);
     heap := <[0 := mol4]> ∅;
     selector_calls := 1 |}.

(** The global [mol] has been rebound to another molecule; [mc.mol] still
    refers to the first one. *)
Definition st4_rebound : state Zscalar :=
  {| globals := <["mol" := VMole 1]> ∅;
     heap := <[1 := mol4_sheared]> (<[0 := mol4]> ∅);
     selector_calls := 0 |}.

(** An engine around [eigh_diagonal] and [orth_ao], whose mean-field and
    active-space steps return the objects of the scenario. *)
Definition engine4 : engine Zscalar :=
  {| eng_eigh := eigh_diagonal;
     eng_orth_ao := orth_ao;
     eng_build := mol4;
     eng_ROHF := fun l _ => {| scf_mol := l; mo_coeff := identity Zscalar 4;
                               mo_energy := []; scf_rdm1 := [] |};
     eng_fast_newton := fun _ _ => Ok mf4;
     eng_DMRGSCF := fun _ f _ _ => Ok {| cas_mol := scf_mol f; cas_ncore := 1;
                                         cas_ncas := 2; cas_scf := f |};
     eng_kernel := fun _ _ => Ok tt;
     eng_nevpt := fun _ => Ok tt |}.

End Scenario.

(** ** Contracts for any impurity list, for molecules that differ and for
       the eigensolver *)

(** The position that an index picks on an axis of length [len], once
    numpy has accepted it. *)
Definition wrap_index (len : nat) (i : Z) : nat :=
  Z.to_nat (if (i <? 0)%Z then (i + Z.of_nat len)%Z else i).

(** The indices that numpy accepts on an axis of length [len]. *)
Definition resolvable (len : nat) (i : Z) : Prop :=
  (- Z.of_nat len <= i < Z.of_nat len)%Z.

(** The impurity lists on which lines 56-61 raise nothing: not empty, every
    index accepted, and some orbital of [range(nao)] left for the bath. *)
Definition selectable (nao : nat) (implst : list Z) : Prop :=
  implst <> []
  /\ List.Forall (resolvable nao) implst
  /\ exists i, (0 <= i < Z.of_nat nao)%Z /\ ~ In i implst.

Section FurtherContracts.
Context (K : scalar).

(** The global [mol] is [g], [mc.mol] is [mm] (possibly another molecule),
    and the arrays have the shapes that [g] asks for. *)
Record fitting_shapes (orth_ao : Mole K -> ndarray K) (st : state K)
    (mc : CASSCF K) (dma dmb : ndarray K) (g mm : Mole K) : Prop := {
  fs_global : exists l, globals st !! "mol" = Some (VMole l)
                        /\ heap st !! l = Some g;
  fs_mc_mol : heap st !! cas_mol mc = Some mm;
  fs_corth : shape (orth_ao g) = (mol_nao g, mol_nao g);
  fs_ovlp : shape (mol_ovlp g) = (mol_nao g, mol_nao g);
  fs_dma : shape dma = (mol_nao g, mol_nao g);
  fs_dmb : shape dmb = (mol_nao g, mol_nao g);
  fs_hf_rows : nrows (mo_coeff (cas_scf mc)) = mol_nao g;
  fs_hf_cols : ncols (mo_coeff (cas_scf mc)) = length (mo_energy (cas_scf mc))
}.

(** The locals of lines 37-49 when [mc.mol] has [nao] orbitals and the
    global [mol] is [g]. *)
Definition density_with (orth_ao : Mole K -> ndarray K) (nao : nat)
    (mc : CASSCF K) (dma dmb : ndarray K) (implst : list Z) (g : Mole K)
    : density_frame K :=
  {| d_nao := nao;
     d_ncore := cas_ncore mc;
     d_ncas := cas_ncas mc;
     d_nocc := cas_ncore mc + cas_ncas mc;
     d_nimp := length implst;
     d_nbath := (Z.of_nat (cas_ncas mc) - Z.of_nat (length implst))%Z;
     d_corth := orth_ao g;
     d_s := mol_ovlp g;
     d_cinv := spec_cinv (orth_ao g) (mol_ovlp g);
     d_dm_mixed := spec_dm_mixed dma dmb;
     d_dm := spec_dm_orth (orth_ao g) (mol_ovlp g) dma dmb |}.

(** Two eigensolvers that return the same eigenvectors, and fail alike,
    whatever eigenvalues they report. *)
Definition same_eigenvectors
    (eigh1 eigh2 : ndarray K -> result (list K * ndarray K)) : Prop :=
  forall a,
    match eigh1 a, eigh2 a with
    | Ok (_, u1), Ok (_, u2) => u1 = u2
    | Raise e1, Raise e2 => e1 = e2
    | _, _ => False
    end.

(** The eigensolver diagonalises the matrix [a]: whatever it returns for
    [a] satisfies [u.T a u = diag(w)]. *)
Definition eigh_diagonalises
    (eigh : ndarray K -> result (list K * ndarray K)) (a : ndarray K) : Prop :=
  forall w u, eigh a = Ok (w, u) -> diagonalises a w u.

(** A square array that equals its transpose. *)
Definition symmetric (a : ndarray K) : Prop :=
  nrows a = ncols a
  /\ forall i j, (i < nrows a)%nat -> (j < nrows a)%nat ->
       entry a i j = entry a j i.

End FurtherContracts.

(** ** The impurity labels and the report of the script *)

(** The four substrings that lines 157-158 and 195-196 look for in an
    orbital label. *)
Definition impurity_patterns : list string :=
  ["Fe 3d"; "Fe 4d"; "Fe 4s"; "N 2pz"].

Section Report.
Context (K : scalar).
Context (E : engine K).

(** [mo[:, ncore:ncore+ncas]] (lines 165 and 203) *)
Definition active_columns (mo : ndarray K) (ncore ncas : nat) : ndarray K :=
  np_cols mo (Some (Z.of_nat ncore)) (Some (Z.of_nat ncore + Z.of_nat ncas)%Z).

(** [reduce(numpy.dot, (cas_t.T, s, cas_q))] (line 214) *)
Definition active_overlap (cas_t s cas_q : ndarray K) : result (ndarray K) :=
  reduce_dot [np_T cas_t; s; cas_q].

(** Every molecule of the state keeps the spin [v]. *)
Definition spin_kept (v : Z) (st st' : state K) : Prop :=
  (forall l m, heap st !! l = Some m -> mol_spin m = v) ->
  forall l m, heap st' !! l = Some m -> mol_spin m = v.

(** Lines 3-146, the statements before the first use of [m]. *)
Definition before_first_m : list (script K unit) :=
  [lines_3_12 (K := K); line_35 (K := K); lines_98_143 E; stmt_rohf E;
   stmt_fast_newton E].

End Report.

(** ** Further concrete inputs *)

Module Cases.

(** An eigensolver with the eigenvectors of [Scenario.eigh_diagonal] that
    reports no eigenvalues. *)
Definition eigh_vectors_only (a : ndarray Zscalar)
    : result (list Z * ndarray Zscalar) :=
  if Nat.eqb (nrows a) (ncols a) then Ok ([], identity Zscalar (nrows a))
  else Raise ValueError.

(** A molecule with the first three orbitals of [Scenario.mol4]. *)
Definition mol3 : Mole Zscalar :=
  {| mol_nao := 3; mol_ovlp := identity Zscalar 3;
     mol_labels := ["0 Fe 3dxy"; "0 Fe 4s"; "1 N 2px"];
     mol_spin := 4 |}.

(** The global [mol] is [Scenario.mol4]; the solver object [mc3] refers to
    [mol3]. *)
Definition st_two_molecules : state Zscalar :=
  {| globals := <["mol" := VMole 0]> ∅;
     heap := <[1 := mol3]> (<[0 := Scenario.mol4]> ∅);
     selector_calls := 0 |}.

Definition mc3 : CASSCF Zscalar :=
  {| cas_mol := 1; cas_ncore := 1; cas_ncas := 2; cas_scf := Scenario.mf4 |}.

(** Density matrices for two orbitals only. *)
Definition dm_small : ndarray Zscalar := Scenario.diag [1; 1]%Z.

(** A solver object whose mean-field part reports two orbital energies
    for four orbitals. *)
Definition mc_short_energies : CASSCF Zscalar :=
  {| cas_mol := 0; cas_ncore := 1; cas_ncas := 2;
     cas_scf := {| scf_mol := 0; mo_coeff := identity Zscalar 4;
                   mo_energy := [-3; -2]%Z;
                   scf_rdm1 := [Scenario.dm_alpha; Scenario.dm_beta] |} |}.

End Cases.

(** * Facts *)

Unset Implicit Arguments.

(** ** Sums and arrays *)

Section ArrayFacts.
Context (K : scalar).
Add Ring Kring_facts : (num_ring K).
Local Open Scope num_scope.

Local Abbreviation sum := (sum_n K).
Local Abbreviation arr := (ndarray K).

Lemma sum_n_ext n (f g : nat -> K) :
  (forall k, (k < n)%nat -> f k = g k) -> sum n f = sum n g.
Proof.
  induction n as [|n IH]; intros H; simpl; [reflexivity|].
  rewrite IH by (intros; apply H; lia). rewrite H by lia. reflexivity.
Qed.

Lemma sum_n_zero n : sum n (fun _ => 0) = 0.
Proof. induction n as [|n IH]; simpl; [reflexivity|]. rewrite IH. ring. Qed.

Lemma sum_n_add n (f g : nat -> K) :
  sum n (fun k => f k + g k) = sum n f + sum n g.
Proof. induction n as [|n IH]; simpl; [ring|]. rewrite IH. ring. Qed.

Lemma sum_n_opp n (f : nat -> K) : sum n (fun k => - f k) = - sum n f.
Proof. induction n as [|n IH]; simpl; [ring|]. rewrite IH. ring. Qed.

Lemma sum_n_mul_l n (c : K) (f : nat -> K) :
  sum n (fun k => c * f k) = c * sum n f.
Proof. induction n as [|n IH]; simpl; [ring|]. rewrite IH. ring. Qed.

Lemma sum_n_mul_r n (c : K) (f : nat -> K) :
  sum n (fun k => f k * c) = sum n f * c.
Proof. induction n as [|n IH]; simpl; [ring|]. rewrite IH. ring. Qed.

Lemma sum_n_swap n m (f : nat -> nat -> K) :
  sum n (fun i => sum m (fun j => f i j)) = sum m (fun j => sum n (fun i => f i j)).
Proof.
  induction n as [|n IH]; simpl.
  - symmetry. apply sum_n_zero.
  - rewrite IH. rewrite <- sum_n_add. reflexivity.
Qed.

(** Only the term at [a] survives a sum against [delta a]. *)
Lemma sum_n_delta_l n a (f : nat -> K) :
  (a < n)%nat -> sum n (fun k => delta K a k * f k) = f a.
Proof.
  unfold delta. induction n as [|n IH]; intros Ha; [lia|]. simpl.
  destruct (Nat.eq_dec a n) as [->|Hne].
  - rewrite Nat.eqb_refl.
    rewrite (sum_n_ext n _ (fun _ => 0)).
    + rewrite sum_n_zero. ring.
    + intros k Hk. destruct (Nat.eqb_spec n k); [lia|ring].
  - rewrite IH by lia. destruct (Nat.eqb_spec a n); [lia|ring].
Qed.

Lemma delta_sym (i j : nat) : delta K i j = delta K j i.
Proof. unfold delta. rewrite Nat.eqb_sym. reflexivity. Qed.

Lemma delta_eq (i : nat) : delta K i i = 1.
Proof. unfold delta. rewrite Nat.eqb_refl. reflexivity. Qed.

Lemma delta_ne (i j : nat) : i <> j -> delta K i j = 0.
Proof. unfold delta. intros H. destruct (Nat.eqb_spec i j); [contradiction|reflexivity]. Qed.

Lemma nth_map_seq {A} (g : nat -> A) n i d :
  (i < n)%nat -> nth i (map g (seq 0 n)) d = g i.
Proof.
  intros Hi. rewrite (nth_indep _ d (g 0%nat)) by (rewrite length_map, length_seq; lia).
  rewrite map_nth, seq_nth by lia. reflexivity.
Qed.

Lemma entry_tabulate r c (f : nat -> nat -> K) i j :
  (i < r)%nat -> (j < c)%nat -> entry (tabulate K r c f) i j = f i j.
Proof.
  intros Hi Hj. unfold entry, tabulate. simpl.
  rewrite (nth_map_seq (fun i => map (f i) (seq 0 c)) r i [] Hi).
  apply nth_map_seq. exact Hj.
Qed.

Lemma tabulate_ext r c (f g : nat -> nat -> K) :
  (forall i j, (i < r)%nat -> (j < c)%nat -> f i j = g i j) ->
  tabulate K r c f = tabulate K r c g.
Proof.
  intros H. unfold tabulate. f_equal.
  apply map_ext_in. intros i Hi. apply in_seq in Hi.
  apply map_ext_in. intros j Hj. apply in_seq in Hj.
  apply H; lia.
Qed.

Lemma wf_tabulate r c (f : nat -> nat -> K) : wf_ndarray (tabulate K r c f).
Proof.
  split; simpl.
  - rewrite length_map, length_seq. reflexivity.
  - apply List.Forall_forall. intros row Hrow. apply in_map_iff in Hrow.
    destruct Hrow as [i [<- _]]. rewrite length_map, length_seq. reflexivity.
Qed.

Lemma list_eq_nth {A} (d : A) (l1 l2 : list A) :
  length l1 = length l2 ->
  (forall i, (i < length l1)%nat -> nth i l1 d = nth i l2 d) -> l1 = l2.
Proof.
  revert l2. induction l1 as [|x l1 IH]; intros [|y l2] Hlen H; simpl in *;
    try discriminate; [reflexivity|].
  f_equal.
  - apply (H 0%nat). lia.
  - apply IH; [lia|]. intros i Hi. apply (H (S i)). lia.
Qed.

(** A well-formed array is the table of its entries. *)
Lemma tabulate_entry (a : arr) :
  wf_ndarray a -> tabulate K (nrows a) (ncols a) (entry a) = a.
Proof.
  destruct a as [r c rs]. intros [Hlen Hrows]. simpl in *.
  unfold tabulate. f_equal.
  apply (list_eq_nth []).
  - rewrite length_map, length_seq. symmetry. exact Hlen.
  - intros i Hi. rewrite length_map, length_seq in Hi.
    rewrite (nth_map_seq _ _ _ [] Hi).
    assert (Hrow : length (nth i rs []) = c).
    { rewrite List.Forall_forall in Hrows. apply Hrows. apply nth_In. lia. }
    apply (list_eq_nth (0 : K)).
    + rewrite length_map, length_seq. symmetry. exact Hrow.
    + intros j Hj. rewrite length_map, length_seq in Hj.
      rewrite (nth_map_seq _ _ _ _ Hj). reflexivity.
Qed.

(** Entries of the results of the array operations. *)
Lemma entry_mdot (a b : arr) i j :
  (i < nrows a)%nat -> (j < ncols b)%nat ->
  entry (mdot a b) i j = sum (ncols a) (fun k => entry a i k * entry b k j).
Proof. intros Hi Hj. unfold mdot. rewrite entry_tabulate by assumption. reflexivity. Qed.

Lemma entry_np_T (a : arr) i j :
  (i < ncols a)%nat -> (j < nrows a)%nat -> entry (np_T a) i j = entry a j i.
Proof. intros Hi Hj. unfold np_T. rewrite entry_tabulate by assumption. reflexivity. Qed.

Lemma entry_np_neg (a : arr) i j :
  (i < nrows a)%nat -> (j < ncols a)%nat -> entry (np_neg a) i j = - entry a i j.
Proof. intros Hi Hj. unfold np_neg. rewrite entry_tabulate by assumption. reflexivity. Qed.

Lemma entry_take_cols (a : arr) js i j :
  (i < nrows a)%nat -> (j < length js)%nat ->
  entry (take_cols a js) i j = entry a i (nth j js 0%nat).
Proof. intros Hi Hj. unfold take_cols. rewrite entry_tabulate by assumption. reflexivity. Qed.

Lemma entry_take_rows (a : arr) ris i j :
  (i < length ris)%nat -> (j < ncols a)%nat ->
  entry (take_rows a ris) i j = entry a (nth i ris 0%nat) j.
Proof. intros Hi Hj. unfold take_rows. rewrite entry_tabulate by assumption. reflexivity. Qed.

Lemma entry_block (a : arr) idx i j :
  (i < length idx)%nat -> (j < length idx)%nat ->
  (nth j idx 0 < ncols a)%nat ->
  entry (block a idx) i j = entry a (nth i idx 0%nat) (nth j idx 0%nat).
Proof.
  intros Hi Hj Hc. unfold block.
  rewrite entry_take_cols by (simpl; assumption).
  apply entry_take_rows; assumption.
Qed.

Lemma entry_np_cols (a : arr) lo hi i j :
  (i < nrows a)%nat -> (j < slice_len (ncols a) lo hi)%nat ->
  entry (np_cols a lo hi) i j = entry a i (slice_start (ncols a) lo + j).
Proof. intros Hi Hj. unfold np_cols. rewrite entry_tabulate by assumption. reflexivity. Qed.

Lemma entry_mhstack_l (a b : arr) i j :
  (i < nrows a)%nat -> (j < ncols a)%nat ->
  entry (mhstack a b) i j = entry a i j.
Proof.
  intros Hi Hj. unfold mhstack. rewrite entry_tabulate by lia.
  destruct (Nat.ltb_spec j (ncols a)); [reflexivity|lia].
Qed.

Lemma entry_mhstack_r (a b : arr) i j :
  (i < nrows a)%nat -> (ncols a <= j < ncols a + ncols b)%nat ->
  entry (mhstack a b) i j = entry b i (j - ncols a).
Proof.
  intros Hi Hj. unfold mhstack. rewrite entry_tabulate by lia.
  destruct (Nat.ltb_spec j (ncols a)); [lia|reflexivity].
Qed.

Lemma entry_identity n i j :
  (i < n)%nat -> (j < n)%nat -> entry (identity K n) i j = delta K i j.
Proof. intros Hi Hj. unfold identity. rewrite entry_tabulate by assumption. reflexivity. Qed.

(** Stacking an array without columns to the right changes nothing. *)
Lemma mhstack_empty_r (a b : arr) :
  wf_ndarray a -> ncols b = 0%nat -> mhstack a b = a.
Proof.
  intros Hwf Hb. unfold mhstack. rewrite Hb, Nat.add_0_r.
  transitivity (tabulate K (nrows a) (ncols a) (entry a));
    [|apply tabulate_entry; exact Hwf].
  apply tabulate_ext. intros i j Hi Hj.
  destruct (Nat.ltb_spec j (ncols a)); [reflexivity|lia].
Qed.

Lemma identity_orthonormal_columns n : orthonormal_columns (identity K n).
Proof.
  intros i j Hi Hj. simpl in *.
  rewrite (sum_n_ext n _ (fun k => delta K k i * delta K k j)).
  - rewrite (sum_n_ext n _ (fun k => delta K i k * delta K k j)).
    + rewrite (sum_n_delta_l n i (fun k => delta K k j)) by exact Hi. reflexivity.
    + intros k Hk. rewrite (delta_sym k i). reflexivity.
  - intros k Hk. rewrite !entry_identity by assumption. reflexivity.
Qed.

Lemma wf_mdot (a b : arr) : wf_ndarray (mdot a b).
Proof. apply wf_tabulate. Qed.

End ArrayFacts.

(** ** Index lists *)

Section IndexFacts.

Lemma resolve_index_in_range n i :
  (0 <= i < Z.of_nat n)%Z -> resolve_index n i = Ok (Z.to_nat i).
Proof.
  intros H. unfold resolve_index.
  destruct (Z.leb_spec 0 i); [|lia]. destruct (Z.ltb_spec i (Z.of_nat n)); [|lia].
  reflexivity.
Qed.

Lemma rmapM_resolve n l :
  List.Forall (fun i => (0 <= i < Z.of_nat n)%Z) l ->
  rmapM (resolve_index n) l = Ok (map Z.to_nat l).
Proof.
  induction 1 as [|i l Hi _ IH]; simpl; [reflexivity|].
  rewrite (resolve_index_in_range _ _ Hi). simpl. rewrite IH. reflexivity.
Qed.

Lemma np_asarray_data l : ia_data (np_asarray l) = l.
Proof. destruct l; reflexivity. Qed.

Lemma np_asarray_nonempty l : l <> [] -> np_asarray l = IndexArray Int64 l.
Proof. destruct l; [contradiction|reflexivity]. Qed.

Lemma index_list_asarray n l :
  l <> [] -> List.Forall (fun i => (0 <= i < Z.of_nat n)%Z) l ->
  index_list n (np_asarray l) = Ok (map Z.to_nat l).
Proof.
  intros Hne Hr. rewrite (np_asarray_nonempty _ Hne). unfold index_list. simpl.
  apply rmapM_resolve. exact Hr.
Qed.

Lemma np_contains_spec l i : np_contains (np_asarray l) i = true <-> In i l.
Proof.
  unfold np_contains. rewrite np_asarray_data, existsb_exists. split.
  - intros [x [Hx Heq]]. apply Z.eqb_eq in Heq. subst. exact Hx.
  - intros Hi. exists i. split; [exact Hi|apply Z.eqb_refl].
Qed.

Lemma complement_spec nao implst i :
  In i (complement nao (np_asarray implst)) <-> (0 <= i < Z.of_nat nao)%Z /\ ~ In i implst.
Proof.
  unfold complement. rewrite filter_In, in_map_iff, negb_true_iff. split.
  - intros [[k [<- Hk]] Hc]. apply in_seq in Hk. split; [lia|].
    intros Hin. apply np_contains_spec in Hin. congruence.
  - intros [Hr Hn]. split.
    + exists (Z.to_nat i). split; [lia|]. apply in_seq. lia.
    + destruct (np_contains (np_asarray implst) i) eqn:E; [|reflexivity].
      apply np_contains_spec in E. contradiction.
Qed.

Lemma complement_in_range nao implst :
  List.Forall (fun i => (0 <= i < Z.of_nat nao)%Z) (complement nao (np_asarray implst)).
Proof.
  apply List.Forall_forall. intros i Hi. apply complement_spec in Hi. tauto.
Qed.

Lemma NoDup_map_of_nat l : List.NoDup l -> List.NoDup (map Z.of_nat l).
Proof.
  induction 1 as [|x l Hx _ IH]; simpl; constructor; [|exact IH].
  rewrite in_map_iff. intros [y [Hy Hin]]. apply Nat2Z.inj in Hy. subst.
  contradiction.
Qed.

Lemma complement_NoDup nao implst : List.NoDup (complement nao (np_asarray implst)).
Proof.
  unfold complement. apply List.NoDup_filter, NoDup_map_of_nat, List.seq_NoDup.
Qed.

(** The complement keeps the increasing order of [range(nao)]. *)
Lemma complement_sorted nao implst :
  StronglySorted Z.lt (complement nao (np_asarray implst)).
Proof.
  unfold complement.
  assert (Hs : forall n s, StronglySorted Z.lt (map Z.of_nat (seq s n))).
  { induction n as [|n IH]; intros s; simpl; constructor; [apply IH|].
    apply List.Forall_forall. intros x Hx. apply in_map_iff in Hx.
    destruct Hx as [k [<- Hk]]. apply in_seq in Hk. lia. }
  generalize (Hs nao 0%nat). generalize (map Z.of_nat (seq 0 nao)).
  induction 1 as [|x l Hl IH Hx]; simpl; [constructor|].
  destruct (negb _); [|exact IH]. constructor; [exact IH|].
  apply List.Forall_forall. intros y Hy. apply filter_In in Hy.
  rewrite List.Forall_forall in Hx. apply Hx. tauto.
Qed.

(** Impurity list and complement split [range(nao)]. *)
Lemma split_range nao implst :
  List.NoDup implst ->
  List.Forall (fun i => (0 <= i < Z.of_nat nao)%Z) implst ->
  Permutation (implst ++ complement nao (np_asarray implst)) (map Z.of_nat (seq 0 nao)).
Proof.
  intros Hnd Hr. apply Permutation.NoDup_Permutation.
  - apply List.NoDup_app; [exact Hnd|apply complement_NoDup|].
    intros x Hx Hc. apply complement_spec in Hc. tauto.
  - apply NoDup_map_of_nat, List.seq_NoDup.
  - intros x. rewrite in_app_iff, complement_spec, in_map_iff.
    rewrite List.Forall_forall in Hr. split.
    + intros [Hx|[Hx _]].
      * specialize (Hr x Hx). exists (Z.to_nat x). split; [lia|apply in_seq; lia].
      * exists (Z.to_nat x). split; [lia|apply in_seq; lia].
    + intros [k [<- Hk]]. apply in_seq in Hk.
      destruct (in_dec Z.eq_dec (Z.of_nat k) implst); [left; assumption|].
      right. split; [lia|assumption].
Qed.

Lemma complement_length nao implst :
  List.NoDup implst ->
  List.Forall (fun i => (0 <= i < Z.of_nat nao)%Z) implst ->
  (length implst + length (complement nao (np_asarray implst)) = nao)%nat.
Proof.
  intros Hnd Hr. pose proof (Permutation_length (split_range nao implst Hnd Hr)) as H.
  rewrite length_app, length_map, length_seq in H. exact H.
Qed.

Lemma NoDup_map_to_nat l :
  List.NoDup l -> List.Forall (fun i => (0 <= i)%Z) l ->
  List.NoDup (map Z.to_nat l).
Proof.
  induction 1 as [|x l Hx _ IH]; intros Hr; simpl; constructor.
  - rewrite in_map_iff. intros [y [Hy Hin]].
    inversion Hr as [|? ? Hx0 Hl]; subst.
    rewrite List.Forall_forall in Hl. specialize (Hl y Hin).
    assert (x = y) by lia. subst. contradiction.
  - apply IH. inversion Hr; assumption.
Qed.

End IndexFacts.

(** ** The array operations succeed on fitting shapes *)

Section OperationFacts.
Context (K : scalar).
Add Ring Kring_ops : (num_ring K).
Local Open Scope num_scope.

Lemma np_dot_ok (a b : ndarray K) :
  ncols a = nrows b -> np_dot a b = Ok (mdot a b).
Proof. intros H. unfold np_dot. rewrite H, Nat.eqb_refl. reflexivity. Qed.

Lemma hstack2_ok (a b : ndarray K) :
  nrows a = nrows b -> hstack2 a b = Ok (mhstack a b).
Proof. intros H. unfold hstack2. rewrite H, Nat.eqb_refl. reflexivity. Qed.

Lemma bidx_in_range dim i : (i < dim)%nat -> bidx dim i = i.
Proof.
  intros H. unfold bidx. destruct (Nat.eqb_spec dim 1); [lia|reflexivity].
Qed.

Lemma np_add_ok (a b : ndarray K) :
  nrows a = nrows b -> ncols a = ncols b ->
  np_add a b = Ok (spec_dm_mixed a b).
Proof.
  intros Hr Hc. unfold np_add, broadcast_dim.
  rewrite <- Hr, <- Hc, !Nat.eqb_refl. simpl. f_equal.
  apply tabulate_ext. intros i j Hi Hj.
  rewrite !bidx_in_range by assumption. reflexivity.
Qed.

Lemma np_mul_vec_ok (a : ndarray K) (v : list K) :
  ncols a = length v -> np_mul_vec a v = Ok (scale_columns a v).
Proof.
  intros Hc. unfold np_mul_vec, broadcast_dim.
  rewrite <- Hc, Nat.eqb_refl. simpl. f_equal.
  apply tabulate_ext. intros i j Hi Hj.
  rewrite !bidx_in_range by assumption. reflexivity.
Qed.

Lemma np_take_rows_ok (a : ndarray K) (l : list Z) :
  l <> [] -> List.Forall (fun i => (0 <= i < Z.of_nat (nrows a))%Z) l ->
  np_take_rows a (np_asarray l) = Ok (take_rows a (map Z.to_nat l)).
Proof.
  intros Hne Hr. unfold np_take_rows.
  rewrite (index_list_asarray _ _ Hne Hr). reflexivity.
Qed.

Lemma np_take_cols_ok (a : ndarray K) (l : list Z) :
  l <> [] -> List.Forall (fun i => (0 <= i < Z.of_nat (ncols a))%Z) l ->
  np_take_cols a (np_asarray l) = Ok (take_cols a (map Z.to_nat l)).
Proof.
  intros Hne Hr. unfold np_take_cols.
  rewrite (index_list_asarray _ _ Hne Hr). reflexivity.
Qed.

Lemma sub_block_ok (a : ndarray K) (l : list Z) n :
  nrows a = n -> ncols a = n ->
  l <> [] -> List.Forall (fun i => (0 <= i < Z.of_nat n)%Z) l ->
  sub_block a (np_asarray l)
  = Ok (take_cols (take_rows a (map Z.to_nat l)) (map Z.to_nat l)).
Proof.
  intros Hr Hc Hne Hl. unfold sub_block. subst n.
  rewrite (np_take_rows_ok _ _ Hne Hl). simpl.
  apply np_take_cols_ok; [exact Hne|]. simpl. rewrite Hc. exact Hl.
Qed.

End OperationFacts.

(** ** Orthonormality in the metric of the overlap matrix *)

Section GramFacts.
Context (K : scalar).
Add Ring Kring_gram : (num_ring K).
Local Open Scope num_scope.

Local Abbreviation sum := (sum_n K).
Local Abbreviation arr := (ndarray K).

(** [gram s a b] lists the entries of [a.T . s . b]. *)
Lemma gram_entry (s a b : arr) i j :
  nrows a = nrows s -> nrows b = ncols s ->
  (i < ncols a)%nat -> (j < ncols b)%nat ->
  entry (mdot (mdot (np_T a) s) b) i j = gram s a b i j.
Proof.
  intros Ha Hb Hi Hj. unfold gram.
  rewrite entry_mdot by (simpl; assumption). simpl.
  rewrite (sum_n_ext K (ncols s) _
             (fun q => sum (nrows s) (fun p => entry a p i * entry s p q * entry b q j))).
  - apply sum_n_swap.
  - intros q Hq. rewrite entry_mdot by (simpl; assumption). simpl.
    rewrite Ha, <- sum_n_mul_r. apply sum_n_ext. intros p Hp.
    rewrite entry_np_T by (rewrite ?Ha; assumption). reflexivity.
Qed.

(** Rotating the right argument. *)
Lemma gram_mdot_r (s a b v : arr) i j :
  nrows b = ncols s -> (j < ncols v)%nat ->
  gram s a (mdot b v) i j
  = sum (ncols b) (fun l => gram s a b i l * entry v l j).
Proof.
  intros Hb Hj. unfold gram.
  pose (t := fun p q l => entry a p i * entry s p q * entry b q l * entry v l j).
  transitivity (sum (nrows s) (fun p => sum (ncols b) (fun l =>
                  sum (ncols s) (fun q => t p q l)))).
  - apply sum_n_ext. intros p Hp.
    rewrite (sum_n_swap K (ncols b) (ncols s) (fun l q => t p q l)).
    apply sum_n_ext. intros q Hq.
    rewrite entry_mdot by (rewrite ?Hb; assumption).
    rewrite <- sum_n_mul_l. apply sum_n_ext. intros l Hl. unfold t. ring.
  - rewrite (sum_n_swap K (nrows s) (ncols b)
               (fun p l => sum (ncols s) (fun q => t p q l))).
    apply sum_n_ext. intros l Hl.
    rewrite <- sum_n_mul_r. apply sum_n_ext. intros p Hp.
    rewrite <- sum_n_mul_r. reflexivity.
Qed.

(** Rotating the left argument. *)
Lemma gram_mdot_l (s a b u : arr) i j :
  nrows a = nrows s -> (i < ncols u)%nat ->
  gram s (mdot a u) b i j
  = sum (ncols a) (fun k => entry u k i * gram s a b k j).
Proof.
  intros Ha Hi. unfold gram.
  pose (t := fun p q k => entry u k i * (entry a p k * entry s p q * entry b q j)).
  transitivity (sum (nrows s) (fun p => sum (ncols a) (fun k =>
                  sum (ncols s) (fun q => t p q k)))).
  - apply sum_n_ext. intros p Hp.
    rewrite (sum_n_swap K (ncols a) (ncols s) (fun k q => t p q k)).
    apply sum_n_ext. intros q Hq.
    rewrite entry_mdot by (rewrite ?Ha; assumption).
    rewrite <- !sum_n_mul_r. apply sum_n_ext. intros k Hk. unfold t. ring.
  - rewrite (sum_n_swap K (nrows s) (ncols a)
               (fun p k => sum (ncols s) (fun q => t p q k))).
    apply sum_n_ext. intros k Hk.
    rewrite <- sum_n_mul_l. apply sum_n_ext. intros p Hp.
    rewrite <- sum_n_mul_l. reflexivity.
Qed.

Lemma gram_ext_l (s a a' b : arr) i i' j :
  (forall p, (p < nrows s)%nat -> entry a p i = entry a' p i') ->
  gram s a b i j = gram s a' b i' j.
Proof.
  intros H. unfold gram. apply sum_n_ext. intros p Hp.
  apply sum_n_ext. intros q Hq. rewrite (H p Hp). reflexivity.
Qed.

Lemma gram_ext_r (s a b b' : arr) i j j' :
  (forall q, (q < ncols s)%nat -> entry b q j = entry b' q j') ->
  gram s a b i j = gram s a b' i j'.
Proof.
  intros H. unfold gram. apply sum_n_ext. intros p Hp.
  apply sum_n_ext. intros q Hq. rewrite (H q Hq). reflexivity.
Qed.

(** Rotation by a matrix with orthonormal columns keeps a family
    orthonormal. *)
Lemma s_orthonormal_rot (s a u : arr) :
  nrows a = nrows s -> nrows a = ncols s ->
  nrows u = ncols a -> orthonormal_columns u ->
  s_orthonormal s a -> s_orthonormal s (mdot a u).
Proof.
  intros Ha1 Ha2 Hu Hon Ha i j Hi Hj. simpl in Hi, Hj.
  rewrite gram_mdot_l by assumption.
  rewrite (sum_n_ext K (ncols a) _ (fun k => entry u k i * entry u k j)).
  - rewrite <- Hu. apply Hon; assumption.
  - intros k Hk. f_equal.
    rewrite gram_mdot_r by assumption.
    rewrite (sum_n_ext K (ncols a) _ (fun l => delta K k l * entry u l j)).
    + apply (sum_n_delta_l K (ncols a) k (fun l => entry u l j)). exact Hk.
    + intros l Hl. rewrite (Ha k l Hk Hl). reflexivity.
Qed.

Lemma s_orthogonal_rot (s a b u v : arr) :
  nrows a = nrows s -> nrows b = ncols s ->
  s_orthogonal s a b -> s_orthogonal s (mdot a u) (mdot b v).
Proof.
  intros Ha Hb Hab i j Hi Hj. simpl in Hi, Hj.
  rewrite gram_mdot_l by assumption.
  rewrite (sum_n_ext K (ncols a) _ (fun _ => 0)); [apply sum_n_zero|].
  intros k Hk. rewrite gram_mdot_r by assumption.
  rewrite (sum_n_ext K (ncols b) _ (fun _ => 0)).
  - rewrite sum_n_zero. ring.
  - intros l Hl. rewrite (Hab k l Hk Hl). ring.
Qed.

(** Picking columns. *)
Lemma gram_take_cols (s a b : arr) js ks i j :
  nrows a = nrows s -> nrows b = ncols s ->
  (i < length js)%nat -> (j < length ks)%nat ->
  gram s (take_cols a js) (take_cols b ks) i j
  = gram s a b (nth i js 0%nat) (nth j ks 0%nat).
Proof.
  intros Ha Hb Hi Hj.
  rewrite (gram_ext_l s (take_cols a js) a _ i (nth i js 0%nat) j);
    [|intros p Hp; apply entry_take_cols; [lia|exact Hi]].
  apply gram_ext_r. intros q Hq. apply entry_take_cols; [lia|exact Hj].
Qed.

Lemma s_orthonormal_take_cols (s a : arr) js :
  nrows a = nrows s -> nrows a = ncols s ->
  List.NoDup js -> List.Forall (fun x => (x < ncols a)%nat) js ->
  s_orthonormal s a -> s_orthonormal s (take_cols a js).
Proof.
  intros Ha1 Ha2 Hnd Hr Ha i j Hi Hj. simpl in Hi, Hj.
  rewrite gram_take_cols by assumption.
  rewrite List.Forall_forall in Hr.
  rewrite Ha by (apply Hr, nth_In; assumption).
  destruct (Nat.eq_dec i j) as [->|Hne].
  - rewrite !delta_eq. reflexivity.
  - rewrite !delta_ne; [reflexivity|exact Hne|].
    intros Heq. apply Hne.
    apply (proj1 (List.NoDup_nth js 0%nat) Hnd); assumption.
Qed.

Lemma s_orthogonal_take_cols (s a : arr) js ks :
  nrows a = nrows s -> nrows a = ncols s ->
  List.Forall (fun x => (x < ncols a)%nat) js ->
  List.Forall (fun x => (x < ncols a)%nat) ks ->
  (forall x, In x js -> ~ In x ks) ->
  s_orthonormal s a -> s_orthogonal s (take_cols a js) (take_cols a ks).
Proof.
  intros Ha1 Ha2 Hjs Hks Hdis Ha i j Hi Hj. simpl in Hi, Hj.
  rewrite gram_take_cols by assumption.
  rewrite List.Forall_forall in Hjs, Hks.
  rewrite Ha by (first [apply Hjs; apply nth_In; assumption
                       |apply Hks; apply nth_In; assumption]).
  apply delta_ne. intros Heq.
  apply (Hdis (nth i js 0%nat)); [apply nth_In; exact Hi|].
  rewrite Heq. apply nth_In. exact Hj.
Qed.

(** Slicing columns. *)
Lemma slice_within n lo hi : (slice_start n lo + slice_len n lo hi <= n)%nat.
Proof.
  unfold slice_len, slice_start, slice_bound.
  destruct lo as [lo|], hi as [hi|];
    repeat match goal with
           | |- context [(?a <? ?b)%Z] => destruct (Z.ltb_spec a b)
           end; lia.
Qed.

Lemma gram_np_cols (s a b : arr) lo hi lo' hi' i j :
  nrows a = nrows s -> nrows b = ncols s ->
  (i < slice_len (ncols a) lo hi)%nat -> (j < slice_len (ncols b) lo' hi')%nat ->
  gram s (np_cols a lo hi) (np_cols b lo' hi') i j
  = gram s a b (slice_start (ncols a) lo + i) (slice_start (ncols b) lo' + j).
Proof.
  intros Ha Hb Hi Hj.
  rewrite (gram_ext_l s (np_cols a lo hi) a _ i (slice_start (ncols a) lo + i) j);
    [|intros p Hp; apply entry_np_cols; [lia|exact Hi]].
  apply gram_ext_r. intros q Hq. apply entry_np_cols; [lia|exact Hj].
Qed.

Lemma s_orthonormal_np_cols (s a : arr) lo hi :
  nrows a = nrows s -> nrows a = ncols s ->
  s_orthonormal s a -> s_orthonormal s (np_cols a lo hi).
Proof.
  intros Ha1 Ha2 Ha i j Hi Hj. simpl in Hi, Hj.
  rewrite gram_np_cols by assumption.
  pose proof (slice_within (ncols a) lo hi) as Hw.
  rewrite Ha by lia. unfold delta.
  destruct (Nat.eqb_spec i j), (Nat.eqb_spec (slice_start (ncols a) lo + i)
                                  (slice_start (ncols a) lo + j));
    try reflexivity; lia.
Qed.

(** Two slices that do not overlap. *)
Lemma s_orthogonal_np_cols (s a : arr) lo hi lo' hi' :
  nrows a = nrows s -> nrows a = ncols s ->
  (slice_start (ncols a) lo + slice_len (ncols a) lo hi
     <= slice_start (ncols a) lo'
   \/ slice_start (ncols a) lo' + slice_len (ncols a) lo' hi'
     <= slice_start (ncols a) lo)%nat ->
  s_orthonormal s a ->
  s_orthogonal s (np_cols a lo hi) (np_cols a lo' hi').
Proof.
  intros Ha1 Ha2 Hdis Ha i j Hi Hj. simpl in Hi, Hj.
  rewrite gram_np_cols by assumption.
  pose proof (slice_within (ncols a) lo hi) as Hw.
  pose proof (slice_within (ncols a) lo' hi') as Hw'.
  rewrite Ha by lia. apply delta_ne. lia.
Qed.

Lemma s_orthogonal_np_cols_r (s a b : arr) lo hi :
  nrows b = ncols s ->
  s_orthogonal s a b -> s_orthogonal s a (np_cols b lo hi).
Proof.
  intros Hb Hab i j Hi Hj. simpl in Hj.
  pose proof (slice_within (ncols b) lo hi) as Hw.
  rewrite (gram_ext_r s a (np_cols b lo hi) b i j (slice_start (ncols b) lo + j)).
  - apply Hab; [exact Hi|lia].
  - intros q Hq. apply entry_np_cols; [lia|exact Hj].
Qed.

Lemma s_orthogonal_np_cols_l (s a b : arr) lo hi :
  nrows a = nrows s ->
  s_orthogonal s a b -> s_orthogonal s (np_cols a lo hi) b.
Proof.
  intros Ha Hab i j Hi Hj. simpl in Hi.
  pose proof (slice_within (ncols a) lo hi) as Hw.
  rewrite (gram_ext_l s (np_cols a lo hi) a b i (slice_start (ncols a) lo + i) j);
    [|intros p Hp; apply entry_np_cols; [lia|exact Hi]].
  apply Hab; [lia|exact Hj].
Qed.

(** Stacking side by side. *)
Lemma gram_mhstack_l (s a1 a2 b : arr) i j :
  nrows a1 = nrows s -> nrows a2 = nrows s ->
  (i < ncols a1 + ncols a2)%nat ->
  gram s (mhstack a1 a2) b i j
  = if Nat.ltb i (ncols a1) then gram s a1 b i j
    else gram s a2 b (i - ncols a1) j.
Proof.
  intros H1 H2 Hi. destruct (Nat.ltb_spec i (ncols a1)) as [Hlt|Hge].
  - apply gram_ext_l. intros p Hp. apply entry_mhstack_l; lia.
  - apply gram_ext_l. intros p Hp. apply entry_mhstack_r; lia.
Qed.

Lemma gram_mhstack_r (s a b1 b2 : arr) i j :
  nrows b1 = ncols s ->
  (j < ncols b1 + ncols b2)%nat ->
  gram s a (mhstack b1 b2) i j
  = if Nat.ltb j (ncols b1) then gram s a b1 i j
    else gram s a b2 i (j - ncols b1).
Proof.
  intros H1 Hj. destruct (Nat.ltb_spec j (ncols b1)) as [Hlt|Hge].
  - apply gram_ext_r. intros q Hq. apply entry_mhstack_l; lia.
  - apply gram_ext_r. intros q Hq. apply entry_mhstack_r; lia.
Qed.

Lemma s_orthogonal_mhstack_l (s a1 a2 b : arr) :
  nrows a1 = nrows s -> nrows a2 = nrows s ->
  s_orthogonal s a1 b -> s_orthogonal s a2 b ->
  s_orthogonal s (mhstack a1 a2) b.
Proof.
  intros H1 H2 Ha1 Ha2 i j Hi Hj. simpl in Hi.
  rewrite gram_mhstack_l by assumption.
  destruct (Nat.ltb_spec i (ncols a1)); [apply Ha1|apply Ha2]; lia.
Qed.

Lemma s_orthogonal_mhstack_r (s a b1 b2 : arr) :
  nrows b1 = ncols s ->
  s_orthogonal s a b1 -> s_orthogonal s a b2 ->
  s_orthogonal s a (mhstack b1 b2).
Proof.
  intros H1 Hb1 Hb2 i j Hi Hj. simpl in Hj.
  rewrite gram_mhstack_r by assumption.
  destruct (Nat.ltb_spec j (ncols b1)); [apply Hb1|apply Hb2]; lia.
Qed.

Lemma s_orthonormal_mhstack (s a b : arr) :
  nrows a = nrows s -> nrows b = nrows s -> nrows a = ncols s ->
  s_orthonormal s a -> s_orthonormal s b ->
  s_orthogonal s a b -> s_orthogonal s b a ->
  s_orthonormal s (mhstack a b).
Proof.
  intros Ha1 Hb1 Ha2 Ha Hb Hab Hba i j Hi Hj. simpl in Hi, Hj.
  rewrite gram_mhstack_l by assumption.
  destruct (Nat.ltb_spec i (ncols a)) as [Hil|Hig];
    rewrite gram_mhstack_r by assumption;
    destruct (Nat.ltb_spec j (ncols a)) as [Hjl|Hjg].
  - apply Ha; assumption.
  - rewrite Hab by lia. symmetry. apply delta_ne. lia.
  - rewrite Hba by lia. symmetry. apply delta_ne. lia.
  - rewrite Hb by lia. unfold delta.
    destruct (Nat.eqb_spec (i - ncols a) (j - ncols a)), (Nat.eqb_spec i j);
      try reflexivity; lia.
Qed.

(** An orthonormal family with as many columns as [s] has rows satisfies
    the matrix equation [a.T . s . a = 1]. *)
Lemma s_orthonormal_identity (s a : arr) n :
  nrows a = nrows s -> nrows a = ncols s -> ncols a = n ->
  s_orthonormal s a -> mdot (mdot (np_T a) s) a = identity K n.
Proof.
  intros Ha1 Ha2 Hn Ha.
  assert (H : mdot (mdot (np_T a) s) a
              = tabulate K n n (entry (mdot (mdot (np_T a) s) a))).
  { pose proof (tabulate_entry K (mdot (mdot (np_T a) s) a) (wf_mdot K _ _)) as E.
    simpl in E. rewrite Hn in E. symmetry. exact E. }
  rewrite H. unfold identity. apply tabulate_ext. intros i j Hi Hj.
  rewrite gram_entry by (congruence || lia). apply Ha; lia.
Qed.

Lemma identity_s_orthonormal (s a : arr) n :
  nrows a = nrows s -> nrows a = ncols s -> ncols a = n ->
  mdot (mdot (np_T a) s) a = identity K n -> s_orthonormal s a.
Proof.
  intros Ha1 Ha2 Hn Hid i j Hi Hj.
  rewrite <- gram_entry by (congruence || lia).
  rewrite Hid. apply entry_identity; lia.
Qed.

Lemma gram_np_neg (a u v : arr) i j :
  gram (np_neg a) u v i j = - gram a u v i j.
Proof.
  unfold gram. simpl. rewrite <- sum_n_opp. apply sum_n_ext. intros p Hp.
  rewrite <- sum_n_opp. apply sum_n_ext. intros q Hq.
  rewrite entry_np_neg by assumption. ring.
Qed.

(** Ascending eigenvalues of the negated block are descending
    occupations. *)
Lemma negated_block_order (a u : arr) (w : list K) :
  nrows u = nrows a -> nrows u = ncols a -> length w = ncols u ->
  ascending K w -> diagonalises (np_neg a) w u ->
  occupations_descending a u.
Proof.
  intros Hu1 Hu2 Hw Hasc Hdiag.
  assert (Hocc : forall k, (k < ncols u)%nat ->
                   occupation a u k = - vec_entry K w k).
  { intros k Hk. unfold occupation.
    rewrite gram_entry by assumption.
    specialize (Hdiag k k Hk Hk). rewrite Nat.eqb_refl in Hdiag.
    rewrite <- Hdiag.
    rewrite gram_entry by (simpl; assumption).
    rewrite gram_np_neg. ring. }
  intros i j Hij Hj. rewrite (Hocc i), (Hocc j) by lia.
  apply nle_opp. apply Hasc; lia.
Qed.

End GramFacts.

(** ** The three parts of the selector on valid input *)

Section SelectorFacts.
Context (K : scalar).
Context (eigh : ndarray K -> result (list K * ndarray K)).
Context (orth_ao : Mole K -> ndarray K).
Add Ring Kring_sel : (num_ring K).
Local Open Scope num_scope.

Lemma shape_eq (a : ndarray K) r c :
  shape a = (r, c) -> nrows a = r /\ ncols a = c.
Proof. unfold shape. intros H. inversion H. split; reflexivity. Qed.

(** Lines 37-49 on fitting shapes. *)
Lemma dmet_density_ok st mc dma dmb implst g :
  valid_density orth_ao st mc dma dmb g ->
  dmet_density orth_ao st mc [dma; dmb] implst
  = Ok (density_of orth_ao mc dma dmb implst g).
Proof.
  intros [[l [Hl Hg]] [m [Hm Hnao]] Hco Hs Ha Hb].
  apply shape_eq in Hco, Hs, Ha, Hb.
  destruct Hco as [Hco1 Hco2], Hs as [Hs1 Hs2], Ha as [Ha1 Ha2], Hb as [Hb1 Hb2].
  unfold dmet_density, deref, lookup_global.
  rewrite Hm. simpl. rewrite Hl. simpl. unfold deref. rewrite Hg. simpl.
  rewrite np_dot_ok by (simpl; congruence). simpl.
  rewrite np_add_ok by congruence. simpl.
  rewrite np_dot_ok by (simpl; congruence). simpl.
  rewrite np_dot_ok by (simpl; congruence). simpl.
  rewrite Hnao. reflexivity.
Qed.

Ltac step_ok :=
  first [ rewrite np_dot_ok by (simpl; congruence)
        | rewrite hstack2_ok by (simpl; congruence) ];
  cbn [mbind result_bind rbind].

Ltac slice_crush :=
  unfold slice_len, slice_start, slice_bound;
  repeat match goal with
         | |- context [(?a <? ?b)%Z] => destruct (Z.ltb_spec a b)
         end; lia.

Lemma complement_nonempty nao implst :
  valid_indices nao implst ->
  complement nao (np_asarray implst) <> [].
Proof.
  intros [Hnd Hr _ Hb] Hc.
  pose proof (complement_length nao implst Hnd Hr) as Hlen.
  rewrite Hc in Hlen. simpl in Hlen. lia.
Qed.

Lemma bath_positions_length nao implst :
  List.NoDup implst ->
  List.Forall (fun i => (0 <= i < Z.of_nat nao)%Z) implst ->
  (length implst + length (bath_positions nao implst) = nao)%nat.
Proof.
  intros Hnd Hr. unfold bath_positions. rewrite length_map.
  apply complement_length; assumption.
Qed.

Lemma density_of_dm_shape mc dma dmb implst g :
  shape (orth_ao g) = (mol_nao g, mol_nao g) ->
  shape (d_dm (density_of orth_ao mc dma dmb implst g)) = (mol_nao g, mol_nao g).
Proof.
  intros H. apply shape_eq in H. destruct H as [H1 H2].
  unfold shape. simpl. rewrite H2. reflexivity.
Qed.

(** Lines 56-64 on valid input. *)
Lemma dmet_partition_ok mc dma dmb implst g :
  shape (orth_ao g) = (mol_nao g, mol_nao g) ->
  valid_indices (mol_nao g) implst ->
  eigh_total eigh ->
  let d := density_of orth_ao mc dma dmb implst g in
  let nb := length (bath_positions (mol_nao g) implst) in
  exists occi ui occb ub,
    eigh (np_neg (block (d_dm d) (imp_positions implst))) = Ok (occi, ui)
    /\ eigh (np_neg (block (d_dm d) (bath_positions (mol_nao g) implst)))
       = Ok (occb, ub)
    /\ length occi = length implst
    /\ shape ui = (length implst, length implst)
    /\ length occb = nb
    /\ shape ub = (nb, nb)
    /\ forall uc ua ue,
         dmet_partition eigh d implst
         = Ok (partition_of d implst
                 {| r_occi := occi; r_ui := ui; r_occb := occb; r_ub := ub;
                    r_uc := uc; r_ua := ua; r_ue := ue |}).
Proof.
  intros Hco Hvp Htot d nb.
  pose proof (density_of_dm_shape mc dma dmb implst g Hco) as Hdm.
  apply shape_eq in Hdm. destruct Hdm as [Hdm1 Hdm2].
  apply shape_eq in Hco. destruct Hco as [Hco1 Hco2].
  pose proof (complement_nonempty _ _ Hvp) as Hcne.
  destruct Hvp as [Hnd Hr Hne Hb].
  pose proof (complement_in_range (mol_nao g) implst) as Hcr.
  destruct (Htot (np_neg (block (d_dm d) (imp_positions implst))))
    as [occi [ui [Hei [Hli [Hui1 Hui2]]]]].
  { simpl. unfold imp_positions. reflexivity. }
  destruct (Htot (np_neg (block (d_dm d) (bath_positions (mol_nao g) implst))))
    as [occb [ub [Heb [Hlb [Hub1 Hub2]]]]].
  { simpl. reflexivity. }
  simpl in Hli, Hui1, Hui2, Hlb, Hub1, Hub2.
  unfold imp_positions in Hli, Hui1, Hui2. rewrite length_map in Hli, Hui1, Hui2.
  exists occi, ui, occb, ub.
  split; [exact Hei|]. split; [exact Heb|].
  split; [exact Hli|]. split; [unfold shape; congruence|].
  split; [exact Hlb|]. split; [unfold shape, nb; congruence|].
  intros uc ua ue. unfold dmet_partition.
  change (d_nao d) with (mol_nao g).
  rewrite (sub_block_ok _ (d_dm d) implst (mol_nao g) Hdm1 Hdm2 Hne Hr).
  cbn [mbind result_bind rbind].
  change (take_cols (take_rows (d_dm d) (map Z.to_nat implst)) (map Z.to_nat implst))
    with (block (d_dm d) (imp_positions implst)).
  rewrite Hei. cbn [mbind result_bind rbind].
  rewrite (sub_block_ok _ (d_dm d) _ (mol_nao g) Hdm1 Hdm2 Hcne Hcr).
  cbn [mbind result_bind rbind].
  change (take_cols (take_rows (d_dm d) (map Z.to_nat (complement (mol_nao g) (np_asarray implst))))
            (map Z.to_nat (complement (mol_nao g) (np_asarray implst))))
    with (block (d_dm d) (bath_positions (mol_nao g) implst)).
  rewrite Heb. cbn [mbind result_bind rbind].
  change (d_corth d) with (orth_ao g).
  rewrite (np_take_cols_ok _ (orth_ao g) _ Hcne) by (rewrite Hco2; exact Hcr).
  cbn [mbind result_bind rbind].
  rewrite np_dot_ok by (simpl; unfold bath_positions in Hub1; congruence).
  cbn [mbind result_bind rbind].
  rewrite (np_take_cols_ok _ (orth_ao g) _ Hne) by (rewrite Hco2; exact Hr).
  cbn [mbind result_bind rbind].
  rewrite np_dot_ok by (simpl; rewrite length_map; congruence).
  cbn [mbind result_bind rbind].
  unfold np_hstack, np_hstack_from.
  rewrite hstack2_ok by reflexivity.
  cbn [mbind result_bind rbind].
  reflexivity.
Qed.

(** Lines 70-86 on blocks with [nao] rows. *)
Lemma dmet_canonical_ok mc d p nao :
  shape (d_s d) = (nao, nao) ->
  nrows (mo_coeff (cas_scf mc)) = nao ->
  ncols (mo_coeff (cas_scf mc)) = length (mo_energy (cas_scf mc)) ->
  nrows (p_mocore p) = nao -> nrows (p_mocas p) = nao -> nrows (p_moext p) = nao ->
  eigh_total eigh ->
  let fock := spec_fock (d_s d) (mo_coeff (cas_scf mc)) (mo_energy (cas_scf mc)) in
  exists uc ua ue,
    (exists w, eigh (fock_block fock (p_mocore p)) = Ok (w, uc))
    /\ (exists w, eigh (fock_block fock (p_mocas p)) = Ok (w, ua))
    /\ (exists w, eigh (fock_block fock (p_moext p)) = Ok (w, ue))
    /\ shape uc = (ncols (p_mocore p), ncols (p_mocore p))
    /\ shape ua = (ncols (p_mocas p), ncols (p_mocas p))
    /\ shape ue = (ncols (p_moext p), ncols (p_moext p))
    /\ forall occi ui occb ub,
         dmet_canonical eigh mc d p
         = Ok (canon_of mc d p
                 {| r_occi := occi; r_ui := ui; r_occb := occb; r_ub := ub;
                    r_uc := uc; r_ua := ua; r_ue := ue |}).
Proof.
  intros Hs Hhf1 Hhf2 Hc Ha He Htot fock.
  apply shape_eq in Hs. destruct Hs as [Hs1 Hs2].
  destruct (Htot (fock_block fock (p_mocore p))) as [wc [uc [Hec [_ [Huc1 Huc2]]]]];
    [reflexivity|].
  destruct (Htot (fock_block fock (p_mocas p))) as [wa [ua [Hea [_ [Hua1 Hua2]]]]];
    [reflexivity|].
  destruct (Htot (fock_block fock (p_moext p))) as [we [ue [Hee [_ [Hue1 Hue2]]]]];
    [reflexivity|].
  simpl in Huc1, Huc2, Hua1, Hua2, Hue1, Hue2.
  exists uc, ua, ue.
  split; [exists wc; exact Hec|]. split; [exists wa; exact Hea|].
  split; [exists we; exact Hee|].
  split; [unfold shape; congruence|]. split; [unfold shape; congruence|].
  split; [unfold shape; congruence|].
  intros occi ui occb ub.
  unfold fock_block, fock, spec_fock in Hec, Hea, Hee.
  unfold dmet_canonical, reduce_dot, fold_dot, np_hstack, np_hstack_from.
  cbv zeta.
  rewrite np_mul_vec_ok by exact Hhf2. cbn [mbind result_bind rbind].
  repeat step_ok.
  rewrite Hec. cbn [mbind result_bind rbind]. repeat step_ok.
  rewrite Hea. cbn [mbind result_bind rbind]. repeat step_ok.
  rewrite Hee. cbn [mbind result_bind rbind]. repeat step_ok.
  reflexivity.
Qed.

(** The whole body on valid input: it returns, and its locals are those of
    [density_of], [partition_of] and [canon_of] for what the eigensolver
    returned. *)
Lemma dmet_cas_frames_ok st mc dma dmb implst g :
  valid_shapes orth_ao st mc dma dmb g ->
  valid_indices (mol_nao g) implst ->
  eigh_total eigh ->
  exists r,
    let d := density_of orth_ao mc dma dmb implst g in
    let p := partition_of d implst r in
    let c := canon_of mc d p r in
    dmet_cas_frames eigh orth_ao st mc [dma; dmb] implst = Ok (d, p, c)
    /\ dmet_cas eigh orth_ao st mc [dma; dmb] implst = Ok (c_mo_init c)
    /\ eigh_run eigh d p c implst r.
Proof.
  intros Hvs Hvp Htot.
  pose proof (dmet_density_ok st mc dma dmb implst g (vs_density Hvs)) as Hd.
  destruct Hvs as [[_ _ Hco Hs _ _] Hhf1 Hhf2].
  destruct (dmet_partition_ok mc dma dmb implst g Hco Hvp Htot)
    as [occi [ui [occb [ub [Hei [Heb [Hli [Hui [Hlb [Hub Hp]]]]]]]]]].
  set (d := density_of orth_ao mc dma dmb implst g) in *.
  pose proof (shape_eq _ _ _ Hco) as [Hco1 Hco2].
  set (p0 := partition_of d implst
               {| r_occi := occi; r_ui := ui; r_occb := occb; r_ub := ub;
                  r_uc := ui; r_ua := ui; r_ue := ui |}).
  destruct (dmet_canonical_ok mc d p0 (mol_nao g) Hs Hhf1 Hhf2)
    as [uc [ua [ue [Hec [Hea [Hee [Huc [Hua [Hue Hc]]]]]]]]];
    [simpl; exact Hco1 | simpl; exact Hco1 | simpl; exact Hco1 | exact Htot |].
  exists {| r_occi := occi; r_ui := ui; r_occb := occb; r_ub := ub;
            r_uc := uc; r_ua := ua; r_ue := ue |}.
  cbv zeta.
  assert (Hfr : dmet_cas_frames eigh orth_ao st mc [dma; dmb] implst
                = Ok (d, partition_of d implst
                           {| r_occi := occi; r_ui := ui; r_occb := occb;
                              r_ub := ub; r_uc := uc; r_ua := ua; r_ue := ue |},
                      canon_of mc d
                        (partition_of d implst
                           {| r_occi := occi; r_ui := ui; r_occb := occb;
                              r_ub := ub; r_uc := uc; r_ua := ua; r_ue := ue |})
                        {| r_occi := occi; r_ui := ui; r_occb := occb;
                           r_ub := ub; r_uc := uc; r_ua := ua; r_ue := ue |})).
  { unfold dmet_cas_frames. rewrite Hd. cbn [mbind result_bind rbind].
    rewrite (Hp uc ua ue). cbn [mbind result_bind rbind].
    change (partition_of d implst
              {| r_occi := occi; r_ui := ui; r_occb := occb; r_ub := ub;
                 r_uc := uc; r_ua := ua; r_ue := ue |}) with p0.
    rewrite (Hc occi ui occb ub). reflexivity. }
  split; [exact Hfr|]. split.
  - unfold dmet_cas. rewrite Hfr. reflexivity.
  - constructor; simpl; try assumption.
Qed.

(** [a[:, 0:hi]] is [a[:, :hi]]. *)
Lemma np_cols_from_zero (a : ndarray K) hi :
  np_cols a (Some 0%Z) hi = np_cols a None hi.
Proof.
  unfold np_cols, slice_len, slice_start.
  replace (slice_bound (ncols a) 0 (Some 0%Z)) with (slice_bound (ncols a) 0 None)
    by (unfold slice_bound; simpl; lia).
  reflexivity.
Qed.

(** The widths of the blocks of line 62-64. *)
Lemma block_widths mc dma dmb implst g r :
  runnable_partition (mol_nao g) (cas_ncore mc) (cas_ncas mc) implst ->
  let d := density_of orth_ao mc dma dmb implst g in
  let p := partition_of d implst r in
  ncols (r_ui r) = length implst ->
  ncols (r_ub r) = length (bath_positions (mol_nao g) implst) ->
  ncols (p_mocore p) = cas_ncore mc
  /\ ncols (p_mocas p) = cas_ncas mc
  /\ ncols (p_moext p) = (mol_nao g - cas_ncore mc - cas_ncas mc)%nat.
Proof.
  intros [[Hnd Hr Hne Hb] Hnimp Hnocc] d p Hui Hub.
  pose proof (bath_positions_length (mol_nao g) implst Hnd Hr) as Hlen.
  simpl. rewrite Hui, Hub.
  set (nb := length (bath_positions (mol_nao g) implst)) in *.
  repeat split; slice_crush.
Qed.

(** The blocks of lines 62-64 on runnable input. *)
Lemma partition_complete_run st mc dma dmb implst g :
  runnable_input orth_ao st mc dma dmb implst g ->
  eigh_total eigh ->
  exists d p c,
    dmet_cas_frames eigh orth_ao st mc [dma; dmb] implst = Ok (d, p, c)
    /\ blocks_assigned mc g implst d p.
Proof.
  intros Hv Htot.
  destruct Hv as [Hvs Hvp].
  destruct (dmet_cas_frames_ok st mc dma dmb implst g Hvs (rp_indices Hvp) Htot)
    as [r [Hfr [_ Hrun]]].
  eexists _, _, _. split; [exact Hfr|].
  destruct Hrun as [_ _ _ _ _ _ _ Hui Hub _ _ _].
  apply shape_eq in Hui, Hub. destruct Hui as [_ Hui], Hub as [_ Hub].
  destruct (block_widths mc dma dmb implst g r Hvp Hui Hub) as [Hc [Ha He]].
  destruct Hvp as [_ _ Hnocc]. unfold blocks_assigned.
  split; [reflexivity|]. split; [symmetry; apply np_cols_from_zero|].
  split; [reflexivity|]. split; [reflexivity|]. split; [|exact Ha].
  rewrite Hc, Ha, He. lia.
Qed.

(** C2: the selector forms the spin-free density [dm_alpha + dm_beta] and
    transforms it as [cinv . dm_mixed . cinv^T] with
    [cinv = orth_transform^T S], for every pair of density matrices and
    every orthogonalising transform of fitting shape. *)
Theorem spin_trace_then_transform st mc dma dmb implst g :
  valid_density orth_ao st mc dma dmb g ->
  exists d,
    dmet_density orth_ao st mc [dma; dmb] implst = Ok d
    /\ d_dm_mixed d = spec_dm_mixed dma dmb
    /\ d_cinv d = spec_cinv (orth_ao g) (mol_ovlp g)
    /\ d_dm d = spec_dm_orth (orth_ao g) (mol_ovlp g) dma dmb
    /\ forall i j, (i < mol_nao g)%nat -> (j < mol_nao g)%nat ->
         entry (d_dm_mixed d) i j = entry dma i j + entry dmb i j
         /\ entry (d_cinv d) i j
            = sum_n K (mol_nao g)
                (fun p => entry (orth_ao g) p i * entry (mol_ovlp g) p j)
         /\ entry (d_dm d) i j
            = sum_n K (mol_nao g) (fun l =>
                sum_n K (mol_nao g) (fun k =>
                  entry (d_cinv d) i k * entry (d_dm_mixed d) k l)
                * entry (d_cinv d) j l).
Proof.
  intros Hvs. exists (density_of orth_ao mc dma dmb implst g).
  split; [apply dmet_density_ok; exact Hvs|].
  destruct Hvs as [_ _ Hco Hs Ha Hb].
  apply shape_eq in Hco, Hs, Ha, Hb.
  destruct Hco as [Hco1 Hco2], Hs as [Hs1 Hs2], Ha as [Ha1 Ha2], Hb as [Hb1 Hb2].
  do 3 (split; [reflexivity|]).
  intros i j Hi Hj. simpl. split; [|split].
  - unfold spec_dm_mixed. rewrite entry_tabulate by congruence. reflexivity.
  - unfold spec_cinv. rewrite entry_mdot by (simpl; congruence).
    simpl. rewrite Hco1. apply sum_n_ext. intros p Hp.
    rewrite entry_np_T by congruence. reflexivity.
  - unfold spec_dm_orth.
    rewrite entry_mdot by (simpl; congruence).
    change (ncols (mdot (spec_cinv (orth_ao g) (mol_ovlp g)) (spec_dm_mixed dma dmb)))
      with (ncols dma).
    rewrite Ha2. apply sum_n_ext. intros l Hl.
    rewrite entry_mdot by (simpl; congruence).
    rewrite entry_np_T by (simpl; congruence).
    change (ncols (spec_cinv (orth_ao g) (mol_ovlp g))) with (ncols (mol_ovlp g)).
    rewrite Hs2. reflexivity.
Qed.

(** No bath orbitals on runnable input with [nimp = ncas]. *)
Lemma boundary_no_bath_run st mc dma dmb implst g :
  runnable_input orth_ao st mc dma dmb implst g ->
  eigh_total eigh ->
  length implst = cas_ncas mc ->
  exists d p c,
    dmet_cas_frames eigh orth_ao st mc [dma; dmb] implst = Ok (d, p, c)
    /\ d_nimp d = d_ncas d
    /\ d_nbath d = 0%Z
    /\ p_mocas p = p_imporb p.
Proof.
  intros [Hvs Hvp] Htot Heq.
  destruct (dmet_cas_frames_ok st mc dma dmb implst g Hvs (rp_indices Hvp) Htot)
    as [r [Hfr [_ Hrun]]].
  eexists _, _, _. split; [exact Hfr|]. simpl.
  split; [exact Heq|]. split; [lia|].
  apply mhstack_empty_r; [apply wf_mdot|].
  simpl. slice_crush.
Qed.

(** C8, as the program has it: an impurity list longer than [ncas] is not
    rejected.  On otherwise valid input the selector returns a matrix with
    [nao] rows; [nbath] is negative and the active block still holds all
    [nimp] impurity orbitals, so it is wider than [ncas]. *)
Theorem oversized_impurity_unchecked st mc dma dmb implst g :
  valid_shapes orth_ao st mc dma dmb g ->
  valid_indices (mol_nao g) implst ->
  eigh_total eigh ->
  (cas_ncas mc < length implst)%nat ->
  exists d p c,
    dmet_cas_frames eigh orth_ao st mc [dma; dmb] implst = Ok (d, p, c)
    /\ dmet_cas eigh orth_ao st mc [dma; dmb] implst = Ok (c_mo_init c)
    /\ nrows (c_mo_init c) = mol_nao g
    /\ (d_nbath d < 0)%Z
    /\ (cas_ncas mc < length implst <= ncols (p_mocas p))%nat.
Proof.
  intros Hvs Hvx Htot Hlt.
  destruct (dmet_cas_frames_ok st mc dma dmb implst g Hvs Hvx Htot)
    as [r [Hfr [Hcas Hrun]]].
  eexists _, _, _. split; [exact Hfr|]. split; [exact Hcas|].
  destruct Hrun as [_ _ _ _ _ _ _ Hui _ _ _ _].
  apply shape_eq in Hui. destruct Hui as [_ Hui].
  destruct Hvs as [[_ _ Hco _ _ _] _ _]. apply shape_eq in Hco.
  simpl. rewrite Hui. split; [tauto|]. split; lia.
Qed.

(** Canonicalisation and assembly on runnable input. *)
Lemma canonical_assembly_run st mc dma dmb implst g :
  runnable_input orth_ao st mc dma dmb implst g ->
  eigh_total eigh ->
  exists d p c,
    dmet_cas_frames eigh orth_ao st mc [dma; dmb] implst = Ok (d, p, c)
    /\ dmet_cas eigh orth_ao st mc [dma; dmb] implst = Ok (c_mo_init c)
    /\ canonical_blocks eigh mc g p c.
Proof.
  intros [Hvs Hvp] Htot.
  destruct (dmet_cas_frames_ok st mc dma dmb implst g Hvs (rp_indices Hvp) Htot)
    as [r [Hfr [Hcas Hrun]]].
  eexists _, _, _. split; [exact Hfr|]. split; [exact Hcas|].
  destruct Hrun as [_ _ [wc Hec] [wa Hea] [we Hee] _ _ Hui Hub Huc Hua Hue].
  apply shape_eq in Hui, Hub, Huc, Hua, Hue.
  destruct Hui as [_ Hui], Hub as [_ Hub], Huc as [_ Huc], Hua as [_ Hua],
    Hue as [_ Hue].
  destruct (block_widths mc dma dmb implst g r Hvp Hui Hub) as [Hc [Ha He]].
  cbv zeta in Hc, Ha, He.
  destruct Hvs as [[_ _ Hco _ _ _] _ _]. apply shape_eq in Hco.
  destruct Hco as [Hco1 Hco2].
  destruct Hvp as [_ _ Hnocc]. unfold canonical_blocks.
  split; [reflexivity|].
  split; [unfold spec_canonicalize; simpl in Hec |- *;
          unfold fock_block in Hec; rewrite Hec; reflexivity|].
  split; [unfold spec_canonicalize; simpl in Hea |- *;
          unfold fock_block in Hea; rewrite Hea; reflexivity|].
  split; [unfold spec_canonicalize; simpl in Hee |- *;
          unfold fock_block in Hee; rewrite Hee; reflexivity|].
  split; [reflexivity|].
  split.
  { unfold shape. simpl in *. rewrite Huc, Hua, Hue, Hco1.
    f_equal. rewrite Hc. simpl in Ha. rewrite Ha, He. lia. }
  intros i Hi. simpl in *. unfold spec_assemble.
  split; [|split]; intros j Hj.
  - rewrite entry_mhstack_l by (simpl; lia).
    rewrite entry_mhstack_l by (simpl; lia). reflexivity.
  - rewrite entry_mhstack_l by (simpl; lia).
    rewrite entry_mhstack_r by (simpl; lia). simpl.
    f_equal. lia.
  - rewrite entry_mhstack_r by (simpl; lia). simpl.
    f_equal. lia.
Qed.

(** Positions of the impurity and of the bath candidates. *)
Lemma imp_positions_NoDup nao implst :
  valid_indices nao implst -> List.NoDup (imp_positions implst).
Proof.
  intros [Hnd Hr _ _]. apply NoDup_map_to_nat; [exact Hnd|].
  eapply List.Forall_impl; [|exact Hr]. simpl. intros; lia.
Qed.

Lemma imp_positions_range nao implst :
  valid_indices nao implst ->
  List.Forall (fun x => (x < nao)%nat) (imp_positions implst).
Proof.
  intros [_ Hr _ _]. unfold imp_positions. apply List.Forall_forall.
  intros x Hx. apply in_map_iff in Hx. destruct Hx as [z [<- Hz]].
  rewrite List.Forall_forall in Hr. specialize (Hr z Hz). lia.
Qed.

Lemma bath_positions_NoDup nao implst :
  List.NoDup (bath_positions nao implst).
Proof.
  apply NoDup_map_to_nat; [apply complement_NoDup|].
  eapply List.Forall_impl; [|apply complement_in_range]. simpl. intros; lia.
Qed.

Lemma bath_positions_range nao implst :
  List.Forall (fun x => (x < nao)%nat) (bath_positions nao implst).
Proof.
  unfold bath_positions. apply List.Forall_forall.
  intros x Hx. apply in_map_iff in Hx. destruct Hx as [z [<- Hz]].
  apply complement_spec in Hz. lia.
Qed.

Lemma positions_disjoint nao implst x :
  valid_indices nao implst ->
  In x (imp_positions implst) -> ~ In x (bath_positions nao implst).
Proof.
  intros [_ Hr _ _] Hi Hb. unfold imp_positions, bath_positions in *.
  apply in_map_iff in Hi. destruct Hi as [z [Hz Hzin]].
  apply in_map_iff in Hb. destruct Hb as [z' [Hz' Hzin']].
  apply complement_spec in Hzin'. destruct Hzin' as [Hr' Hnot].
  rewrite List.Forall_forall in Hr. specialize (Hr z Hzin).
  assert (z = z') by lia. subst. contradiction.
Qed.

(** Orthonormality of the output on runnable input. *)
Lemma output_orthonormal_run st mc dma dmb implst g :
  runnable_input orth_ao st mc dma dmb implst g ->
  eigh_total eigh ->
  eigh_orthonormal eigh ->
  mdot (mdot (np_T (orth_ao g)) (mol_ovlp g)) (orth_ao g) = identity K (mol_nao g) ->
  exists mo,
    dmet_cas eigh orth_ao st mc [dma; dmb] implst = Ok mo
    /\ shape mo = (mol_nao g, mol_nao g)
    /\ mdot (mdot (np_T mo) (mol_ovlp g)) mo = identity K (mol_nao g).
Proof.
  intros [Hvs Hvp] Htot Hon Hid.
  pose proof (rp_indices Hvp) as Hvx.
  destruct (dmet_cas_frames_ok st mc dma dmb implst g Hvs Hvx Htot)
    as [r [_ [Hcas Hrun]]].
  cbv zeta in Hcas, Hrun.
  set (d := density_of orth_ao mc dma dmb implst g) in *.
  set (p := partition_of d implst r) in *.
  destruct Hrun as [Hei Heb [wc Hec] [wa Hea] [we Hee] _ _ Hui Hub Huc Hua Hue].
  apply Hon in Hei, Heb, Hec, Hea, Hee.
  apply shape_eq in Hui, Hub, Huc, Hua, Hue.
  destruct Hui as [Hui1 Hui2], Hub as [Hub1 Hub2], Huc as [Huc1 Huc2],
    Hua as [Hua1 Hua2], Hue as [Hue1 Hue2].
  destruct (block_widths mc dma dmb implst g r Hvp Hui2 Hub2) as [Hwc [Hwa Hwe]].
  cbv zeta in Hwc, Hwa, Hwe. fold d in Hwc, Hwa, Hwe. fold p in Hwc, Hwa, Hwe.
  destruct Hvs as [[_ _ Hco Hs _ _] _ _]. apply shape_eq in Hco, Hs.
  destruct Hco as [Hco1 Hco2], Hs as [Hs1 Hs2].
  assert (Hc : s_orthonormal (mol_ovlp g) (orth_ao g)).
  { apply (identity_s_orthonormal K (mol_ovlp g) (orth_ao g) (mol_nao g)); congruence. }
  set (I := imp_positions implst).
  set (B := bath_positions (mol_nao g) implst).
  pose proof (imp_positions_NoDup (mol_nao g) implst Hvx) as HInd.
  pose proof (imp_positions_range (mol_nao g) implst Hvx) as HIr.
  pose proof (bath_positions_NoDup (mol_nao g) implst) as HBnd.
  pose proof (bath_positions_range (mol_nao g) implst) as HBr.
  fold I in HInd, HIr. fold B in HBnd, HBr.
  rewrite <- Hco2 in HIr, HBr.
  (* the orthogonal-basis columns of impurity and bath candidates *)
  assert (HX : s_orthonormal (mol_ovlp g) (take_cols (orth_ao g) I))
    by (apply s_orthonormal_take_cols; congruence || assumption).
  assert (HY : s_orthonormal (mol_ovlp g) (take_cols (orth_ao g) B))
    by (apply s_orthonormal_take_cols; congruence || assumption).
  assert (HXY : s_orthogonal (mol_ovlp g) (take_cols (orth_ao g) I) (take_cols (orth_ao g) B)).
  { apply s_orthogonal_take_cols; try congruence; try assumption.
    intros x. apply positions_disjoint. exact Hvx. }
  assert (HYX : s_orthogonal (mol_ovlp g) (take_cols (orth_ao g) B) (take_cols (orth_ao g) I)).
  { apply s_orthogonal_take_cols; try congruence; try assumption.
    intros x Hb Hi. exact (positions_disjoint (mol_nao g) implst x Hvx Hi Hb). }
  (* the natural orbitals *)
  set (imporb := p_imporb p). set (bathorb := p_bathorb p).
  assert (Himp : s_orthonormal (mol_ovlp g) imporb).
  { apply s_orthonormal_rot; simpl; try congruence; try assumption.
    unfold I, imp_positions. rewrite length_map. congruence. }
  assert (Hbath : s_orthonormal (mol_ovlp g) bathorb).
  { apply s_orthonormal_rot; simpl; try congruence; assumption. }
  assert (Hib : s_orthogonal (mol_ovlp g) imporb bathorb)
    by (apply s_orthogonal_rot; simpl; congruence || assumption).
  assert (Hbi : s_orthogonal (mol_ovlp g) bathorb imporb)
    by (apply s_orthogonal_rot; simpl; congruence || assumption).
  assert (Hbr1 : nrows bathorb = nrows (mol_ovlp g)) by (simpl; congruence).
  assert (Hbr2 : nrows bathorb = ncols (mol_ovlp g)) by (simpl; congruence).
  assert (Hir1 : nrows imporb = nrows (mol_ovlp g)) by (simpl; congruence).
  assert (Hir2 : nrows imporb = ncols (mol_ovlp g)) by (simpl; congruence).
  assert (Hbw : ncols bathorb = length B) by exact Hub2.
  pose proof (bath_positions_length (mol_nao g) implst (vx_distinct Hvx) (vx_range Hvx)) as Hlen.
  fold B in Hlen.
  destruct Hvp as [_ Hnimp Hnocc].
  (* the three blocks of lines 62-64 *)
  set (ncore := Z.of_nat (cas_ncore mc)).
  set (nbath := d_nbath d).
  assert (Hnb : nbath = (Z.of_nat (cas_ncas mc) - Z.of_nat (length implst))%Z)
    by reflexivity.
  set (core := np_cols bathorb None (Some ncore)).
  set (bs := np_cols bathorb (Some ncore) (Some (ncore + nbath)%Z)).
  set (ext := np_cols bathorb (Some (ncore + nbath)%Z) None).
  set (act := mhstack imporb bs).
  assert (Hcore : s_orthonormal (mol_ovlp g) core) by (apply s_orthonormal_np_cols; assumption).
  assert (Hbs : s_orthonormal (mol_ovlp g) bs) by (apply s_orthonormal_np_cols; assumption).
  assert (Hext : s_orthonormal (mol_ovlp g) ext) by (apply s_orthonormal_np_cols; assumption).
  assert (Hact : s_orthonormal (mol_ovlp g) act).
  { apply s_orthonormal_mhstack; try assumption.
    - apply s_orthogonal_np_cols_r; assumption.
    - apply s_orthogonal_np_cols_l; assumption. }
  assert (Hcb : s_orthogonal (mol_ovlp g) core bs /\ s_orthogonal (mol_ovlp g) bs core
                /\ s_orthogonal (mol_ovlp g) core ext /\ s_orthogonal (mol_ovlp g) ext core
                /\ s_orthogonal (mol_ovlp g) bs ext /\ s_orthogonal (mol_ovlp g) ext bs).
  { unfold ncore, nbath in *.
    repeat split; apply s_orthogonal_np_cols; try assumption;
      rewrite Hbw; slice_crush. }
  destruct Hcb as [Hcbs [Hbsc [Hce [Hec' [Hbse Hebs]]]]].
  assert (Hca : s_orthogonal (mol_ovlp g) core act).
  { apply s_orthogonal_mhstack_r; try assumption.
    apply s_orthogonal_np_cols_l; assumption. }
  assert (Hac : s_orthogonal (mol_ovlp g) act core).
  { apply s_orthogonal_mhstack_l; try assumption.
    apply s_orthogonal_np_cols_r; assumption. }
  assert (Hea' : s_orthogonal (mol_ovlp g) ext act).
  { apply s_orthogonal_mhstack_r; try assumption.
    apply s_orthogonal_np_cols_l; assumption. }
  assert (Hae : s_orthogonal (mol_ovlp g) act ext).
  { apply s_orthogonal_mhstack_l; try assumption.
    apply s_orthogonal_np_cols_r; assumption. }
  (* the canonicalised blocks and their assembly *)
  exists (spec_assemble (mdot core (r_uc r)) (mdot act (r_ua r)) (mdot ext (r_ue r))).
  split; [exact Hcas|].
  assert (Hshape : ncols (spec_assemble (mdot core (r_uc r)) (mdot act (r_ua r))
                            (mdot ext (r_ue r))) = (mol_nao g)).
  { simpl. rewrite Huc2, Hua2, Hue2.
    change (ncols (p_mocore p) + ncols (p_mocas p) + ncols (p_moext p) = (mol_nao g))%nat.
    rewrite Hwc, Hwa, Hwe. lia. }
  split; [unfold shape; rewrite Hshape; simpl; congruence|].
  apply s_orthonormal_identity; [simpl; congruence|simpl; congruence|exact Hshape|].
  unfold spec_assemble.
  apply s_orthonormal_mhstack; try (simpl; congruence).
  - apply s_orthonormal_mhstack; try (simpl; congruence).
    + apply s_orthonormal_rot; try assumption; simpl; congruence.
    + apply s_orthonormal_rot; try assumption; simpl; congruence.
    + apply s_orthogonal_rot; try assumption; simpl; congruence.
    + apply s_orthogonal_rot; try assumption; simpl; congruence.
  - apply s_orthonormal_rot; try assumption; simpl; congruence.
  - apply s_orthogonal_mhstack_l; try (simpl; congruence);
      apply s_orthogonal_rot; try assumption; simpl; congruence.
  - apply s_orthogonal_mhstack_r; try (simpl; congruence);
      apply s_orthogonal_rot; try assumption; simpl; congruence.
Qed.

(** The natural orbitals on runnable input. *)
Lemma natural_orbital_blocks_run st mc dma dmb implst g :
  runnable_input orth_ao st mc dma dmb implst g ->
  eigh_total eigh ->
  exists d p c,
    dmet_cas_frames eigh orth_ao st mc [dma; dmb] implst = Ok (d, p, c)
    /\ natural_orbitals eigh orth_ao g implst d p.
Proof.
  intros [Hvs Hvp] Htot.
  pose proof (rp_indices Hvp) as Hvx.
  destruct (dmet_cas_frames_ok st mc dma dmb implst g Hvs Hvx Htot)
    as [r [Hfr [_ Hrun]]].
  eexists _, _, _. split; [exact Hfr|]. unfold natural_orbitals. cbv zeta.
  destruct Hrun as [Hei Heb _ _ _ Hli Hlb Hui Hub _ _ _].
  apply shape_eq in Hui, Hub. destruct Hui as [Hui1 Hui2], Hub as [Hub1 Hub2].
  destruct Hvs as [[_ _ Hco _ _ _] _ _].
  pose proof (density_of_dm_shape mc dma dmb implst g Hco) as Hdm.
  apply shape_eq in Hdm. destruct Hdm as [Hdm1 Hdm2].
  pose proof (complement_nonempty _ _ Hvx) as Hcne.
  pose proof (imp_positions_range _ _ Hvx) as HIr.
  pose proof (bath_positions_range (mol_nao g) implst) as HBr.
  rewrite List.Forall_forall in HIr, HBr.
  destruct Hvx as [Hnd Hr Hne Hb].
  simpl. rewrite !np_asarray_data.
  split; [reflexivity|].
  split; [apply split_range; assumption|].
  split; [apply complement_sorted|].
  split; [reflexivity|]. split; [reflexivity|].
  split; [exact Hei|]. split; [exact Heb|].
  split.
  { intros i j Hi Hj. apply entry_block; try assumption.
    eapply Nat.lt_le_trans; [apply HIr, nth_In; exact Hj|].
    apply Nat.eq_le_incl. symmetry. exact Hdm2. }
  split.
  { intros i j Hi Hj. apply entry_block; try assumption.
    eapply Nat.lt_le_trans; [apply HBr, nth_In; exact Hj|].
    apply Nat.eq_le_incl. symmetry. exact Hdm2. }
  split.
  { intros Hasc Hdiag.
    apply (negated_block_order K _ _ (r_occi r)); simpl; try assumption.
    - unfold imp_positions. rewrite length_map. exact Hui1.
    - unfold imp_positions. rewrite length_map. exact Hui1.
    - congruence. }
  split.
  { intros Hasc Hdiag.
    apply (negated_block_order K _ _ (r_occb r)); simpl; try assumption.
    congruence. }
  split; reflexivity.
Qed.

(** A run that completes had a nondegenerate impurity list. *)
Lemma partition_nondegenerate d implst p :
  dmet_partition eigh d implst = Ok p ->
  implst <> [] /\ complement (d_nao d) (np_asarray implst) <> [].
Proof.
  intros H. split.
  - intros ->. unfold dmet_partition, sub_block, np_take_rows in H.
    simpl in H. discriminate.
  - intros Hc. unfold dmet_partition in H. cbv zeta in H. rewrite Hc in H.
    destruct (sub_block (d_dm d) (np_asarray implst)); [|discriminate].
    cbn [mbind result_bind rbind] in H.
    destruct (eigh (np_neg a)) as [[w u]|]; [|discriminate].
    cbn [mbind result_bind rbind] in H.
    unfold sub_block, np_take_rows in H. simpl in H. discriminate.
Qed.

Lemma frames_nondegenerate st mc dma dmb implst g x :
  valid_density orth_ao st mc dma dmb g ->
  List.NoDup implst ->
  List.Forall (fun i => (0 <= i < Z.of_nat (mol_nao g))%Z) implst ->
  dmet_cas_frames eigh orth_ao st mc [dma; dmb] implst = Ok x ->
  valid_indices (mol_nao g) implst.
Proof.
  intros Hvd Hnd Hr H. unfold dmet_cas_frames in H.
  rewrite (dmet_density_ok st mc dma dmb implst g Hvd) in H.
  cbn [mbind result_bind rbind] in H.
  destruct (dmet_partition eigh (density_of orth_ao mc dma dmb implst g) implst)
    as [p|] eqn:Hp; [|discriminate].
  apply partition_nondegenerate in Hp. destruct Hp as [Hne Hc].
  constructor; try assumption.
  pose proof (complement_length (mol_nao g) implst Hnd Hr) as Hlen.
  simpl in Hc.
  destruct (complement (mol_nao g) (np_asarray implst)); [contradiction|].
  simpl in Hlen. lia.
Qed.

Lemma runnable_of_valid st mc dma dmb implst g :
  valid_input orth_ao st mc dma dmb implst g ->
  valid_indices (mol_nao g) implst ->
  runnable_input orth_ao st mc dma dmb implst g.
Proof.
  intros [Hvs [_ _ Hn Ho]] Hvx. split; [exact Hvs|]. constructor; assumption.
Qed.

Lemma nondegenerate_indices st mc dma dmb implst g :
  valid_input orth_ao st mc dma dmb implst g ->
  nondegenerate (mol_nao g) implst ->
  valid_indices (mol_nao g) implst.
Proof. intros [_ [Hnd Hr _ _]] [Hne Hb]. constructor; assumption. Qed.

(** What holds of the runnable inputs holds of every run that completes on
    valid input, and the nondegenerate valid inputs are runnable. *)
Lemma every_completed_run st mc dma dmb implst g
    (P : density_frame K -> partition_frame K -> canon_frame K -> Prop) :
  valid_input orth_ao st mc dma dmb implst g ->
  (runnable_input orth_ao st mc dma dmb implst g ->
   exists d p c,
     dmet_cas_frames eigh orth_ao st mc [dma; dmb] implst = Ok (d, p, c)
     /\ P d p c) ->
  (forall d p c,
     dmet_cas_frames eigh orth_ao st mc [dma; dmb] implst = Ok (d, p, c) ->
     P d p c)
  /\ (nondegenerate (mol_nao g) implst ->
      exists d p c,
        dmet_cas_frames eigh orth_ao st mc [dma; dmb] implst = Ok (d, p, c)).
Proof.
  intros Hv Hrun. split.
  - intros d p c Hfr.
    assert (Hvx : valid_indices (mol_nao g) implst).
    { destruct Hv as [Hvs [Hnd Hr _ _]].
      exact (frames_nondegenerate st mc dma dmb implst g _ (vs_density Hvs) Hnd Hr Hfr). }
    destruct (Hrun (runnable_of_valid st mc dma dmb implst g Hv Hvx))
      as [d' [p' [c' [Hfr' HP]]]].
    rewrite Hfr in Hfr'. injection Hfr' as <- <- <-. exact HP.
  - intros Hnd.
    pose proof (nondegenerate_indices st mc dma dmb implst g Hv Hnd) as Hvx.
    destruct (Hrun (runnable_of_valid st mc dma dmb implst g Hv Hvx))
      as [d [p [c [Hfr _]]]].
    exists d, p, c. exact Hfr.
Qed.

(** On a degenerate impurity list the selector raises [IndexError]: on
    line 58 when the list is empty, on line 59 when it exhausts
    [range(nao)]. *)
Remark degenerate_impurity_list_raises st mc dma dmb implst g :
  valid_input orth_ao st mc dma dmb implst g ->
  eigh_total eigh ->
  ~ nondegenerate (mol_nao g) implst ->
  dmet_cas eigh orth_ao st mc [dma; dmb] implst = Raise IndexError.
Proof.
  intros [Hvs [Hnd Hr _ _]] Htot Hdeg.
  pose proof (density_of_dm_shape mc dma dmb implst g (vd_corth (vs_density Hvs)))
    as Hdm.
  apply shape_eq in Hdm. destruct Hdm as [Hdm1 Hdm2].
  unfold dmet_cas, dmet_cas_frames.
  rewrite (dmet_density_ok st mc dma dmb implst g (vs_density Hvs)).
  cbn [mbind result_bind rbind].
  destruct implst as [|i implst]; [reflexivity|].
  assert (Hne : i :: implst <> []) by discriminate.
  assert (Hc : complement (mol_nao g) (np_asarray (i :: implst)) = []).
  { pose proof (complement_length (mol_nao g) (i :: implst) Hnd Hr) as Hlen.
    destruct (complement (mol_nao g) (np_asarray (i :: implst))) as [|x l] eqn:E;
      [reflexivity|].
    exfalso. apply Hdeg. split; [exact Hne|]. simpl in Hlen |- *. lia. }
  unfold dmet_partition. cbv zeta.
  change (d_nao (density_of orth_ao mc dma dmb (i :: implst) g)) with (mol_nao g).
  rewrite Hc.
  rewrite (sub_block_ok _ _ (i :: implst) (mol_nao g) Hdm1 Hdm2 Hne Hr).
  cbn [mbind result_bind rbind].
  destruct (Htot (np_neg (take_cols
              (take_rows (d_dm (density_of orth_ao mc dma dmb (i :: implst) g))
                 (map Z.to_nat (i :: implst))) (map Z.to_nat (i :: implst)))))
    as [w [u [He _]]]; [reflexivity|].
  rewrite He. reflexivity.
Qed.

(** C1: on every valid input the blocks that the selector assigns are
    [core = bathorb[:, 0:ncore]],
    [active = imporb ++ bathorb[:, ncore:ncore+nbath]] with
    [nbath = ncas - nimp] and [external = bathorb[:, ncore+nbath:]], their
    widths add up to [nao] and the active block has [ncas] columns; the run
    completes whenever the impurity list is nondegenerate. *)
Theorem partition_complete st mc dma dmb implst g :
  valid_input orth_ao st mc dma dmb implst g ->
  eigh_total eigh ->
  (forall d p c,
     dmet_cas_frames eigh orth_ao st mc [dma; dmb] implst = Ok (d, p, c) ->
     blocks_assigned mc g implst d p)
  /\ (nondegenerate (mol_nao g) implst ->
      exists d p c,
        dmet_cas_frames eigh orth_ao st mc [dma; dmb] implst = Ok (d, p, c)).
Proof.
  intros Hv Htot.
  apply (every_completed_run st mc dma dmb implst g
           (fun d p _ => blocks_assigned mc g implst d p) Hv).
  intros Hr. apply partition_complete_run; assumption.
Qed.

(** C3: on every valid input [range(nao)] is split into the impurity list
    and its complement in increasing order; the eigensolver is called on
    the negated impurity-impurity and bath-bath blocks of the transformed
    density, so that ascending eigenvalues are descending occupations;
    [imporb] and [bathorb] are the rotations of the impurity and complement
    columns of the orthogonalising transform. *)
Theorem natural_orbital_blocks st mc dma dmb implst g :
  valid_input orth_ao st mc dma dmb implst g ->
  eigh_total eigh ->
  (forall d p c,
     dmet_cas_frames eigh orth_ao st mc [dma; dmb] implst = Ok (d, p, c) ->
     natural_orbitals eigh orth_ao g implst d p)
  /\ (nondegenerate (mol_nao g) implst ->
      exists d p c,
        dmet_cas_frames eigh orth_ao st mc [dma; dmb] implst = Ok (d, p, c)).
Proof.
  intros Hv Htot.
  apply (every_completed_run st mc dma dmb implst g
           (fun d p _ => natural_orbitals eigh orth_ao g implst d p) Hv).
  intros Hr. apply natural_orbital_blocks_run; assumption.
Qed.

(** C4: on every valid input the Fock matrix is
    [S . (hf_coeff * hf_energy) . hf_coeff^T . S], built once; each of the
    three blocks is rotated by the eigenvectors of its own
    [B^T . Fock . B]; and the returned matrix is the three rotated blocks
    side by side, core first, then active, then external. *)
Theorem canonical_assembly st mc dma dmb implst g :
  valid_input orth_ao st mc dma dmb implst g ->
  eigh_total eigh ->
  (forall d p c,
     dmet_cas_frames eigh orth_ao st mc [dma; dmb] implst = Ok (d, p, c) ->
     dmet_cas eigh orth_ao st mc [dma; dmb] implst = Ok (c_mo_init c)
     /\ canonical_blocks eigh mc g p c)
  /\ (nondegenerate (mol_nao g) implst ->
      exists d p c,
        dmet_cas_frames eigh orth_ao st mc [dma; dmb] implst = Ok (d, p, c)).
Proof.
  intros Hv Htot.
  apply (every_completed_run st mc dma dmb implst g
           (fun d p c =>
              dmet_cas eigh orth_ao st mc [dma; dmb] implst = Ok (c_mo_init c)
              /\ canonical_blocks eigh mc g p c) Hv).
  intros Hr. apply canonical_assembly_run; assumption.
Qed.

(** C5: on every valid input for which
    [orth_transform^T S orth_transform = 1], with an eigensolver that
    returns orthonormal eigenvectors, the returned coefficient matrix is
    orthonormal in the metric of the overlap matrix:
    [OutputOrbitals^T . S . OutputOrbitals = 1]. *)
Theorem output_orthonormal st mc dma dmb implst g :
  valid_input orth_ao st mc dma dmb implst g ->
  eigh_total eigh ->
  eigh_orthonormal eigh ->
  mdot (mdot (np_T (orth_ao g)) (mol_ovlp g)) (orth_ao g) = identity K (mol_nao g) ->
  (forall mo,
     dmet_cas eigh orth_ao st mc [dma; dmb] implst = Ok mo ->
     shape mo = (mol_nao g, mol_nao g)
     /\ mdot (mdot (np_T mo) (mol_ovlp g)) mo = identity K (mol_nao g))
  /\ (nondegenerate (mol_nao g) implst ->
      exists mo, dmet_cas eigh orth_ao st mc [dma; dmb] implst = Ok mo).
Proof.
  intros Hv Htot Hon Hid.
  destruct (every_completed_run st mc dma dmb implst g
              (fun _ _ c =>
                 shape (c_mo_init c) = (mol_nao g, mol_nao g)
                 /\ mdot (mdot (np_T (c_mo_init c)) (mol_ovlp g)) (c_mo_init c)
                    = identity K (mol_nao g)) Hv) as [Hall Hex].
  { intros Hr.
    destruct (output_orthonormal_run st mc dma dmb implst g Hr Htot Hon Hid)
      as [mo [Hmo HP]].
    destruct Hr as [Hvs Hvp].
    destruct (dmet_cas_frames_ok st mc dma dmb implst g Hvs (rp_indices Hvp) Htot)
      as [r [Hfr [Hcas _]]].
    eexists _, _, _. split; [exact Hfr|].
    rewrite Hcas in Hmo. injection Hmo as <-. exact HP. }
  split.
  - intros mo Hmo. unfold dmet_cas in Hmo.
    destruct (dmet_cas_frames eigh orth_ao st mc [dma; dmb] implst)
      as [[[d p] c]|] eqn:Hfr; [|discriminate].
    simpl in Hmo. injection Hmo as <-. exact (Hall d p c eq_refl).
  - intros Hnd. destruct (Hex Hnd) as [d [p [c Hfr]]].
    exists (c_mo_init c). unfold dmet_cas. rewrite Hfr. reflexivity.
Qed.

(** C7: on every valid input with [nimp = ncas] there are no bath
    orbitals, [nbath = 0], and the active block before canonicalisation is
    [imporb] itself. *)
Theorem boundary_no_bath st mc dma dmb implst g :
  valid_input orth_ao st mc dma dmb implst g ->
  eigh_total eigh ->
  length implst = cas_ncas mc ->
  (forall d p c,
     dmet_cas_frames eigh orth_ao st mc [dma; dmb] implst = Ok (d, p, c) ->
     d_nimp d = d_ncas d /\ d_nbath d = 0%Z /\ p_mocas p = p_imporb p)
  /\ (nondegenerate (mol_nao g) implst ->
      exists d p c,
        dmet_cas_frames eigh orth_ao st mc [dma; dmb] implst = Ok (d, p, c)).
Proof.
  intros Hv Htot Heq.
  apply (every_completed_run st mc dma dmb implst g
           (fun d p _ =>
              d_nimp d = d_ncas d /\ d_nbath d = 0%Z /\ p_mocas p = p_imporb p)
           Hv).
  intros Hr. apply (boundary_no_bath_run st mc dma dmb implst g); assumption.
Qed.

End SelectorFacts.

(** ** What the selector reads from the interpreter state *)

Section StateFacts.
Context (K : scalar).
Context (eigh : ndarray K -> result (list K * ndarray K)).
Context (orth_ao : Mole K -> ndarray K).

Lemma rbind_ok_inv {A B} (m : result A) (k : A -> result B) b :
  m ≫= k = Ok b -> exists a, m = Ok a /\ k a = Ok b.
Proof.
  destruct m as [a|e]; simpl; intros H; [|discriminate].
  exists a. split; [reflexivity|exact H].
Qed.

(** Where lines 37-44 take their values from. *)
Lemma density_sources st mc dm implst d :
  dmet_density orth_ao st mc dm implst = Ok d ->
  exists l gm mm,
    globals st !! "mol" = Some (VMole l)
    /\ heap st !! l = Some gm
    /\ heap st !! cas_mol mc = Some mm
    /\ d_corth d = orth_ao gm
    /\ d_s d = mol_ovlp gm
    /\ d_nao d = mol_nao mm.
Proof.
  unfold dmet_density, deref, lookup_global. intros H.
  destruct (heap st !! cas_mol mc) as [mm|] eqn:Hmm; [|discriminate].
  cbn [mbind result_bind rbind] in H.
  destruct (globals st !! "mol") as [v|] eqn:Hv; [|discriminate].
  cbn [mbind result_bind rbind] in H.
  destruct v as [| |l| | | | |]; try discriminate.
  unfold as_mole, deref in H.
  destruct (heap st !! l) as [gm|] eqn:Hgm; [|discriminate].
  cbn [mbind result_bind rbind] in H.
  repeat (apply rbind_ok_inv in H; destruct H as [? [_ H]]).
  inversion H; subst; clear H. simpl.
  exists l, gm, mm. repeat split; assumption.
Qed.

(** Without a global [mol] the call fails, whatever [mc.mol] is. *)
Lemma density_needs_global st mc dm implst mm :
  heap st !! cas_mol mc = Some mm ->
  globals st !! "mol" = None ->
  dmet_cas eigh orth_ao st mc dm implst = Raise (NameError "mol").
Proof.
  intros Hmm Hg.
  unfold dmet_cas, dmet_cas_frames, dmet_density, deref, lookup_global.
  rewrite Hmm. cbn [mbind result_bind rbind]. rewrite Hg. reflexivity.
Qed.

(** The molecule of the solver object matters through its number of
    atomic orbitals only. *)
Lemma mc_mol_only_nao st mc mc' dm implst mm mm' :
  heap st !! cas_mol mc = Some mm ->
  heap st !! cas_mol mc' = Some mm' ->
  mol_nao mm = mol_nao mm' ->
  cas_ncore mc = cas_ncore mc' -> cas_ncas mc = cas_ncas mc' ->
  cas_scf mc = cas_scf mc' ->
  dmet_cas_frames eigh orth_ao st mc dm implst
  = dmet_cas_frames eigh orth_ao st mc' dm implst.
Proof.
  intros Hmm Hmm' Hnao Hc Ha Hs.
  destruct mc as [l c a f], mc' as [l' c' a' f']. simpl in *. subst c' a' f'.
  unfold dmet_cas_frames, dmet_density, dmet_canonical, deref.
  cbn [cas_mol cas_ncore cas_ncas cas_scf] in *.
  rewrite Hmm, Hmm'. cbn [mbind result_bind rbind]. rewrite Hnao. reflexivity.
Qed.

(** Two states in which the global [mol] gives the same transform and the
    same overlap, and [mc.mol] the same number of orbitals, give the same
    locals. *)
Lemma frames_depend_on_global_mol st1 st2 mc dm implst l1 l2 g1 g2 m1 m2 :
  globals st1 !! "mol" = Some (VMole l1) -> heap st1 !! l1 = Some g1 ->
  globals st2 !! "mol" = Some (VMole l2) -> heap st2 !! l2 = Some g2 ->
  orth_ao g1 = orth_ao g2 -> mol_ovlp g1 = mol_ovlp g2 ->
  heap st1 !! cas_mol mc = Some m1 -> heap st2 !! cas_mol mc = Some m2 ->
  mol_nao m1 = mol_nao m2 ->
  dmet_cas_frames eigh orth_ao st1 mc dm implst
  = dmet_cas_frames eigh orth_ao st2 mc dm implst.
Proof.
  intros Hl1 Hg1 Hl2 Hg2 Ho Hs Hm1 Hm2 Hn.
  unfold dmet_cas_frames, dmet_density, deref, lookup_global.
  rewrite Hm1, Hm2. cbn [mbind result_bind rbind].
  rewrite Hl1, Hl2. cbn [mbind result_bind rbind as_mole]. unfold deref.
  rewrite Hg1, Hg2. cbn [mbind result_bind rbind].
  rewrite Ho, Hs, Hn. reflexivity.
Qed.

End StateFacts.

(** ** The script *)

Section ScriptFacts.
Context (K : scalar).
Context (E : engine K).

#[local] Instance unbound_kept_rel x : StepRel (@unbound_kept K x).
Proof. split; unfold unbound_kept; auto. Qed.

#[local] Instance bound_kept_rel x : StepRel (@bound_kept K x).
Proof. split; unfold bound_kept; auto. Qed.

#[local] Instance calls_kept_rel : StepRel (@calls_kept K).
Proof. split; unfold calls_kept; congruence. Qed.

#[local] Instance store_kept_rel : StepRel (@store_kept K).
Proof.
  split; unfold store_kept; [auto|].
  intros a b c [H1 H2] [H3 H4]. split; congruence.
Qed.

Section Preservation.
Context (R : state K -> state K -> Prop) `{!StepRel R}.

Lemma preserves_bind {A B} (m : script K A) (k : A -> script K B) :
  preserves R m -> (forall a, preserves R (k a)) -> preserves R (sbind m k).
Proof.
  intros Hm Hk st. unfold sbind. specialize (Hm st).
  destruct (m st) as [[a|e] st']; simpl in *; [|exact Hm].
  eapply (@step_trans K R _); [exact Hm|apply Hk].
Qed.

Lemma preserves_sret {A} (a : A) : preserves R (sret (K := K) a).
Proof. intros st. apply (@step_refl K R _). Qed.

Lemma preserves_lift {A} (r : result A) : preserves R (lift (K := K) r).
Proof. intros st. apply (@step_refl K R _). Qed.

Lemma preserves_name x : preserves R (name (K := K) x).
Proof. intros st. apply (@step_refl K R _). Qed.

Lemma preserves_get_state : preserves R (get_state (K := K)).
Proof. intros st. apply (@step_refl K R _). Qed.

Lemma preserves_the_mole (v : val K) : preserves R (the_mole v).
Proof. destruct v; intros st; apply (@step_refl K R _). Qed.

Lemma preserves_the_scf (v : val K) : preserves R (the_scf v).
Proof. destruct v; intros st; apply (@step_refl K R _). Qed.

Lemma preserves_the_cas (v : val K) : preserves R (the_cas v).
Proof. destruct v; intros st; apply (@step_refl K R _). Qed.

Lemma preserves_the_indices (v : val K) : preserves R (the_indices v).
Proof. destruct v; intros st; apply (@step_refl K R _). Qed.

Lemma preserves_the_array (v : val K) : preserves R (the_array v).
Proof. destruct v; intros st; apply (@step_refl K R _). Qed.

End Preservation.

Lemma unbound_assign x y v : x <> y -> preserves (@unbound_kept K x) (assign (K := K) y v).
Proof.
  intros Hne st Hx. simpl. rewrite lookup_insert_ne by congruence. exact Hx.
Qed.

Lemma unbound_alloc x (m : Mole K) : preserves (@unbound_kept K x) (alloc m).
Proof. intros st Hx. exact Hx. Qed.

Lemma unbound_store x l (m : Mole K) : preserves (@unbound_kept K x) (store l m).
Proof. intros st Hx. exact Hx. Qed.

Lemma unbound_enter x : preserves (@unbound_kept K x) (enter_selector (K := K)).
Proof. intros st Hx. exact Hx. Qed.

Lemma bound_assign x y v : preserves (@bound_kept K x) (assign (K := K) y v).
Proof.
  intros st Hx. simpl. destruct (decide (y = x)) as [->|Hne].
  - rewrite lookup_insert_eq. eauto.
  - rewrite lookup_insert_ne by exact Hne. exact Hx.
Qed.

Lemma bound_alloc x (m : Mole K) : preserves (@bound_kept K x) (alloc m).
Proof. intros st Hx. exact Hx. Qed.

Lemma bound_store x l (m : Mole K) : preserves (@bound_kept K x) (store l m).
Proof. intros st Hx. exact Hx. Qed.

Lemma calls_assign y v : preserves (@calls_kept K) (assign (K := K) y v).
Proof. intros st. reflexivity. Qed.

Lemma calls_alloc (m : Mole K) : preserves (@calls_kept K) (alloc m).
Proof. intros st. reflexivity. Qed.

Lemma calls_store l (m : Mole K) : preserves (@calls_kept K) (store l m).
Proof. intros st. reflexivity. Qed.

Lemma store_enter : preserves (@store_kept K) (enter_selector (K := K)).
Proof. intros st. split; reflexivity. Qed.

Ltac preserve_steps_with tac :=
  repeat first
    [ apply preserves_bind; [typeclasses eauto| |intros ?]
    | apply preserves_sret; typeclasses eauto
    | apply preserves_lift; typeclasses eauto
    | apply preserves_name; typeclasses eauto
    | apply preserves_get_state; typeclasses eauto
    | apply preserves_the_mole; typeclasses eauto
    | apply preserves_the_scf; typeclasses eauto
    | apply preserves_the_cas; typeclasses eauto
    | apply preserves_the_indices; typeclasses eauto
    | apply preserves_the_array; typeclasses eauto
    | apply unbound_assign; tac
    | apply unbound_alloc
    | apply unbound_store
    | apply unbound_enter
    | apply bound_assign
    | apply bound_alloc
    | apply bound_store
    | apply calls_assign
    | apply calls_alloc
    | apply calls_store
    | apply store_enter ].

Ltac preserve_steps := preserve_steps_with discriminate.

Lemma run_cons (s : script K unit) rest st :
  run (s :: rest) st = sbind s (fun _ => run rest) st.
Proof. reflexivity. Qed.

Lemma run_app (pre post : list (script K unit)) st :
  run (pre ++ post) st = sbind (run pre) (fun _ => run post) st.
Proof.
  revert st. induction pre as [|s pre IH]; intros st; simpl.
  - unfold sbind, sret. reflexivity.
  - unfold sbind in *. destruct (s st) as [[[]|e] st1]; [apply IH|reflexivity].
Qed.

Lemma run_preserves R `{!StepRel R} (stmts : list (script K unit)) :
  List.Forall (preserves R) stmts -> preserves R (run stmts).
Proof.
  induction 1 as [|s rest Hs _ IH]; simpl.
  - apply preserves_sret. typeclasses eauto.
  - apply preserves_bind; [typeclasses eauto|exact Hs|intros _; exact IH].
Qed.

(** A name that is no target of the program stays unbound across each of
    its statements. *)
Lemma program_keeps_unbound x :
  ~ In x program_targets ->
  List.Forall (preserves (@unbound_kept K x)) (program E).
Proof.
  intros Hx.
  assert (Hne : forall y, In y program_targets -> x <> y)
    by (intros y Hy ->; contradiction).
  unfold program, quintet_branch, triplet_branch. simpl app.
  repeat constructor;
    unfold lines_3_12, line_35, lines_98_143, stmt_rohf, stmt_fast_newton,
      stmt_dmrgscf, stmt_idx, stmt_dmet_cas, call_dmet_cas, stmt_kernel,
      stmt_read_mc, stmt_nevpt, line_182, lines_210_233;
    preserve_steps_with ltac:(apply Hne; simpl; tauto).
Qed.

(** A statement that reads an unbound name before anything else can fail
    raises, and leaves the state as it was. *)
Lemma stmt_dmrgscf_unbound st :
  globals st !! "m" = None -> exists e, stmt_dmrgscf E st = (Raise e, st).
Proof.
  intros Hm. unfold stmt_dmrgscf, sbind, name, lookup_global.
  destruct (globals st !! "mcscf"); [|eexists; reflexivity].
  destruct (globals st !! "dmrgscf"); [|eexists; reflexivity].
  rewrite Hm. eexists; reflexivity.
Qed.

Lemma stmt_dmrgscf_name_error st v1 v2 :
  globals st !! "mcscf" = Some v1 -> globals st !! "dmrgscf" = Some v2 ->
  globals st !! "m" = None ->
  stmt_dmrgscf E st = (Raise (NameError "m"), st).
Proof.
  intros H1 H2 Hm. unfold stmt_dmrgscf, sbind, name, lookup_global.
  rewrite H1, H2, Hm. reflexivity.
Qed.

Lemma stmt_dmet_cas_unbound x st :
  globals st !! x = None -> exists e, stmt_dmet_cas E x st = (Raise e, st).
Proof.
  intros Hx. unfold stmt_dmet_cas, sbind, name, lookup_global.
  destruct (globals st !! "dmet_cas"); [|eexists; reflexivity].
  destruct (globals st !! "mc"); [|eexists; reflexivity].
  destruct (globals st !! "mf") as [vmf|]; [|eexists; reflexivity].
  destruct vmf; simpl; try (eexists; reflexivity).
  rewrite Hx. eexists; reflexivity.
Qed.

Lemma stmt_dmet_cas_name_error x st vd vmc f :
  globals st !! "dmet_cas" = Some vd -> globals st !! "mc" = Some vmc ->
  globals st !! "mf" = Some (VSCF f) -> globals st !! x = None ->
  stmt_dmet_cas E x st = (Raise (NameError x), st).
Proof.
  intros H1 H2 H3 Hx. unfold stmt_dmet_cas, sbind, name, lookup_global.
  rewrite H1, H2, H3. simpl. rewrite Hx. reflexivity.
Qed.

(** A run stops at a statement that raises on an unbound name, when no
    earlier statement binds the name or enters the selector. *)
Lemma run_stops_at x (pre : list (script K unit)) s post st :
  List.Forall (preserves (@calls_kept K)) pre ->
  List.Forall (preserves (@unbound_kept K x)) pre ->
  (forall st', globals st' !! x = None -> exists e, s st' = (Raise e, st')) ->
  globals st !! x = None ->
  exists e st',
    run (pre ++ s :: post) st = (Raise e, st')
    /\ selector_calls st' = selector_calls st.
Proof.
  intros Hc Hu Hs Hx.
  pose proof (run_preserves _ _ Hc st) as Hc'.
  pose proof (run_preserves _ _ Hu st Hx) as Hu'.
  rewrite run_app. unfold sbind at 1.
  destruct (run pre st) as [[[]|e] st1]; simpl in *.
  - destruct (Hs st1 Hu') as [e He]. unfold sbind.
    rewrite He. exists e, st1. split; [reflexivity|exact Hc'].
  - exists e, st1. split; [reflexivity|exact Hc'].
Qed.


Lemma stmt_dmrgscf_raises_name_error st :
  globals st !! "m" = None ->
  exists x, stmt_dmrgscf E st = (Raise (NameError x), st).
Proof.
  intros Hm. unfold stmt_dmrgscf, sbind, name, lookup_global.
  destruct (globals st !! "mcscf"); [|eexists; reflexivity].
  destruct (globals st !! "dmrgscf"); [|eexists; reflexivity].
  rewrite Hm. eexists; reflexivity.
Qed.

(** C10: neither [idx3d] nor [m] is bound by any statement of the program;
    the triplet branch therefore stops with an exception before the body
    of the selector is entered, the call on line 197 raising a name error
    for [idx3d] and the construction of the solver on line 194 one for
    [m]; run from the start, the program stops before any call of the
    selector, with the name error for [m] on line 156 once the mean-field
    steps of lines 145-146 have returned. *)
Theorem triplet_branch_stops_on_unbound_name :
  (forall x, x = "m" \/ x = "idx3d" ->
     ~ In x program_targets
     /\ List.Forall (preserves (@unbound_kept K x)) (program E))
  /\ (forall st, globals st !! "idx3d" = None ->
        exists e st',
          run (triplet_branch E) st = (Raise e, st')
          /\ selector_calls st' = selector_calls st)
  /\ (forall st st1,
        run [line_182 (K := K); stmt_rohf E; stmt_fast_newton E] st = (Ok tt, st1) ->
        globals st !! "m" = None ->
        exists x, run (triplet_branch E) st = (Raise (NameError x), st1))
  /\ (forall st vd vmc f,
        globals st !! "dmet_cas" = Some vd -> globals st !! "mc" = Some vmc ->
        globals st !! "mf" = Some (VSCF f) -> globals st !! "idx3d" = None ->
        stmt_dmet_cas E "idx3d" st = (Raise (NameError "idx3d"), st))
  /\ (forall st v1 v2,
        globals st !! "mcscf" = Some v1 -> globals st !! "dmrgscf" = Some v2 ->
        globals st !! "m" = None ->
        stmt_dmrgscf E st = (Raise (NameError "m"), st))
  /\ (exists e st',
        run (program E) (initial_state K) = (Raise e, st')
        /\ selector_calls st' = 0%nat)
  /\ (forall st1,
        run [lines_3_12 (K := K); line_35 (K := K); lines_98_143 E;
             stmt_rohf E; stmt_fast_newton E] (initial_state K) = (Ok tt, st1) ->
        run (program E) (initial_state K) = (Raise (NameError "m"), st1)).
Proof.
  split; [|split; [|split; [|split; [|split; [|split]]]]].
  - intros x Hx.
    assert (Hn : ~ In x program_targets).
    { destruct Hx as [-> | ->]; simpl; intros H;
        repeat (destruct H as [H|H]; [discriminate|]); exact H. }
    split; [exact Hn|apply program_keeps_unbound; exact Hn].
  - intros st Hx.
    apply (run_stops_at "idx3d"
             [line_182 (K := K); stmt_rohf E; stmt_fast_newton E;
              stmt_dmrgscf E; stmt_idx (K := K)]
             (stmt_dmet_cas E "idx3d")); [| | |exact Hx].
    + repeat constructor;
        unfold stmt_rohf, stmt_fast_newton, stmt_dmrgscf, stmt_idx, line_182;
        preserve_steps.
    + repeat constructor;
        unfold stmt_rohf, stmt_fast_newton, stmt_dmrgscf, stmt_idx, line_182;
        preserve_steps.
    + intros st'. apply stmt_dmet_cas_unbound.
  - intros st st1 Hrun Hm.
    assert (Hu : List.Forall (preserves (@unbound_kept K "m"))
                   [line_182 (K := K); stmt_rohf E; stmt_fast_newton E]).
    { repeat constructor; unfold stmt_rohf, stmt_fast_newton, line_182;
        preserve_steps. }
    pose proof (run_preserves _ _ Hu st Hm) as Hm1. rewrite Hrun in Hm1.
    simpl in Hm1.
    destruct (stmt_dmrgscf_raises_name_error st1 Hm1) as [x Hx].
    exists x.
    change (triplet_branch E)
      with ([line_182 (K := K); stmt_rohf E; stmt_fast_newton E]
            ++ stmt_dmrgscf E :: [stmt_idx (K := K); stmt_dmet_cas E "idx3d";
                 stmt_kernel E; stmt_read_mc "mo"; stmt_read_mc "e_t";
                 stmt_read_mc "cas_t"; stmt_nevpt E "ept2_t"]).
    rewrite run_app. unfold sbind at 1. rewrite Hrun.
    rewrite run_cons. unfold sbind. rewrite Hx. reflexivity.
  - intros st vd vmc f. apply stmt_dmet_cas_name_error.
  - intros st v1 v2. apply stmt_dmrgscf_name_error.
  - change (program E)
      with ([lines_3_12 (K := K); line_35 (K := K); lines_98_143 E;
             stmt_rohf E; stmt_fast_newton E]
            ++ stmt_dmrgscf E ::
               ([stmt_idx (K := K); stmt_dmet_cas E "idx";
                 stmt_kernel E; stmt_read_mc "e_q"; stmt_read_mc "cas_q";
                 stmt_nevpt E "ept2_q"]
                ++ triplet_branch E ++ [lines_210_233 (K := K)])).
    apply (run_stops_at "m"); [| | |reflexivity].
    + repeat constructor;
        unfold lines_3_12, line_35, lines_98_143, stmt_rohf, stmt_fast_newton;
        preserve_steps.
    + repeat constructor;
        unfold lines_3_12, line_35, lines_98_143, stmt_rohf, stmt_fast_newton;
        preserve_steps.
    + intros st'. apply stmt_dmrgscf_unbound.
  - intros st1 Hrun.
    assert (Hpre : forall x,
              List.Forall (preserves (@bound_kept K x))
                [lines_98_143 E; stmt_rohf E; stmt_fast_newton E]
              /\ List.Forall (preserves (@unbound_kept K "m"))
                   [lines_98_143 E; stmt_rohf E; stmt_fast_newton E]).
    { intros x. split; repeat constructor;
        unfold lines_98_143, stmt_rohf, stmt_fast_newton; preserve_steps. }
    change [lines_3_12 (K := K); line_35 (K := K); lines_98_143 E;
            stmt_rohf E; stmt_fast_newton E]
      with ([lines_3_12 (K := K); line_35 (K := K)]
            ++ [lines_98_143 E; stmt_rohf E; stmt_fast_newton E]) in Hrun.
    rewrite run_app in Hrun. unfold sbind at 1 in Hrun.
    destruct (run [lines_3_12 (K := K); line_35 (K := K)] (initial_state K))
      as [[[]|e0] st0] eqn:H0; [|discriminate].
    assert (Hst0 : is_Some (globals st0 !! "mcscf")
                   /\ is_Some (globals st0 !! "dmrgscf")
                   /\ globals st0 !! "m" = None).
    { vm_compute in H0. injection H0 as <-. repeat split; vm_compute; eauto. }
    destruct Hst0 as [Hb1 [Hb2 Hm0]].
    pose proof (run_preserves _ _ (proj1 (Hpre "mcscf")) st0 Hb1) as Hb1'.
    pose proof (run_preserves _ _ (proj1 (Hpre "dmrgscf")) st0 Hb2) as Hb2'.
    pose proof (run_preserves _ _ (proj2 (Hpre "m")) st0 Hm0) as Hm'.
    rewrite Hrun in Hb1', Hb2', Hm'. simpl in Hb1', Hb2', Hm'.
    destruct Hb1' as [v1 Hv1], Hb2' as [v2 Hv2].
    change (program E)
      with (([lines_3_12 (K := K); line_35 (K := K)]
             ++ [lines_98_143 E; stmt_rohf E; stmt_fast_newton E])
            ++ stmt_dmrgscf E ::
               ([stmt_idx (K := K); stmt_dmet_cas E "idx";
                 stmt_kernel E; stmt_read_mc "e_q"; stmt_read_mc "cas_q";
                 stmt_nevpt E "ept2_q"]
                ++ triplet_branch E ++ [lines_210_233 (K := K)])).
    rewrite run_app. unfold sbind at 1.
    rewrite run_app. unfold sbind at 1. rewrite H0, Hrun.
    rewrite run_cons. unfold sbind.
    rewrite (stmt_dmrgscf_name_error st1 v1 v2 Hv1 Hv2 Hm'). reflexivity.
Qed.

(** Line 182 replaces the object that the global [mol] refers to by the
    same molecule with [spin = 2]. *)
Lemma line_182_mutates (st : state K) l m :
  globals st !! "mol" = Some (VMole l) -> heap st !! l = Some m ->
  line_182 st
  = (Ok tt, {| globals := globals st;
               heap := <[l := set_spin 2 m]> (heap st);
               selector_calls := selector_calls st |}).
Proof.
  intros Hl Hm. unfold line_182, sbind, name, lookup_global.
  rewrite Hl. simpl. unfold deref. rewrite Hm. reflexivity.
Qed.

(** A call of the selector binds no name and changes no object. *)
Lemma call_keeps_store (vmc : val K) dm vidx :
  preserves (@store_kept K) (call_dmet_cas E vmc dm vidx).
Proof. unfold call_dmet_cas. preserve_steps. Qed.

End ScriptFacts.

(** ** Dependence on the global molecule *)

(** The scenario run twice on the same arguments, with the global [mol]
    rebound in between. *)
Lemma scenario_rebound_outputs :
  dmet_cas Scenario.eigh_diagonal Scenario.orth_ao Scenario.st4
    (Scenario.mc4 1 2) [Scenario.dm_alpha; Scenario.dm_beta] [1%Z]
  = Ok (identity Zscalar 4)
  /\ dmet_cas Scenario.eigh_diagonal Scenario.orth_ao Scenario.st4_rebound
       (Scenario.mc4 1 2) [Scenario.dm_alpha; Scenario.dm_beta] [1%Z]
     = Ok Scenario.sheared_orth.
Proof. split; vm_compute; reflexivity. Qed.

(** C9: the selector computes the orthogonalising transform and the overlap
    matrix from the object that the global name [mol] refers to when it is
    called, and takes only [nao] from [mc.mol]; line 182 of the script
    replaces that object by the molecule with [spin = 2], which is what a
    later call reads; and on the same arguments the output changes with
    the global [mol]. *)
Theorem selector_reads_global_mol :
  (forall (K : scalar) (orth_ao : Mole K -> ndarray K) st mc dm implst d,
     dmet_density orth_ao st mc dm implst = Ok d ->
     exists l gm mm,
       globals st !! "mol" = Some (VMole l)
       /\ heap st !! l = Some gm
       /\ heap st !! cas_mol mc = Some mm
       /\ d_corth d = orth_ao gm
       /\ d_s d = mol_ovlp gm
       /\ d_nao d = mol_nao mm)
  /\ (forall (K : scalar) eigh (orth_ao : Mole K -> ndarray K) st mc dm implst mm,
        heap st !! cas_mol mc = Some mm ->
        globals st !! "mol" = None ->
        dmet_cas eigh orth_ao st mc dm implst = Raise (NameError "mol"))
  /\ (forall (K : scalar) eigh (orth_ao : Mole K -> ndarray K)
             st mc mc' dm implst mm mm',
        heap st !! cas_mol mc = Some mm ->
        heap st !! cas_mol mc' = Some mm' ->
        mol_nao mm = mol_nao mm' ->
        cas_ncore mc = cas_ncore mc' -> cas_ncas mc = cas_ncas mc' ->
        cas_scf mc = cas_scf mc' ->
        dmet_cas eigh orth_ao st mc dm implst
        = dmet_cas eigh orth_ao st mc' dm implst)
  /\ (forall (K : scalar) (E : engine K) st l m,
        globals st !! "mol" = Some (VMole l) -> heap st !! l = Some m ->
        exists st',
          line_182 st = (Ok tt, st')
          /\ globals st' = globals st
          /\ heap st' !! l = Some (set_spin 2 m)
          /\ forall mc dm implst d,
               dmet_density (eng_orth_ao E) st' mc dm implst = Ok d ->
               d_corth d = eng_orth_ao E (set_spin 2 m)
               /\ d_s d = mol_ovlp m)
  /\ dmet_cas Scenario.eigh_diagonal Scenario.orth_ao Scenario.st4
       (Scenario.mc4 1 2) [Scenario.dm_alpha; Scenario.dm_beta] [1%Z]
     <> dmet_cas Scenario.eigh_diagonal Scenario.orth_ao Scenario.st4_rebound
          (Scenario.mc4 1 2) [Scenario.dm_alpha; Scenario.dm_beta] [1%Z].
Proof.
  split; [|split; [|split; [|split]]].
  - intros K orth_ao st mc dm implst d. apply density_sources.
  - intros K eigh orth_ao st mc dm implst mm. apply density_needs_global.
  - intros K eigh orth_ao st mc mc' dm implst mm mm' H1 H2 H3 H4 H5 H6.
    unfold dmet_cas.
    rewrite (mc_mol_only_nao K eigh orth_ao st mc mc' dm implst mm mm'); auto.
  - intros K E st l m Hl Hm. eexists. split; [apply line_182_mutates; eassumption|].
    simpl. split; [reflexivity|]. split; [apply lookup_insert_eq|].
    intros mc dm implst d Hd.
    apply density_sources in Hd. simpl in Hd.
    destruct Hd as [l' [gm [mm [Hl' [Hgm [_ [Hc [Hs _]]]]]]]].
    rewrite Hl in Hl'. injection Hl' as <-.
    rewrite lookup_insert_eq in Hgm. injection Hgm as <-.
    split; assumption.
  - destruct scenario_rebound_outputs as [-> ->]. discriminate.
Qed.

(** C6, refuted as stated: the same arguments give two different outputs
    when the global [mol] has been rebound between the calls. *)
Lemma identical_arguments_different_output :
  dmet_cas Scenario.eigh_diagonal Scenario.orth_ao Scenario.st4
    (Scenario.mc4 1 2) [Scenario.dm_alpha; Scenario.dm_beta] [1%Z]
  = Ok (@NDArray Zscalar 4 4
         [[1; 0; 0; 0]; [0; 1; 0; 0]; [0; 0; 1; 0]; [0; 0; 0; 1]]%Z)
  /\ dmet_cas Scenario.eigh_diagonal Scenario.orth_ao Scenario.st4_rebound
       (Scenario.mc4 1 2) [Scenario.dm_alpha; Scenario.dm_beta] [1%Z]
     = Ok (@NDArray Zscalar 4 4
            [[1; 1; 0; 0]; [0; 1; 0; 0]; [0; 0; 1; 0]; [0; 0; 0; 1]]%Z)
  /\ ~ (forall st1 st2 : state Zscalar,
          dmet_cas Scenario.eigh_diagonal Scenario.orth_ao st1
            (Scenario.mc4 1 2) [Scenario.dm_alpha; Scenario.dm_beta] [1%Z]
          = dmet_cas Scenario.eigh_diagonal Scenario.orth_ao st2
              (Scenario.mc4 1 2) [Scenario.dm_alpha; Scenario.dm_beta] [1%Z]).
Proof.
  destruct scenario_rebound_outputs as [Ha Hb].
  split; [exact Ha|]. split; [exact Hb|].
  intros H. specialize (H Scenario.st4 Scenario.st4_rebound).
  rewrite Ha, Hb in H. discriminate.
Qed.

(** C6, as the program has it: the selector is a function of its arguments
    and of the molecule that the global [mol] refers to.  Two calls with
    the same arguments give the same locals and the same output whenever
    that molecule gives the same transform and overlap at both calls (and
    [mc.mol] the same number of orbitals), whatever else differs between
    the two states; and a call binds no name and changes no object. *)
Theorem deterministic_given_global_mol (K : scalar) eigh
    (orth_ao : Mole K -> ndarray K) (E : engine K)
    st1 st2 mc dm implst l1 l2 g1 g2 m1 m2 :
  globals st1 !! "mol" = Some (VMole l1) -> heap st1 !! l1 = Some g1 ->
  globals st2 !! "mol" = Some (VMole l2) -> heap st2 !! l2 = Some g2 ->
  orth_ao g1 = orth_ao g2 -> mol_ovlp g1 = mol_ovlp g2 ->
  heap st1 !! cas_mol mc = Some m1 -> heap st2 !! cas_mol mc = Some m2 ->
  mol_nao m1 = mol_nao m2 ->
  dmet_cas_frames eigh orth_ao st1 mc dm implst
  = dmet_cas_frames eigh orth_ao st2 mc dm implst
  /\ dmet_cas eigh orth_ao st1 mc dm implst
     = dmet_cas eigh orth_ao st2 mc dm implst
  /\ forall vmc vidx,
       store_kept st1 (snd (call_dmet_cas E vmc dm vidx st1)).
Proof.
  intros Hl1 Hg1 Hl2 Hg2 Ho Hs Hm1 Hm2 Hn.
  pose proof (frames_depend_on_global_mol K eigh orth_ao st1 st2 mc dm implst
                l1 l2 g1 g2 m1 m2 Hl1 Hg1 Hl2 Hg2 Ho Hs Hm1 Hm2 Hn) as Hfr.
  split; [exact Hfr|]. split.
  - unfold dmet_cas. rewrite Hfr. reflexivity.
  - intros vmc vidx. apply (call_keeps_store K E vmc dm vidx st1).
Qed.

(** ** The theorems on the concrete scenario *)

Lemma eigh_diagonal_total : eigh_total Scenario.eigh_diagonal.
Proof.
  intros a Hsq. unfold Scenario.eigh_diagonal.
  rewrite Hsq, Nat.eqb_refl. eexists _, _. split; [reflexivity|].
  simpl. rewrite length_map, length_seq. auto.
Qed.

Lemma eigh_diagonal_orthonormal : eigh_orthonormal Scenario.eigh_diagonal.
Proof.
  intros a w u H. unfold Scenario.eigh_diagonal in H.
  destruct (Nat.eqb (nrows a) (ncols a)); [|discriminate].
  injection H as _ <-. apply identity_orthonormal_columns.
Qed.

Lemma scenario_shapes ncore ncas :
  valid_shapes Scenario.orth_ao Scenario.st4 (Scenario.mc4 ncore ncas)
    Scenario.dm_alpha Scenario.dm_beta Scenario.mol4.
Proof.
  constructor; try reflexivity.
  constructor; try reflexivity.
  - exists 0%nat. split; reflexivity.
  - exists Scenario.mol4. split; reflexivity.
Qed.

Lemma scenario_indices (implst : list Z) :
  implst = [1%Z] \/ implst = [0%Z; 1%Z] -> valid_indices 4 implst.
Proof.
  intros [-> | ->]; constructor; simpl; try lia; try discriminate.
  - repeat constructor. simpl. tauto.
  - repeat constructor; lia.
  - repeat constructor; simpl; intuition discriminate.
  - repeat constructor; lia.
Qed.

Lemma scenario_valid ncore ncas :
  (1 <= ncas)%nat -> (ncore + ncas <= 4)%nat ->
  valid_input Scenario.orth_ao Scenario.st4 (Scenario.mc4 ncore ncas)
    Scenario.dm_alpha Scenario.dm_beta [1%Z] Scenario.mol4.
Proof.
  intros H1 H2. split; [apply scenario_shapes|].
  constructor; simpl; try lia.
  - repeat constructor. simpl. tauto.
  - repeat constructor; lia.
Qed.

Lemma scenario_nondegenerate : nondegenerate 4 [1%Z].
Proof. split; [discriminate|simpl; lia]. Qed.

Lemma partition_complete_witness :
  exists d p c,
    dmet_cas_frames Scenario.eigh_diagonal Scenario.orth_ao Scenario.st4
      (Scenario.mc4 1 2) [Scenario.dm_alpha; Scenario.dm_beta] [1%Z]
    = Ok (d, p, c)
    /\ blocks_assigned (Scenario.mc4 1 2) Scenario.mol4 [1%Z] d p.
Proof.
  destruct (partition_complete Zscalar Scenario.eigh_diagonal Scenario.orth_ao
              Scenario.st4 (Scenario.mc4 1 2) Scenario.dm_alpha Scenario.dm_beta
              [1%Z] Scenario.mol4
              (scenario_valid 1 2 ltac:(lia) ltac:(lia)) eigh_diagonal_total)
    as [Hall Hex].
  destruct (Hex scenario_nondegenerate) as [d [p [c Hfr]]].
  exists d, p, c. split; [exact Hfr|exact (Hall d p c Hfr)].
Defined.

Lemma spin_trace_then_transform_witness :
  exists d,
    dmet_density Scenario.orth_ao Scenario.st4 (Scenario.mc4 1 2)
      [Scenario.dm_alpha; Scenario.dm_beta] [1%Z] = Ok d
    /\ d_dm_mixed d = spec_dm_mixed Scenario.dm_alpha Scenario.dm_beta
    /\ d_dm d = Scenario.diag [2; 1; 1; 0]%Z.
Proof.
  destruct (spin_trace_then_transform Zscalar Scenario.orth_ao Scenario.st4
              (Scenario.mc4 1 2) Scenario.dm_alpha Scenario.dm_beta [1%Z]
              Scenario.mol4 (vs_density (scenario_shapes 1 2)))
    as [d [Hd [Hm [_ [Ho _]]]]].
  exists d. split; [exact Hd|]. split; [exact Hm|].
  rewrite Ho. vm_compute. reflexivity.
Defined.

Lemma natural_orbital_blocks_witness :
  exists d p c,
    dmet_cas_frames Scenario.eigh_diagonal Scenario.orth_ao Scenario.st4
      (Scenario.mc4 1 2) [Scenario.dm_alpha; Scenario.dm_beta] [1%Z]
    = Ok (d, p, c)
    /\ natural_orbitals Scenario.eigh_diagonal Scenario.orth_ao
         Scenario.mol4 [1%Z] d p
    /\ ia_data (p_notimp p) = [0; 2; 3]%Z
    /\ p_occb p = [-2; -1; 0]%Z
    /\ occupations_descending
         (block (d_dm d) (bath_positions 4 [1%Z])) (p_ub p).
Proof.
  destruct (natural_orbital_blocks Zscalar Scenario.eigh_diagonal
              Scenario.orth_ao Scenario.st4 (Scenario.mc4 1 2)
              Scenario.dm_alpha Scenario.dm_beta [1%Z] Scenario.mol4
              (scenario_valid 1 2 ltac:(lia) ltac:(lia)) eigh_diagonal_total)
    as [Hall Hex].
  destruct (Hex scenario_nondegenerate) as [d [p [c Hfr]]].
  pose proof (Hall d p c Hfr) as H.
  exists d, p, c. split; [exact Hfr|]. split; [exact H|].
  unfold natural_orbitals in H. cbv zeta in H.
  destruct H as [_ [_ [_ [_ [_ [_ [_ [_ [_ [_ [Hord _]]]]]]]]]]].
  vm_compute in Hfr. injection Hfr as <- <- <-.
  split; [reflexivity|]. split; [reflexivity|].
  apply Hord.
  - intros i j Hij Hj. simpl in Hj.
    destruct i as [|[|[|i]]], j as [|[|[|j]]]; try lia; vm_compute; discriminate.
  - intros i j Hi Hj. simpl in Hi, Hj.
    destruct i as [|[|[|i]]], j as [|[|[|j]]]; try lia; vm_compute; reflexivity.
Defined.

Lemma canonical_assembly_witness :
  exists d p c,
    dmet_cas_frames Scenario.eigh_diagonal Scenario.orth_ao Scenario.st4
      (Scenario.mc4 1 2) [Scenario.dm_alpha; Scenario.dm_beta] [1%Z]
    = Ok (d, p, c)
    /\ dmet_cas Scenario.eigh_diagonal Scenario.orth_ao Scenario.st4
         (Scenario.mc4 1 2) [Scenario.dm_alpha; Scenario.dm_beta] [1%Z]
       = Ok (c_mo_init c)
    /\ canonical_blocks Scenario.eigh_diagonal (Scenario.mc4 1 2)
         Scenario.mol4 p c
    /\ c_fock c = Scenario.diag [-3; -2; -1; 5]%Z.
Proof.
  destruct (canonical_assembly Zscalar Scenario.eigh_diagonal
              Scenario.orth_ao Scenario.st4 (Scenario.mc4 1 2)
              Scenario.dm_alpha Scenario.dm_beta [1%Z] Scenario.mol4
              (scenario_valid 1 2 ltac:(lia) ltac:(lia)) eigh_diagonal_total)
    as [Hall Hex].
  destruct (Hex scenario_nondegenerate) as [d [p [c Hfr]]].
  destruct (Hall d p c Hfr) as [Hcas Hcb].
  exists d, p, c. split; [exact Hfr|]. split; [exact Hcas|]. split; [exact Hcb|].
  destruct Hcb as [Hf _]. rewrite Hf. vm_compute. reflexivity.
Defined.

Lemma output_orthonormal_witness :
  exists mo,
    dmet_cas Scenario.eigh_diagonal Scenario.orth_ao Scenario.st4
      (Scenario.mc4 1 2) [Scenario.dm_alpha; Scenario.dm_beta] [1%Z] = Ok mo
    /\ shape mo = (4, 4)%nat
    /\ mdot (mdot (np_T mo) (identity Zscalar 4)) mo = identity Zscalar 4.
Proof.
  destruct (output_orthonormal Zscalar Scenario.eigh_diagonal Scenario.orth_ao
              Scenario.st4 (Scenario.mc4 1 2) Scenario.dm_alpha Scenario.dm_beta
              [1%Z] Scenario.mol4
              (scenario_valid 1 2 ltac:(lia) ltac:(lia)) eigh_diagonal_total
              eigh_diagonal_orthonormal ltac:(vm_compute; reflexivity))
    as [Hall Hex].
  destruct (Hex scenario_nondegenerate) as [mo Hmo].
  exists mo. split; [exact Hmo|exact (Hall mo Hmo)].
Defined.

Lemma deterministic_given_global_mol_witness :
  dmet_cas Scenario.eigh_diagonal Scenario.orth_ao Scenario.st4
    (Scenario.mc4 1 2) [Scenario.dm_alpha; Scenario.dm_beta] [1%Z]
  = dmet_cas Scenario.eigh_diagonal Scenario.orth_ao Scenario.st4_later
      (Scenario.mc4 1 2) [Scenario.dm_alpha; Scenario.dm_beta] [1%Z].
Proof.
  apply (deterministic_given_global_mol Zscalar Scenario.eigh_diagonal
           Scenario.orth_ao Scenario.engine4 Scenario.st4 Scenario.st4_later
           (Scenario.mc4 1 2) [Scenario.dm_alpha; Scenario.dm_beta] [1%Z]
           0%nat 0%nat Scenario.mol4 Scenario.mol4 Scenario.mol4 Scenario.mol4);
    reflexivity.
Defined.

Lemma boundary_no_bath_witness :
  exists d p c,
    dmet_cas_frames Scenario.eigh_diagonal Scenario.orth_ao Scenario.st4
      (Scenario.mc4 1 1) [Scenario.dm_alpha; Scenario.dm_beta] [1%Z]
    = Ok (d, p, c)
    /\ d_nimp d = d_ncas d
    /\ d_nbath d = 0%Z
    /\ p_mocas p = p_imporb p.
Proof.
  destruct (boundary_no_bath Zscalar Scenario.eigh_diagonal Scenario.orth_ao
              Scenario.st4 (Scenario.mc4 1 1) Scenario.dm_alpha Scenario.dm_beta
              [1%Z] Scenario.mol4
              (scenario_valid 1 1 ltac:(lia) ltac:(lia)) eigh_diagonal_total
              eq_refl)
    as [Hall Hex].
  destruct (Hex scenario_nondegenerate) as [d [p [c Hfr]]].
  exists d, p, c. split; [exact Hfr|exact (Hall d p c Hfr)].
Defined.

(** C8, refuted as stated: with [ncas = 1] and the impurity list [[0, 1]]
    the selector raises nothing and returns a matrix of four rows and five
    columns. *)
Lemma oversized_impurity_returns :
  (cas_ncas (Scenario.mc4 1 1) < length [0; 1]%Z)%nat
  /\ dmet_cas Scenario.eigh_diagonal Scenario.orth_ao Scenario.st4
       (Scenario.mc4 1 1) [Scenario.dm_alpha; Scenario.dm_beta] [0; 1]%Z
     = Ok (@NDArray Zscalar 4 5
             [[0; 1; 0; 0; 0]; [0; 0; 1; 0; 0]; [1; 0; 0; 1; 0];
              [0; 0; 0; 0; 1]]%Z)
  /\ ~ exists e,
         dmet_cas Scenario.eigh_diagonal Scenario.orth_ao Scenario.st4
           (Scenario.mc4 1 1) [Scenario.dm_alpha; Scenario.dm_beta] [0; 1]%Z
         = Raise e.
Proof.
  split; [simpl; lia|].
  assert (H : dmet_cas Scenario.eigh_diagonal Scenario.orth_ao Scenario.st4
                (Scenario.mc4 1 1) [Scenario.dm_alpha; Scenario.dm_beta] [0; 1]%Z
              = Ok (@NDArray Zscalar 4 5
                      [[0; 1; 0; 0; 0]; [0; 0; 1; 0; 0]; [1; 0; 0; 1; 0];
                       [0; 0; 0; 0; 1]]%Z))
    by (vm_compute; reflexivity).
  split; [exact H|]. intros [e He]. rewrite H in He. discriminate.
Qed.

Lemma oversized_impurity_unchecked_witness :
  exists d p c,
    dmet_cas_frames Scenario.eigh_diagonal Scenario.orth_ao Scenario.st4
      (Scenario.mc4 1 1) [Scenario.dm_alpha; Scenario.dm_beta] [0; 1]%Z
    = Ok (d, p, c)
    /\ dmet_cas Scenario.eigh_diagonal Scenario.orth_ao Scenario.st4
         (Scenario.mc4 1 1) [Scenario.dm_alpha; Scenario.dm_beta] [0; 1]%Z
       = Ok (c_mo_init c)
    /\ nrows (c_mo_init c) = 4%nat
    /\ (d_nbath d < 0)%Z
    /\ (1 < 2 <= ncols (p_mocas p))%nat.
Proof.
  apply (oversized_impurity_unchecked Zscalar Scenario.eigh_diagonal
           Scenario.orth_ao Scenario.st4 (Scenario.mc4 1 1)
           Scenario.dm_alpha Scenario.dm_beta [0; 1]%Z Scenario.mol4
           (scenario_shapes 1 1)
           (scenario_indices [0; 1]%Z (or_intror eq_refl))
           eigh_diagonal_total).
  simpl. lia.
Defined.

Lemma triplet_branch_stops_on_unbound_name_witness :
  exists st1,
    run [lines_3_12 (K := Zscalar); line_35 (K := Zscalar);
         lines_98_143 Scenario.engine4; stmt_rohf Scenario.engine4;
         stmt_fast_newton Scenario.engine4] (initial_state Zscalar) = (Ok tt, st1)
    /\ run (program Scenario.engine4) (initial_state Zscalar)
       = (Raise (NameError "m"), st1).
Proof.
  eexists. split.
  - vm_compute. reflexivity.
  - apply (proj2 (proj2 (proj2 (proj2 (proj2 (proj2
             (triplet_branch_stops_on_unbound_name Zscalar Scenario.engine4))))))).
    vm_compute. reflexivity.
Defined.

(** * Further properties of the selector and of the script *)

(** ** Index lists in general *)

Section IndexFactsGeneral.

Lemma resolve_index_cases n i :
  (resolvable n i /\ resolve_index n i = Ok (wrap_index n i))
  \/ (~ resolvable n i /\ resolve_index n i = Raise IndexError).
Proof.
  unfold resolvable, resolve_index, wrap_index.
  destruct (Z.leb_spec 0 i), (Z.ltb_spec i (Z.of_nat n)),
    (Z.leb_spec (- Z.of_nat n) i), (Z.ltb_spec i 0); simpl;
    first [exfalso; lia | left; split; [lia|reflexivity]
          | right; split; [lia|reflexivity]].
Qed.

Lemma rmapM_resolve_cases n l :
  (List.Forall (resolvable n) l
   /\ rmapM (resolve_index n) l = Ok (map (wrap_index n) l))
  \/ (~ List.Forall (resolvable n) l
      /\ rmapM (resolve_index n) l = Raise IndexError).
Proof.
  induction l as [|i l IH]; simpl.
  - left. split; [constructor|reflexivity].
  - destruct (resolve_index_cases n i) as [[Hi ->]|[Hi ->]]; simpl.
    + destruct IH as [[Hl ->]|[Hl ->]]; simpl.
      * left. split; [constructor; assumption|reflexivity].
      * right. split; [|reflexivity]. intros H. inversion H. contradiction.
    + right. split; [|reflexivity]. intros H. inversion H. contradiction.
Qed.

Lemma index_list_cases n l :
  (l <> [] /\ List.Forall (resolvable n) l
   /\ index_list n (np_asarray l) = Ok (map (wrap_index n) l))
  \/ ((l = [] \/ ~ List.Forall (resolvable n) l)
      /\ index_list n (np_asarray l) = Raise IndexError).
Proof.
  destruct l as [|i l].
  - right. split; [left; reflexivity|reflexivity].
  - change (index_list n (np_asarray (i :: l)))
      with (rmapM (resolve_index n) (i :: l)).
    destruct (rmapM_resolve_cases n (i :: l)) as [[H ->]|[H ->]].
    + left. split; [discriminate|]. split; [exact H|reflexivity].
    + right. split; [right; exact H|reflexivity].
Qed.

Lemma wrap_index_nonneg n i : (0 <= i)%Z -> wrap_index n i = Z.to_nat i.
Proof. unfold wrap_index. intros H. destruct (Z.ltb_spec i 0); [lia|reflexivity]. Qed.

Lemma map_wrap_index_nonneg n l :
  List.Forall (fun i => (0 <= i)%Z) l -> map (wrap_index n) l = map Z.to_nat l.
Proof.
  induction 1 as [|i l Hi _ IH]; simpl; [reflexivity|].
  rewrite wrap_index_nonneg by exact Hi. rewrite IH. reflexivity.
Qed.

(** The complement of [x :: l] is the complement of [l] without [x]. *)
Lemma filter_both {A} (f g : A -> bool) (l : list A) :
  List.filter (fun a => f a && g a) l = List.filter f (List.filter g l).
Proof.
  induction l as [|a l IH]; simpl; [reflexivity|].
  destruct (g a); simpl; destruct (f a); simpl; rewrite IH; reflexivity.
Qed.

Lemma complement_cons n x l :
  complement n (np_asarray (x :: l))
  = List.filter (fun i => negb (Z.eqb i x)) (complement n (np_asarray l)).
Proof.
  unfold complement, np_contains. rewrite !np_asarray_data.
  rewrite <- filter_both. apply List.filter_ext. intros i. simpl.
  apply negb_orb.
Qed.

Lemma filter_out_length (x : Z) (l : list Z) :
  List.NoDup l ->
  (length (List.filter (fun i => negb (Z.eqb i x)) l)
   + (if in_dec Z.eq_dec x l then 1 else 0) = length l)%nat.
Proof.
  induction 1 as [|y l Hy Hnd IH]; [reflexivity|].
  cbn [List.filter length].
  destruct (in_dec Z.eq_dec x l) as [Hl|Hl],
    (in_dec Z.eq_dec x (y :: l)) as [Hyl|Hyl],
    (Z.eqb_spec y x) as [Heq|Hne]; cbn [negb length];
    try lia; exfalso.
  - subst y. contradiction.
  - apply Hyl. right. exact Hl.
  - apply Hyl. right. exact Hl.
  - destruct Hyl as [Hyl|Hyl]; contradiction.
  - apply Hyl. left. exact Heq.
Qed.

(** Impurity list and complement together never have fewer than [nao]
    members, and exactly [nao] when the list holds distinct members of
    [range(nao)]. *)
Lemma complement_count n l :
  (n <= length l + length (complement n (np_asarray l)))%nat
  /\ ((length l + length (complement n (np_asarray l)) = n)%nat
      <-> List.NoDup l /\ List.Forall (fun i => (0 <= i < Z.of_nat n)%Z) l).
Proof.
  induction l as [|x l [IHle IHeq]].
  - assert (H : length (complement n (np_asarray [])) = n).
    { unfold complement. simpl.
      rewrite List.forallb_filter_id.
      - rewrite length_map, length_seq. reflexivity.
      - apply forallb_forall. reflexivity. }
    rewrite H. simpl. split; [lia|]. split; [intros _; split; constructor|reflexivity].
  - rewrite complement_cons.
    pose proof (filter_out_length x _ (complement_NoDup n l)) as Hf.
    cbn [length].
    destruct (in_dec Z.eq_dec x (complement n (np_asarray l))) as [Hin|Hout].
    + apply complement_spec in Hin. destruct Hin as [Hr Hnot].
      split; [lia|]. split.
      * intros H. assert (H' : (length l + length (complement n (np_asarray l)) = n)%nat) by lia.
        apply IHeq in H'. destruct H' as [Hnd Hall].
        split; constructor; assumption.
      * intros [Hnd Hall]. inversion Hnd; subst. inversion Hall; subst.
        assert (H' : (length l + length (complement n (np_asarray l)) = n)%nat)
          by (apply IHeq; split; assumption).
        lia.
    + split; [lia|]. split.
      * intros H. exfalso. lia.
      * intros [Hnd Hall]. exfalso. apply Hout. apply complement_spec.
        inversion Hnd; subst. inversion Hall; subst. split; assumption.
Qed.

Lemma selectable_complement n l :
  selectable n l <->
  l <> [] /\ List.Forall (resolvable n) l /\ complement n (np_asarray l) <> [].
Proof.
  unfold selectable. split; intros [Hne [Hr Hc]]; (split; [exact Hne|split; [exact Hr|]]).
  - destruct Hc as [i [Hi Hn]]. intros Hc.
    assert (Hin : In i (complement n (np_asarray l))) by (apply complement_spec; tauto).
    rewrite Hc in Hin. exact Hin.
  - destruct (complement n (np_asarray l)) as [|i c] eqn:E; [contradiction|].
    exists i. apply complement_spec. rewrite E. left. reflexivity.
Qed.

End IndexFactsGeneral.

(** ** The impurity lists on which the selector returns *)

Section SelectorDomain.
Context (K : scalar).
Context (eigh : ndarray K -> result (list K * ndarray K)).
Context (orth_ao : Mole K -> ndarray K).
Add Ring Kring_dom : (num_ring K).
Local Open Scope num_scope.

Ltac slice_crush :=
  unfold slice_len, slice_start, slice_bound;
  repeat match goal with
         | |- context [(?a <? ?b)%Z] => destruct (Z.ltb_spec a b)
         end; lia.

(** Lines 37-49 when [mc.mol] and the global [mol] may differ. *)
Lemma dmet_density_fits st mc dma dmb implst g mm :
  fitting_shapes orth_ao st mc dma dmb g mm ->
  dmet_density orth_ao st mc [dma; dmb] implst
  = Ok (density_with orth_ao (mol_nao mm) mc dma dmb implst g).
Proof.
  intros [[l [Hl Hg]] Hm Hco Hs Ha Hb _ _].
  apply shape_eq in Hco, Hs, Ha, Hb.
  destruct Hco as [Hco1 Hco2], Hs as [Hs1 Hs2], Ha as [Ha1 Ha2], Hb as [Hb1 Hb2].
  unfold dmet_density, deref, lookup_global.
  rewrite Hm. simpl. rewrite Hl. simpl. unfold deref. rewrite Hg. simpl.
  rewrite np_dot_ok by (simpl; congruence). simpl.
  rewrite np_add_ok by congruence. simpl.
  rewrite np_dot_ok by (simpl; congruence). simpl.
  rewrite np_dot_ok by (simpl; congruence). simpl.
  reflexivity.
Qed.

Lemma valid_shapes_fitting st mc dma dmb g :
  valid_shapes orth_ao st mc dma dmb g ->
  exists mm, mol_nao mm = mol_nao g
             /\ fitting_shapes orth_ao st mc dma dmb g mm.
Proof.
  intros [[Hg [mm [Hm Hn]] Hco Hs Ha Hb] Hr Hc].
  exists mm. split; [exact Hn|]. constructor; assumption.
Qed.

(** [x[idx][:,idx]] on a square array: the block at the accepted
    positions, or an index error. *)
Lemma sub_block_cases (a : ndarray K) (l : list Z) n :
  nrows a = n -> ncols a = n ->
  (l <> [] /\ List.Forall (resolvable n) l
   /\ sub_block a (np_asarray l) = Ok (block a (map (wrap_index n) l)))
  \/ ((l = [] \/ ~ List.Forall (resolvable n) l)
      /\ sub_block a (np_asarray l) = Raise IndexError).
Proof.
  intros Hr Hc. unfold sub_block, np_take_rows, np_take_cols. rewrite Hr.
  destruct (index_list_cases n l) as [[Hne [Hl Hi]]|[Hl Hi]]; rewrite Hi.
  - left. split; [exact Hne|]. split; [exact Hl|].
    cbn [mbind result_bind rbind]. simpl ncols. rewrite Hc, Hi. reflexivity.
  - right. split; [exact Hl|reflexivity].
Qed.

Lemma np_take_cols_cases (a : ndarray K) (l : list Z) :
  (l <> [] /\ List.Forall (resolvable (ncols a)) l
   /\ np_take_cols a (np_asarray l) = Ok (take_cols a (map (wrap_index (ncols a)) l)))
  \/ ((l = [] \/ ~ List.Forall (resolvable (ncols a)) l)
      /\ np_take_cols a (np_asarray l) = Raise IndexError).
Proof.
  unfold np_take_cols.
  destruct (index_list_cases (ncols a) l) as [[Hne [Hl Hi]]|[Hl Hi]]; rewrite Hi.
  - left. split; [exact Hne|]. split; [exact Hl|reflexivity].
  - right. split; [exact Hl|reflexivity].
Qed.

Lemma bath_positions_wrap n nao implst :
  map (wrap_index n) (complement nao (np_asarray implst))
  = bath_positions nao implst.
Proof.
  unfold bath_positions. apply map_wrap_index_nonneg.
  eapply List.Forall_impl; [|apply complement_in_range]. simpl. intros; lia.
Qed.

(** Lines 56-64 on any impurity list: the locals, or an index error. *)
Lemma dmet_partition_cases (d : density_frame K) implst n :
  shape (d_dm d) = (n, n) -> shape (d_corth d) = (n, n) ->
  eigh_total eigh ->
  let notimp := complement (d_nao d) (np_asarray implst) in
  let imp := map (wrap_index n) implst in
  let bath := bath_positions (d_nao d) implst in
  let ncore := Z.of_nat (d_ncore d) in
  (implst <> [] /\ List.Forall (resolvable n) implst
   /\ notimp <> [] /\ List.Forall (resolvable n) notimp
   /\ exists p,
        dmet_partition eigh d implst = Ok p
        /\ eigh (np_neg (block (d_dm d) imp)) = Ok (p_occi p, p_ui p)
        /\ eigh (np_neg (block (d_dm d) bath)) = Ok (p_occb p, p_ub p)
        /\ shape (p_ui p) = (length implst, length implst)
        /\ shape (p_ub p) = (length notimp, length notimp)
        /\ p_imporb p = mdot (take_cols (d_corth d) imp) (p_ui p)
        /\ p_bathorb p = mdot (take_cols (d_corth d) bath) (p_ub p)
        /\ p_mocore p = np_cols (p_bathorb p) None (Some ncore)
        /\ p_mocas p
           = mhstack (p_imporb p)
               (np_cols (p_bathorb p) (Some ncore) (Some (ncore + d_nbath d)%Z))
        /\ p_moext p = np_cols (p_bathorb p) (Some (ncore + d_nbath d)%Z) None)
  \/ ((implst = [] \/ ~ List.Forall (resolvable n) implst
       \/ notimp = [] \/ ~ List.Forall (resolvable n) notimp)
      /\ dmet_partition eigh d implst = Raise IndexError).
Proof.
  intros Hdm Hco Htot notimp imp bath ncore.
  apply shape_eq in Hdm, Hco.
  destruct Hdm as [Hdm1 Hdm2], Hco as [Hco1 Hco2].
  unfold dmet_partition. cbv zeta. fold notimp.
  destruct (sub_block_cases (d_dm d) implst n Hdm1 Hdm2)
    as [[Hne [Hl ->]]|[Hl ->]]; [|right; split; [tauto|reflexivity]].
  cbn [mbind result_bind rbind]. fold imp.
  destruct (Htot (np_neg (block (d_dm d) imp)))
    as [occi [ui [Hei [_ [Hui1 Hui2]]]]]; [reflexivity|].
  simpl in Hui1, Hui2. unfold imp in Hui1, Hui2. rewrite length_map in Hui1, Hui2.
  rewrite Hei. cbn [mbind result_bind rbind].
  destruct (sub_block_cases (d_dm d) notimp n Hdm1 Hdm2)
    as [[Hcne [Hcl ->]]|[Hcl ->]]; [|right; split; [tauto|reflexivity]].
  cbn [mbind result_bind rbind].
  replace (map (wrap_index n) notimp) with bath
    by (symmetry; apply bath_positions_wrap).
  destruct (Htot (np_neg (block (d_dm d) bath)))
    as [occb [ub [Heb [_ [Hub1 Hub2]]]]]; [reflexivity|].
  simpl in Hub1, Hub2.
  assert (Hbl : length bath = length notimp)
    by (unfold bath, bath_positions; apply length_map).
  rewrite Heb. cbn [mbind result_bind rbind].
  destruct (np_take_cols_cases (d_corth d) notimp) as [[_ [_ ->]]|[[Hx|Hx] _]];
    [|contradiction|rewrite Hco2 in Hx; contradiction].
  cbn [mbind result_bind rbind]. rewrite Hco2.
  replace (map (wrap_index n) notimp) with bath
    by (symmetry; apply bath_positions_wrap).
  rewrite np_dot_ok by (simpl; congruence). cbn [mbind result_bind rbind].
  destruct (np_take_cols_cases (d_corth d) implst) as [[_ [_ ->]]|[[Hx|Hx] _]];
    [|contradiction|rewrite Hco2 in Hx; contradiction].
  cbn [mbind result_bind rbind]. rewrite Hco2. fold imp.
  rewrite np_dot_ok by (simpl; unfold imp; rewrite length_map; congruence).
  cbn [mbind result_bind rbind].
  unfold np_hstack, np_hstack_from.
  rewrite hstack2_ok by reflexivity. cbn [mbind result_bind rbind].
  left. do 4 (split; [assumption|]).
  eexists. split; [reflexivity|]. simpl.
  split; [reflexivity|]. split; [reflexivity|].
  split; [unfold shape; congruence|]. split; [unfold shape; congruence|].
  repeat split; reflexivity.
Qed.

(** The whole body on any impurity list: it returns the assembled blocks,
    or raises an index error. *)
Lemma dmet_cas_cases st mc dma dmb implst g mm :
  fitting_shapes orth_ao st mc dma dmb g mm ->
  eigh_total eigh ->
  let n := mol_nao g in
  let d := density_with orth_ao (mol_nao mm) mc dma dmb implst g in
  let notimp := complement (mol_nao mm) (np_asarray implst) in
  let ncore := Z.of_nat (cas_ncore mc) in
  (implst <> [] /\ List.Forall (resolvable n) implst
   /\ notimp <> [] /\ List.Forall (resolvable n) notimp
   /\ exists p c,
        dmet_cas_frames eigh orth_ao st mc [dma; dmb] implst = Ok (d, p, c)
        /\ dmet_cas eigh orth_ao st mc [dma; dmb] implst = Ok (c_mo_init c)
        /\ shape (p_imporb p) = (n, length implst)
        /\ shape (p_bathorb p) = (n, length notimp)
        /\ p_mocore p = np_cols (p_bathorb p) None (Some ncore)
        /\ p_mocas p
           = mhstack (p_imporb p)
               (np_cols (p_bathorb p) (Some ncore) (Some (ncore + d_nbath d)%Z))
        /\ p_moext p = np_cols (p_bathorb p) (Some (ncore + d_nbath d)%Z) None
        /\ nrows (c_mo_init c) = n
        /\ ncols (c_mo_init c)
           = (ncols (p_mocore p) + ncols (p_mocas p) + ncols (p_moext p))%nat)
  \/ ((implst = [] \/ ~ List.Forall (resolvable n) implst
       \/ notimp = [] \/ ~ List.Forall (resolvable n) notimp)
      /\ dmet_cas eigh orth_ao st mc [dma; dmb] implst = Raise IndexError).
Proof.
  intros Hfs Htot n d notimp ncore.
  pose proof (dmet_density_fits st mc dma dmb implst g mm Hfs) as Hd.
  destruct Hfs as [_ _ Hco Hs _ _ Hhf1 Hhf2].
  assert (Hdm : shape (d_dm d) = (n, n)).
  { apply shape_eq in Hco. destruct Hco as [_ Hco2].
    unfold shape. simpl. rewrite Hco2. reflexivity. }
  destruct (dmet_partition_cases d implst n Hdm Hco Htot)
    as [[Hne [Hl [Hcne [Hcl [p [Hp [_ [_ [Hui [Hub [Hi [Hb [Hmc [Hma Hme]]]]]]]]]]]]]]
       |[Hbad Hp]].
  - left. do 4 (split; [assumption|]).
    apply shape_eq in Hco, Hui, Hub.
    destruct Hco as [Hco1 Hco2], Hui as [Hui1 Hui2], Hub as [Hub1 Hub2].
    assert (Hri : nrows (p_imporb p) = n) by (rewrite Hi; exact Hco1).
    assert (Hrb : nrows (p_bathorb p) = n) by (rewrite Hb; exact Hco1).
    destruct (dmet_canonical_ok K eigh mc d p n Hs Hhf1 Hhf2)
      as [uc [ua [ue [_ [_ [_ [Huc [Hua [Hue Hc]]]]]]]]];
      [rewrite Hmc; exact Hrb|rewrite Hma; exact Hri|rewrite Hme; exact Hrb
      |exact Htot|].
    apply shape_eq in Huc, Hua, Hue.
    destruct Huc as [_ Huc], Hua as [_ Hua], Hue as [_ Hue].
    eexists p, _.
    assert (Hfr : dmet_cas_frames eigh orth_ao st mc [dma; dmb] implst
                  = Ok (d, p, canon_of mc d p
                                 {| r_occi := p_occi p; r_ui := p_ui p;
                                    r_occb := p_occb p; r_ub := p_ub p;
                                    r_uc := uc; r_ua := ua; r_ue := ue |})).
    { unfold dmet_cas_frames. rewrite Hd. cbn [mbind result_bind rbind].
      fold d. rewrite Hp. cbn [mbind result_bind rbind].
      rewrite (Hc (p_occi p) (p_ui p) (p_occb p) (p_ub p)). reflexivity. }
    split; [exact Hfr|].
    split; [unfold dmet_cas; rewrite Hfr; reflexivity|].
    split; [unfold shape; f_equal; [exact Hri|rewrite Hi; exact Hui2]|].
    split; [unfold shape; f_equal; [exact Hrb|rewrite Hb; exact Hub2]|].
    do 3 (split; [assumption|]).
    split.
    + simpl. rewrite Hmc. exact Hrb.
    + simpl. rewrite Huc, Hua, Hue. reflexivity.
  - right. split; [exact Hbad|].
    unfold dmet_cas, dmet_cas_frames. rewrite Hd.
    cbn [mbind result_bind rbind]. fold d. rewrite Hp. reflexivity.
Qed.

Lemma complement_resolvable n l :
  List.Forall (resolvable n) (complement n (np_asarray l)).
Proof.
  eapply List.Forall_impl; [|apply complement_in_range].
  unfold resolvable. simpl. intros; lia.
Qed.

(** On input of fitting shapes the selector returns exactly on the
    impurity lists that are not empty, hold only indices that numpy accepts
    on an axis of length [nao] (negative ones included), and leave at least
    one orbital of [range(nao)] out; on every other list it raises
    [IndexError]. *)
Theorem selector_domain st mc dma dmb implst g :
  valid_shapes orth_ao st mc dma dmb g ->
  eigh_total eigh ->
  (selectable (mol_nao g) implst ->
   exists mo, dmet_cas eigh orth_ao st mc [dma; dmb] implst = Ok mo
              /\ nrows mo = mol_nao g)
  /\ (~ selectable (mol_nao g) implst ->
      dmet_cas eigh orth_ao st mc [dma; dmb] implst = Raise IndexError).
Proof.
  intros Hvs Htot.
  destruct (valid_shapes_fitting st mc dma dmb g Hvs) as [mm [Hn Hfs]].
  pose proof (dmet_cas_cases st mc dma dmb implst g mm Hfs Htot) as H.
  cbv zeta in H. rewrite Hn in H. split.
  - intros Hsel. apply selectable_complement in Hsel.
    destruct Hsel as [Hne [Hr Hc]].
    destruct H as [[_ [_ [_ [_ [p [c [_ [Hmo [_ [_ [_ [_ [_ [Hrows _]]]]]]]]]]]]]]
                  |[[Hb|[Hb|[Hb|Hb]]] _]]; try contradiction.
    + exists (c_mo_init c). split; assumption.
    + exfalso. apply Hb, complement_resolvable.
  - intros Hns.
    destruct H as [[Hne [Hr [Hc _]]]|[_ H]]; [|exact H].
    exfalso. apply Hns, selectable_complement. tauto.
Qed.

(** However the impurity list is made up, a matrix that the selector
    returns for [nimp <= ncas] has [nao] rows and one column for every
    member of the impurity list and of its complement in [range(nao)].
    It never has fewer than [nao] columns, and it is square exactly when
    the impurity list holds distinct members of [range(nao)]: a repeated
    or a negative index gives a matrix with more columns than rows. *)
Theorem selector_output_shape st mc dma dmb implst g mo :
  valid_shapes orth_ao st mc dma dmb g ->
  eigh_total eigh ->
  (length implst <= cas_ncas mc)%nat ->
  dmet_cas eigh orth_ao st mc [dma; dmb] implst = Ok mo ->
  shape mo
  = (mol_nao g,
     (length implst + length (complement (mol_nao g) (np_asarray implst)))%nat)
  /\ (mol_nao g <= ncols mo)%nat
  /\ (ncols mo = mol_nao g
      <-> List.NoDup implst
          /\ List.Forall (fun i => (0 <= i < Z.of_nat (mol_nao g))%Z) implst).
Proof.
  intros Hvs Htot Hnimp Hmo.
  destruct (valid_shapes_fitting st mc dma dmb g Hvs) as [mm [Hn Hfs]].
  pose proof (dmet_cas_cases st mc dma dmb implst g mm Hfs Htot) as H.
  cbv zeta in H. rewrite Hn in H.
  destruct H as [[_ [_ [_ [_ [p [c [_ [Hmo' [Hi [Hb [Hmc [Hma [Hme [Hrows Hcols]]]]]]]]]]]]]]
                |[_ H]]; [|rewrite H in Hmo; discriminate].
  rewrite Hmo' in Hmo. injection Hmo as <-.
  apply shape_eq in Hi, Hb. destruct Hi as [_ Hi], Hb as [_ Hb].
  assert (Hw : ncols (c_mo_init c)
               = (length implst
                  + length (complement (mol_nao g) (np_asarray implst)))%nat).
  { rewrite Hcols, Hmc, Hma, Hme. simpl. rewrite Hi, Hb.
    set (nb := length (complement (mol_nao g) (np_asarray implst))).
    slice_crush. }
  pose proof (complement_count (mol_nao g) implst) as [Hle Heq].
  split; [unfold shape; rewrite Hrows, Hw; reflexivity|].
  rewrite Hw. split; [exact Hle|exact Heq].
Qed.

(** When [mc.mol] and the global [mol] differ in their number of atomic
    orbitals the selector gives no square matrix: it raises [IndexError]
    if [mc.mol] has more orbitals than [mol], and if it has fewer the
    orbitals beyond [mc.mol]'s are left out, so that the matrix returned
    for a list of distinct orbitals of [mc.mol] with [nimp <= ncas] has as
    many rows as [mol] and as many columns as [mc.mol] has orbitals. *)
Theorem mismatched_solver_molecule st mc dma dmb implst g mm :
  fitting_shapes orth_ao st mc dma dmb g mm ->
  eigh_total eigh ->
  ((mol_nao g < mol_nao mm)%nat ->
   dmet_cas eigh orth_ao st mc [dma; dmb] implst = Raise IndexError)
  /\ ((mol_nao mm < mol_nao g)%nat ->
      valid_indices (mol_nao mm) implst ->
      (length implst <= cas_ncas mc)%nat ->
      exists mo,
        dmet_cas eigh orth_ao st mc [dma; dmb] implst = Ok mo
        /\ shape mo = (mol_nao g, mol_nao mm)).
Proof.
  intros Hfs Htot.
  pose proof (dmet_cas_cases st mc dma dmb implst g mm Hfs Htot) as H.
  cbv zeta in H. split.
  - intros Hlt.
    destruct H as [[Hne [Hr [Hc [Hcr _]]]]|[_ H]]; [|exact H].
    exfalso.
    assert (Hin : In (Z.of_nat (mol_nao g))
                    (complement (mol_nao mm) (np_asarray implst))).
    { apply complement_spec. split; [lia|]. intros Hin.
      rewrite List.Forall_forall in Hr. specialize (Hr _ Hin).
      unfold resolvable in Hr. lia. }
    rewrite List.Forall_forall in Hcr. specialize (Hcr _ Hin).
    unfold resolvable in Hcr. lia.
  - intros Hlt [Hnd Hr Hne Hb] Hnimp.
    pose proof (complement_length (mol_nao mm) implst Hnd Hr) as Hlen.
    destruct H as [[_ [_ [_ [_ [p [c [_ [Hmo [Hi [Hbo [Hmc [Hma [Hme [Hrows Hcols]]]]]]]]]]]]]]
                  |[[Hx|[Hx|[Hx|Hx]]] _]].
    + exists (c_mo_init c). split; [exact Hmo|].
      apply shape_eq in Hi, Hbo. destruct Hi as [_ Hi], Hbo as [_ Hbo].
      unfold shape. rewrite Hrows, Hcols, Hmc, Hma, Hme. simpl.
      rewrite Hi, Hbo. f_equal.
      set (nb := length (complement (mol_nao mm) (np_asarray implst))) in *.
      slice_crush.
    + contradiction.
    + exfalso. apply Hx. eapply List.Forall_impl; [|exact Hr].
      unfold resolvable. simpl. intros; lia.
    + rewrite Hx in Hlen. simpl in Hlen. lia.
    + exfalso. apply Hx. eapply List.Forall_impl; [|apply complement_in_range].
      unfold resolvable. simpl. intros; lia.
Qed.

End SelectorDomain.

(** ** What the selector reads of its arguments and of the eigensolver *)

Section SelectorData.
Context (K : scalar).
Context (orth_ao : Mole K -> ndarray K).
Add Ring Kring_data : (num_ring K).
Local Open Scope num_scope.

Lemma broadcast_dim_comm m n : broadcast_dim m n = broadcast_dim n m.
Proof.
  unfold broadcast_dim.
  destruct (Nat.eqb_spec m n), (Nat.eqb_spec n m), (Nat.eqb_spec m 1),
    (Nat.eqb_spec n 1); subst; try reflexivity; try lia; congruence.
Qed.

(** [a + b] is [b + a], broadcasting included. *)
Lemma np_add_comm (a b : ndarray K) : np_add a b = np_add b a.
Proof.
  unfold np_add.
  rewrite (broadcast_dim_comm (nrows a)), (broadcast_dim_comm (ncols a)).
  destruct (broadcast_dim (nrows b) (nrows a)) as [r|e]; [|reflexivity].
  destruct (broadcast_dim (ncols b) (ncols a)) as [c|e]; [|reflexivity].
  cbn [mbind result_bind rbind]. f_equal.
  apply tabulate_ext. intros i j _ _. ring.
Qed.

(** Of the sequence [dm] the selector reads the first two entries and
    nothing else, and it reads them through their sum: exchanging the two
    spin channels, or appending further entries, changes nothing. *)
Theorem spin_channels_interchangeable
    (eigh : ndarray K -> result (list K * ndarray K))
    st mc dma dmb rest rest' implst :
  dmet_cas eigh orth_ao st mc (dma :: dmb :: rest) implst
  = dmet_cas eigh orth_ao st mc (dmb :: dma :: rest') implst.
Proof.
  unfold dmet_cas, dmet_cas_frames, dmet_density, seq_item.
  cbn [nth_error]. cbn [mbind result_bind rbind].
  rewrite (np_add_comm dma dmb). reflexivity.
Qed.

(** Density matrices of one shape that is not [nao x nao] are refused by
    the products of line 49 with [ValueError], before the impurity list is
    looked at. *)
Theorem density_of_wrong_shape_raises
    (eigh : ndarray K -> result (list K * ndarray K))
    st mc dma dmb implst l g mm :
  globals st !! "mol" = Some (VMole l) -> heap st !! l = Some g ->
  heap st !! cas_mol mc = Some mm ->
  shape (orth_ao g) = (mol_nao g, mol_nao g) ->
  shape (mol_ovlp g) = (mol_nao g, mol_nao g) ->
  shape dmb = shape dma ->
  shape dma <> (mol_nao g, mol_nao g) ->
  dmet_cas eigh orth_ao st mc [dma; dmb] implst = Raise ValueError.
Proof.
  intros Hl Hg Hm Hco Hs Hab Hbad.
  apply shape_eq in Hco, Hs. destruct Hco as [Hco1 Hco2], Hs as [Hs1 Hs2].
  unfold shape in Hab, Hbad. injection Hab as Hr Hc.
  unfold dmet_cas, dmet_cas_frames, dmet_density, deref, lookup_global.
  rewrite Hm. simpl. rewrite Hl. simpl. unfold deref. rewrite Hg. simpl.
  rewrite np_dot_ok by (simpl; congruence). simpl.
  rewrite np_add_ok by congruence. simpl.
  unfold np_dot at 2. simpl.
  destruct (Nat.eqb_spec (ncols (mol_ovlp g)) (nrows dma)) as [E1|E1];
    [|reflexivity].
  simpl. unfold np_dot. simpl.
  destruct (Nat.eqb_spec (ncols dma) (ncols (mol_ovlp g))) as [E2|E2];
    [|reflexivity].
  exfalso. apply Hbad. f_equal; congruence.
Qed.

Section Eigenvalues.
Context (eigh1 eigh2 : ndarray K -> result (list K * ndarray K)).
Hypothesis Hsame : same_eigenvectors eigh1 eigh2.

Ltac same_eigh a :=
  let H := fresh "H" in
  pose proof (Hsame a) as H;
  destruct (eigh1 a) as [[? ?]|?], (eigh2 a) as [[? ?]|?];
  try contradiction; subst; cbn [mbind result_bind rbind].

Lemma partition_same_vectors d implst :
  match dmet_partition eigh1 d implst, dmet_partition eigh2 d implst with
  | Ok p1, Ok p2 =>
      p_mocore p1 = p_mocore p2 /\ p_mocas p1 = p_mocas p2
      /\ p_moext p1 = p_moext p2
  | Raise e1, Raise e2 => e1 = e2
  | _, _ => False
  end.
Proof.
  unfold dmet_partition. cbv zeta.
  destruct (sub_block (d_dm d) (np_asarray implst)) as [blki|e];
    cbn [mbind result_bind rbind]; [|simpl; reflexivity].
  same_eigh (np_neg blki); [|simpl; reflexivity].
  destruct (sub_block (d_dm d) _) as [blkb|e];
    cbn [mbind result_bind rbind]; [|simpl; reflexivity].
  same_eigh (np_neg blkb); [|simpl; reflexivity].
  destruct (np_take_cols (d_corth d)
              (np_asarray (complement (d_nao d) (np_asarray implst))))
    as [cb|e];
    cbn [mbind result_bind rbind]; [|simpl; reflexivity].
  destruct (np_dot cb _) as [bathorb|e];
    cbn [mbind result_bind rbind]; [|simpl; reflexivity].
  destruct (np_take_cols (d_corth d) (np_asarray implst)) as [ci|e];
    cbn [mbind result_bind rbind]; [|simpl; reflexivity].
  destruct (np_dot ci _) as [imporb|e];
    cbn [mbind result_bind rbind]; [|simpl; reflexivity].
  destruct (np_hstack _) as [mocas|e];
    cbn [mbind result_bind rbind]; [|simpl; reflexivity].
  simpl. repeat split.
Qed.

Lemma canonical_same_vectors mc d p1 p2 :
  p_mocore p1 = p_mocore p2 -> p_mocas p1 = p_mocas p2 ->
  p_moext p1 = p_moext p2 ->
  dmet_canonical eigh1 mc d p1 = dmet_canonical eigh2 mc d p2.
Proof.
  intros Hc Ha He. unfold dmet_canonical. cbv zeta. rewrite Hc, Ha, He.
  destruct (np_mul_vec _ _) as [scaled|e];
    cbn [mbind result_bind rbind]; [|reflexivity].
  destruct (reduce_dot [d_s d; _; _; _]) as [fock|e];
    cbn [mbind result_bind rbind]; [|reflexivity].
  destruct (reduce_dot [np_T (p_mocore p2); _; _]) as [fockc|e];
    cbn [mbind result_bind rbind]; [|reflexivity].
  same_eigh fockc; [|reflexivity].
  destruct (np_dot (p_mocore p2) _) as [mocore'|e];
    cbn [mbind result_bind rbind]; [|reflexivity].
  destruct (reduce_dot [np_T (p_mocas p2); _; _]) as [focka|e];
    cbn [mbind result_bind rbind]; [|reflexivity].
  same_eigh focka; [|reflexivity].
  destruct (np_dot (p_mocas p2) _) as [mocas'|e];
    cbn [mbind result_bind rbind]; [|reflexivity].
  destruct (reduce_dot [np_T (p_moext p2); _; _]) as [focke|e];
    cbn [mbind result_bind rbind]; [|reflexivity].
  same_eigh focke; [|reflexivity].
  reflexivity.
Qed.

End Eigenvalues.

(** The eigenvalues that the five calls of the eigensolver report never
    reach the result: two eigensolvers with the same eigenvectors give the
    same matrix, or the same exception. *)
Theorem eigenvalues_never_used
    (eigh1 eigh2 : ndarray K -> result (list K * ndarray K))
    st mc dm implst :
  same_eigenvectors eigh1 eigh2 ->
  dmet_cas eigh1 orth_ao st mc dm implst
  = dmet_cas eigh2 orth_ao st mc dm implst.
Proof.
  intros Hsame. unfold dmet_cas, dmet_cas_frames.
  destruct (dmet_density orth_ao st mc dm implst) as [d|e];
    cbn [mbind result_bind rbind]; [|reflexivity].
  pose proof (partition_same_vectors eigh1 eigh2 Hsame d implst) as Hp.
  destruct (dmet_partition eigh1 d implst) as [p1|e1],
    (dmet_partition eigh2 d implst) as [p2|e2];
    try contradiction; cbn [mbind result_bind rbind]; [|congruence].
  destruct Hp as [Hc [Ha He]].
  rewrite (canonical_same_vectors eigh1 eigh2 Hsame mc d p1 p2 Hc Ha He).
  destruct (dmet_canonical eigh2 mc d p2); reflexivity.
Qed.

End SelectorData.

(** ** The locals of a run that completes *)

Section CompletedRuns.
Context (K : scalar).
Context (eigh : ndarray K -> result (list K * ndarray K)).
Context (orth_ao : Mole K -> ndarray K).
Add Ring Kring_runs : (num_ring K).
Local Open Scope num_scope.

Ltac slice_crush :=
  unfold slice_len, slice_start, slice_bound;
  repeat match goal with
         | |- context [(?a <? ?b)%Z] => destruct (Z.ltb_spec a b)
         end; lia.

Lemma np_dot_inv (a b c : ndarray K) :
  np_dot a b = Ok c -> c = mdot a b /\ ncols a = nrows b.
Proof.
  unfold np_dot. destruct (Nat.eqb_spec (ncols a) (nrows b)); [|discriminate].
  intros H. injection H as <-. split; [reflexivity|assumption].
Qed.

Lemma hstack2_inv (a b c : ndarray K) :
  hstack2 a b = Ok c -> c = mhstack a b /\ nrows a = nrows b.
Proof.
  unfold hstack2. destruct (Nat.eqb_spec (nrows a) (nrows b)); [|discriminate].
  intros H. injection H as <-. split; [reflexivity|assumption].
Qed.

(** What lines 37-42 leave in the locals. *)
Lemma dmet_density_inv st mc dm implst d :
  dmet_density orth_ao st mc dm implst = Ok d ->
  d_ncore d = cas_ncore mc /\ d_ncas d = cas_ncas mc
  /\ d_nimp d = length implst
  /\ d_nbath d = (Z.of_nat (cas_ncas mc) - Z.of_nat (length implst))%Z.
Proof.
  unfold dmet_density. intros H.
  repeat (apply rbind_ok_inv in H; destruct H as [? [_ H]]).
  inversion H; subst; clear H. simpl. repeat split; reflexivity.
Qed.

(** What lines 56-64 leave in the locals of a run that passes them. *)
Lemma dmet_partition_inv d implst p :
  dmet_partition eigh d implst = Ok p ->
  let ncore := Z.of_nat (d_ncore d) in
  exists cb ci,
    p_bathorb p = mdot cb (p_ub p) /\ ncols cb = nrows (p_ub p)
    /\ p_imporb p = mdot ci (p_ui p) /\ ncols ci = nrows (p_ui p)
    /\ nrows ci = nrows cb
    /\ ncols ci = length implst
    /\ p_mocore p = np_cols (p_bathorb p) None (Some ncore)
    /\ p_mocas p
       = mhstack (p_imporb p)
           (np_cols (p_bathorb p) (Some ncore) (Some (ncore + d_nbath d)%Z))
    /\ p_moext p = np_cols (p_bathorb p) (Some (ncore + d_nbath d)%Z) None.
Proof.
  unfold dmet_partition. cbv zeta. intros H.
  apply rbind_ok_inv in H. destruct H as [blki [_ H]].
  apply rbind_ok_inv in H. destruct H as [[occi ui] [_ H]].
  apply rbind_ok_inv in H. destruct H as [blkb [_ H]].
  apply rbind_ok_inv in H. destruct H as [[occb ub] [_ H]].
  apply rbind_ok_inv in H. destruct H as [cb [Hcb H]].
  apply rbind_ok_inv in H. destruct H as [bathorb [Hb H]].
  apply rbind_ok_inv in H. destruct H as [ci [Hci H]].
  apply rbind_ok_inv in H. destruct H as [imporb [Hi H]].
  apply rbind_ok_inv in H. destruct H as [mocas [Hm H]].
  injection H as <-. simpl.
  apply np_dot_inv in Hb, Hi. destruct Hb as [-> Hb], Hi as [-> Hi].
  unfold np_hstack, np_hstack_from in Hm.
  apply rbind_ok_inv in Hm. destruct Hm as [m' [Hm Hm']].
  injection Hm' as <-. apply hstack2_inv in Hm. destruct Hm as [-> Hm].
  simpl in Hm.
  unfold np_take_cols in Hcb, Hci.
  apply rbind_ok_inv in Hcb, Hci.
  destruct Hcb as [js [_ Hcb]], Hci as [ks [Hks Hci]].
  injection Hcb as <-. injection Hci as <-.
  assert (Hlen : length ks = length implst).
  { destruct (index_list_cases (ncols (d_corth d)) implst)
      as [[_ [_ E]]|[_ E]]; rewrite E in Hks; [|discriminate].
    injection Hks as <-. apply length_map. }
  exists (take_cols (d_corth d) js), (take_cols (d_corth d) ks).
  repeat split; try assumption; reflexivity.
Qed.

(** What lines 70-86 leave in the locals of a run that passes them. *)
Lemma dmet_canonical_inv mc d p c :
  dmet_canonical eigh mc d p = Ok c ->
  (c_fockc c = fock_block (c_fock c) (p_mocore p)
   /\ (exists w, eigh (c_fockc c) = Ok (w, c_uc c))
   /\ c_mocore c = mdot (p_mocore p) (c_uc c)
   /\ nrows (p_mocore p) = nrows (c_fock c)
   /\ nrows (p_mocore p) = ncols (c_fock c)
   /\ ncols (p_mocore p) = nrows (c_uc c))
  /\ (c_focka c = fock_block (c_fock c) (p_mocas p)
      /\ (exists w, eigh (c_focka c) = Ok (w, c_ua c))
      /\ c_mocas c = mdot (p_mocas p) (c_ua c)
      /\ nrows (p_mocas p) = nrows (c_fock c)
      /\ nrows (p_mocas p) = ncols (c_fock c)
      /\ ncols (p_mocas p) = nrows (c_ua c))
  /\ (c_focke c = fock_block (c_fock c) (p_moext p)
      /\ (exists w, eigh (c_focke c) = Ok (w, c_ue c))
      /\ c_moext c = mdot (p_moext p) (c_ue c)
      /\ nrows (p_moext p) = nrows (c_fock c)
      /\ nrows (p_moext p) = ncols (c_fock c)
      /\ ncols (p_moext p) = nrows (c_ue c))
  /\ c_mo_init c = spec_assemble (c_mocore c) (c_mocas c) (c_moext c).
Proof.
  unfold dmet_canonical. cbv zeta. intros H.
  apply rbind_ok_inv in H. destruct H as [scaled [_ H]].
  apply rbind_ok_inv in H. destruct H as [fock [_ H]].
  apply rbind_ok_inv in H. destruct H as [fockc [Hfc H]].
  apply rbind_ok_inv in H. destruct H as [[wc uc] [Hec H]].
  apply rbind_ok_inv in H. destruct H as [mocore' [Hc H]].
  apply rbind_ok_inv in H. destruct H as [focka [Hfa H]].
  apply rbind_ok_inv in H. destruct H as [[wa ua] [Hea H]].
  apply rbind_ok_inv in H. destruct H as [mocas' [Ha H]].
  apply rbind_ok_inv in H. destruct H as [focke [Hfe H]].
  apply rbind_ok_inv in H. destruct H as [[we ue] [Hee H]].
  apply rbind_ok_inv in H. destruct H as [moext' [He H]].
  apply rbind_ok_inv in H. destruct H as [mo [Hmo H]].
  injection H as <-. simpl.
  assert (Hblock : forall b fb,
            reduce_dot [np_T b; fock; b] = Ok fb ->
            fb = fock_block fock b /\ nrows b = nrows fock
            /\ nrows b = ncols fock).
  { intros b fb Hb. unfold reduce_dot, fold_dot in Hb.
    apply rbind_ok_inv in Hb. destruct Hb as [x [Hx Hb]].
    apply rbind_ok_inv in Hb. destruct Hb as [y [Hy Hb]].
    injection Hb as <-.
    apply np_dot_inv in Hx. destruct Hx as [-> Hx].
    apply np_dot_inv in Hy. destruct Hy as [-> Hy].
    simpl in Hx, Hy. repeat split; congruence. }
  apply Hblock in Hfc, Hfa, Hfe.
  destruct Hfc as [-> [Hc1 Hc2]], Hfa as [-> [Ha1 Ha2]], Hfe as [-> [He1 He2]].
  apply np_dot_inv in Hc, Ha, He.
  destruct Hc as [-> Hc], Ha as [-> Ha], He as [-> He].
  unfold np_hstack, np_hstack_from in Hmo.
  apply rbind_ok_inv in Hmo. destruct Hmo as [x [Hx Hmo]].
  apply rbind_ok_inv in Hmo. destruct Hmo as [y [Hy Hmo]].
  injection Hmo as <-.
  apply hstack2_inv in Hx. destruct Hx as [-> _].
  apply hstack2_inv in Hy. destruct Hy as [-> _].
  repeat split; try assumption; try reflexivity; eexists; eassumption.
Qed.

Lemma dmet_cas_frames_inv st mc dm implst d p c :
  dmet_cas_frames eigh orth_ao st mc dm implst = Ok (d, p, c) ->
  dmet_density orth_ao st mc dm implst = Ok d
  /\ dmet_partition eigh d implst = Ok p
  /\ dmet_canonical eigh mc d p = Ok c.
Proof.
  unfold dmet_cas_frames. intros H.
  apply rbind_ok_inv in H. destruct H as [d' [Hd H]].
  apply rbind_ok_inv in H. destruct H as [p' [Hp H]].
  apply rbind_ok_inv in H. destruct H as [c' [Hc H]].
  injection H as <- <- <-. repeat split; assumption.
Qed.

(** Three consecutive column slices put side by side give the array
    back. *)
Lemma np_cols_split (a : ndarray K) (i j : Z) :
  wf_ndarray a -> (0 <= i <= j)%Z ->
  mhstack (mhstack (np_cols a None (Some i)) (np_cols a (Some i) (Some j)))
          (np_cols a (Some j) None) = a.
Proof.
  intros Hwf Hij.
  rewrite <- (tabulate_entry K a Hwf) at 4.
  unfold mhstack at 1.
  assert (Hw : (ncols (mhstack (np_cols a None (Some i)) (np_cols a (Some i) (Some j)))
                + ncols (np_cols a (Some j) None) = ncols a)%nat)
    by (simpl; slice_crush).
  rewrite Hw. simpl nrows.
  apply tabulate_ext. intros r c Hr Hc.
  destruct (Nat.ltb_spec c (ncols (mhstack (np_cols a None (Some i))
                                     (np_cols a (Some i) (Some j))))) as [H1|H1].
  - simpl in H1.
    destruct (Nat.lt_ge_cases c (slice_len (ncols a) None (Some i))) as [H2|H2].
    + rewrite entry_mhstack_l by (simpl; lia).
      rewrite entry_np_cols by assumption. f_equal.
    + rewrite entry_mhstack_r by (simpl; lia).
      rewrite entry_np_cols by (simpl; lia). f_equal.
      simpl. revert H1 H2. slice_crush.
  - simpl in H1. rewrite entry_np_cols by (simpl in *; lia). f_equal.
    simpl. revert H1 Hc. slice_crush.
Qed.

(** Lines 62-64 cut the bath eigenvectors into three consecutive runs of
    columns: whenever [nimp <= ncas], the core block, the bath orbitals
    that join the active block and the external block, side by side, are
    [bathorb] again, so that no column is dropped and none is used
    twice. *)
Theorem bath_columns_split st mc dm implst d p c :
  dmet_cas_frames eigh orth_ao st mc dm implst = Ok (d, p, c) ->
  (length implst <= cas_ncas mc)%nat ->
  let ncore := Z.of_nat (cas_ncore mc) in
  let nbath := (Z.of_nat (cas_ncas mc) - Z.of_nat (length implst))%Z in
  np_hstack [p_mocore p;
             np_cols (p_bathorb p) (Some ncore) (Some (ncore + nbath)%Z);
             p_moext p] = Ok (p_bathorb p)
  /\ p_mocas p
     = mhstack (p_imporb p)
         (np_cols (p_bathorb p) (Some ncore) (Some (ncore + nbath)%Z))
  /\ (ncols (p_mocore p) + ncols (p_mocas p) + ncols (p_moext p)
      = ncols (p_imporb p) + ncols (p_bathorb p))%nat.
Proof.
  intros Hfr Hnimp ncore nbath.
  apply dmet_cas_frames_inv in Hfr. destruct Hfr as [Hd [Hp _]].
  apply dmet_density_inv in Hd. destruct Hd as [Hnc [_ [_ Hnb]]].
  apply dmet_partition_inv in Hp. cbv zeta in Hp.
  destruct Hp as [cb [ci [Hb [_ [Hi [Hci [_ [Hlen [Hmc [Hma Hme]]]]]]]]]].
  rewrite Hnc in Hmc, Hma, Hme. rewrite Hnb in Hma, Hme.
  fold ncore in Hmc, Hma, Hme. fold nbath in Hma, Hme.
  split; [|split; [exact Hma|]].
  - rewrite Hmc, Hme. unfold np_hstack, np_hstack_from.
    rewrite hstack2_ok by reflexivity. cbn [mbind result_bind rbind].
    rewrite hstack2_ok by reflexivity. cbn [mbind result_bind rbind].
    f_equal. apply np_cols_split; [rewrite Hb; apply wf_mdot|].
    unfold ncore, nbath. lia.
  - rewrite Hmc, Hma, Hme. simpl.
    set (nb := ncols (p_bathorb p)). unfold ncore, nbath. slice_crush.
Qed.

End CompletedRuns.

(** ** The canonical form and the place of the impurity *)

Section CanonicalForm.
Context (K : scalar).
Context (eigh : ndarray K -> result (list K * ndarray K)).
Context (orth_ao : Mole K -> ndarray K).
Add Ring Kring_canon : (num_ring K).
Local Open Scope num_scope.

(** A block rotated by eigenvectors of its own Fock block has a diagonal
    Fock block. *)
Lemma fock_block_rotated (f b u : ndarray K) (w : list K) :
  nrows b = nrows f -> nrows b = ncols f -> ncols b = nrows u ->
  diagonalises (fock_block f b) w u ->
  forall i j, (i < ncols u)%nat -> (j < ncols u)%nat ->
    entry (fock_block f (mdot b u)) i j
    = if Nat.eqb i j then vec_entry K w i else 0.
Proof.
  intros Hb1 Hb2 Hu Hdiag i j Hi Hj.
  rewrite <- (Hdiag i j Hi Hj). unfold fock_block.
  rewrite gram_entry by (simpl; assumption).
  rewrite gram_entry by (simpl; congruence).
  rewrite gram_mdot_l by assumption.
  unfold gram at 2. simpl nrows. simpl ncols.
  apply sum_n_ext. intros k Hk.
  rewrite gram_mdot_r by assumption.
  rewrite <- sum_n_mul_l. apply sum_n_ext. intros l Hl.
  rewrite gram_entry by assumption. ring.
Qed.

(** The canonical form of lines 73-81: if the eigensolver diagonalises the
    three Fock blocks it is given, then the Fock matrix of line 71 is
    diagonal within the core, within the active and within the external
    block that the selector returns, with the eigenvalues of the block on
    the diagonal. *)
Theorem canonical_blocks_diagonal st mc dm implst d p c :
  dmet_cas_frames eigh orth_ao st mc dm implst = Ok (d, p, c) ->
  eigh_diagonalises eigh (c_fockc c) ->
  eigh_diagonalises eigh (c_focka c) ->
  eigh_diagonalises eigh (c_focke c) ->
  exists wc wa we,
    eigh (c_fockc c) = Ok (wc, c_uc c)
    /\ eigh (c_focka c) = Ok (wa, c_ua c)
    /\ eigh (c_focke c) = Ok (we, c_ue c)
    /\ (forall i j, (i < ncols (c_mocore c))%nat -> (j < ncols (c_mocore c))%nat ->
          entry (fock_block (c_fock c) (c_mocore c)) i j
          = if Nat.eqb i j then vec_entry K wc i else 0)
    /\ (forall i j, (i < ncols (c_mocas c))%nat -> (j < ncols (c_mocas c))%nat ->
          entry (fock_block (c_fock c) (c_mocas c)) i j
          = if Nat.eqb i j then vec_entry K wa i else 0)
    /\ (forall i j, (i < ncols (c_moext c))%nat -> (j < ncols (c_moext c))%nat ->
          entry (fock_block (c_fock c) (c_moext c)) i j
          = if Nat.eqb i j then vec_entry K we i else 0).
Proof.
  intros Hfr Hdc Hda Hde.
  apply dmet_cas_frames_inv in Hfr. destruct Hfr as [_ [_ Hc]].
  apply dmet_canonical_inv in Hc.
  destruct Hc as [[Hfc [[wc Hec] [Hc [Hc1 [Hc2 Hc3]]]]]
                  [[Hfa [[wa Hea] [Ha [Ha1 [Ha2 Ha3]]]]]
                   [[Hfe [[we Hee] [He [He1 [He2 He3]]]]] _]]].
  exists wc, wa, we.
  split; [exact Hec|]. split; [exact Hea|]. split; [exact Hee|].
  apply Hdc in Hec. apply Hda in Hea. apply Hde in Hee.
  rewrite Hfc in Hec. rewrite Hfa in Hea. rewrite Hfe in Hee.
  split; [|split]; intros i j Hi Hj.
  - rewrite Hc in Hi, Hj |- *. simpl in Hi, Hj.
    apply fock_block_rotated; assumption.
  - rewrite Ha in Hi, Hj |- *. simpl in Hi, Hj.
    apply fock_block_rotated; assumption.
  - rewrite He in Hi, Hj |- *. simpl in Hi, Hj.
    apply fock_block_rotated; assumption.
Qed.

Lemma s_orthogonal_rot_r (s a b v : ndarray K) :
  nrows b = ncols s -> s_orthogonal s a b -> s_orthogonal s a (mdot b v).
Proof.
  intros Hb Hab i j Hi Hj. simpl in Hj.
  rewrite gram_mdot_r by assumption.
  rewrite (sum_n_ext K (ncols b) _ (fun _ => 0)); [apply sum_n_zero|].
  intros l Hl. rewrite (Hab i l Hi Hl). ring.
Qed.

(** A run that completes on valid input has the locals of the closed
    forms. *)
Lemma completed_run_closed_form st mc dma dmb implst g d p c :
  valid_input orth_ao st mc dma dmb implst g ->
  eigh_total eigh ->
  dmet_cas_frames eigh orth_ao st mc [dma; dmb] implst = Ok (d, p, c) ->
  runnable_input orth_ao st mc dma dmb implst g
  /\ exists r,
       d = density_of orth_ao mc dma dmb implst g
       /\ p = partition_of d implst r
       /\ c = canon_of mc d p r
       /\ eigh_run eigh d p c implst r.
Proof.
  intros Hv Htot Hfr.
  assert (Hvx : valid_indices (mol_nao g) implst).
  { destruct Hv as [Hvs [Hnd Hr _ _]].
    exact (frames_nondegenerate K eigh orth_ao st mc dma dmb implst g _
             (vs_density Hvs) Hnd Hr Hfr). }
  split; [apply runnable_of_valid; assumption|].
  destruct (dmet_cas_frames_ok K eigh orth_ao st mc dma dmb implst g
              (proj1 Hv) Hvx Htot) as [r [Hfr' [_ Hrun]]].
  cbv zeta in Hfr', Hrun. rewrite Hfr in Hfr'. injection Hfr' as -> -> ->.
  exists r. do 3 (split; [reflexivity|]). exact Hrun.
Qed.

(** The impurity functions lie within the active space: on valid input
    with [orth_transform^T S orth_transform = 1], each orthogonalised
    impurity function [corth[:, i]], [i] in the impurity list, has no
    overlap with any core or external orbital of the returned matrix. *)
Theorem impurity_within_active_space st mc dma dmb implst g :
  valid_input orth_ao st mc dma dmb implst g ->
  eigh_total eigh ->
  mdot (mdot (np_T (orth_ao g)) (mol_ovlp g)) (orth_ao g) = identity K (mol_nao g) ->
  (forall mo,
     dmet_cas eigh orth_ao st mc [dma; dmb] implst = Ok mo ->
     forall i j,
       (i < length implst)%nat -> (j < mol_nao g)%nat ->
       (j < cas_ncore mc \/ cas_ncore mc + cas_ncas mc <= j)%nat ->
       entry (mdot (mdot (np_T (take_cols (orth_ao g) (imp_positions implst)))
                      (mol_ovlp g)) mo) i j = 0)
  /\ (nondegenerate (mol_nao g) implst ->
      exists mo, dmet_cas eigh orth_ao st mc [dma; dmb] implst = Ok mo).
Proof.
  intros Hv Htot Hid. split.
  2: { intros Hnd.
       pose proof (nondegenerate_indices K orth_ao st mc dma dmb implst g Hv Hnd) as Hvx.
       destruct (dmet_cas_frames_ok K eigh orth_ao st mc dma dmb implst g
                   (proj1 Hv) Hvx Htot) as [r [_ [Hmo _]]].
       eexists. exact Hmo. }
  intros mo Hmo i j Hi Hj Hcol.
  unfold dmet_cas in Hmo.
  destruct (dmet_cas_frames eigh orth_ao st mc [dma; dmb] implst)
    as [[[d p] c]|] eqn:Hfr; [|discriminate].
  simpl in Hmo. injection Hmo as <-.
  destruct (completed_run_closed_form st mc dma dmb implst g d p c Hv Htot Hfr)
    as [[Hvs Hvp] [r [-> [-> [-> Hrun]]]]].
  pose proof (rp_indices Hvp) as Hvx.
  set (d := density_of orth_ao mc dma dmb implst g) in *.
  set (p := partition_of d implst r) in *.
  destruct Hrun as [_ _ _ _ _ _ _ Hui Hub Huc Hua Hue].
  apply shape_eq in Hui, Hub, Huc, Hua, Hue.
  destruct Hui as [Hui1 Hui2], Hub as [Hub1 Hub2], Huc as [Huc1 Huc2],
    Hua as [Hua1 Hua2], Hue as [Hue1 Hue2].
  destruct (block_widths K orth_ao mc dma dmb implst g r Hvp Hui2 Hub2)
    as [Hwc [Hwa Hwe]].
  cbv zeta in Hwc, Hwa, Hwe. fold d in Hwc, Hwa, Hwe. fold p in Hwc, Hwa, Hwe.
  destruct Hvs as [[_ _ Hco Hs _ _] _ _]. apply shape_eq in Hco, Hs.
  destruct Hco as [Hco1 Hco2], Hs as [Hs1 Hs2].
  assert (Hc : s_orthonormal (mol_ovlp g) (orth_ao g)).
  { apply (identity_s_orthonormal K (mol_ovlp g) (orth_ao g) (mol_nao g)); congruence. }
  set (I := imp_positions implst).
  set (B := bath_positions (mol_nao g) implst).
  pose proof (imp_positions_range (mol_nao g) implst Hvx) as HIr.
  pose proof (bath_positions_range (mol_nao g) implst) as HBr.
  fold I in HIr. fold B in HBr. rewrite <- Hco2 in HIr, HBr.
  assert (HXY : s_orthogonal (mol_ovlp g) (take_cols (orth_ao g) I)
                  (take_cols (orth_ao g) B)).
  { apply s_orthogonal_take_cols; try congruence; try assumption.
    intros x. apply positions_disjoint. exact Hvx. }
  assert (Hlen : length I = length implst) by (unfold I, imp_positions; apply length_map).
  assert (Hbath : s_orthogonal (mol_ovlp g) (take_cols (orth_ao g) I) (p_bathorb p)).
  { apply s_orthogonal_rot_r; [simpl; congruence|exact HXY]. }
  assert (Hcore : s_orthogonal (mol_ovlp g) (take_cols (orth_ao g) I) (c_mocore (canon_of mc d p r))).
  { apply s_orthogonal_rot_r; [simpl; congruence|].
    apply s_orthogonal_np_cols_r; [simpl; congruence|exact Hbath]. }
  assert (Hext : s_orthogonal (mol_ovlp g) (take_cols (orth_ao g) I) (c_moext (canon_of mc d p r))).
  { apply s_orthogonal_rot_r; [simpl; congruence|].
    apply s_orthogonal_np_cols_r; [simpl; congruence|exact Hbath]. }
  assert (Hshape : ncols (c_mo_init (canon_of mc d p r)) = mol_nao g).
  { simpl. rewrite Huc2, Hua2, Hue2.
    change (ncols (p_mocore p) + ncols (p_mocas p) + ncols (p_moext p) = mol_nao g)%nat.
    destruct Hvp as [_ _ Hnocc]. rewrite Hwc, Hwa, Hwe. lia. }
  rewrite gram_entry; [|simpl; congruence|simpl; congruence
                       |simpl; rewrite Hlen; exact Hi|rewrite Hshape; exact Hj].
  change (c_mo_init (canon_of mc d p r))
    with (mhstack (mhstack (c_mocore (canon_of mc d p r)) (c_mocas (canon_of mc d p r)))
            (c_moext (canon_of mc d p r))).
  assert (Hnc : ncols (c_mocore (canon_of mc d p r)) = cas_ncore mc)
    by (simpl; rewrite Huc2; exact Hwc).
  assert (Hna : ncols (c_mocas (canon_of mc d p r)) = cas_ncas mc)
    by (simpl; rewrite Hua2; exact Hwa).
  assert (Hne : ncols (c_moext (canon_of mc d p r))
                = (mol_nao g - cas_ncore mc - cas_ncas mc)%nat)
    by (simpl; rewrite Hue2; exact Hwe).
  destruct Hvp as [_ _ Hnocc].
  rewrite gram_mhstack_r; [|simpl; congruence|simpl in *; lia].
  destruct (Nat.ltb_spec j (ncols (mhstack (c_mocore (canon_of mc d p r))
                                     (c_mocas (canon_of mc d p r))))) as [Hlt|Hge].
  - rewrite gram_mhstack_r; [|simpl; congruence|exact Hlt].
    destruct (Nat.ltb_spec j (ncols (c_mocore (canon_of mc d p r)))) as [Hlt'|Hge'].
    + apply Hcore; [simpl; rewrite Hlen; exact Hi|exact Hlt'].
    + exfalso. simpl in Hlt, Hge', Hnc, Hna. lia.
  - apply Hext; [simpl; rewrite Hlen; exact Hi|].
    simpl in Hge. simpl in Hnc, Hna, Hne |- *. lia.
Qed.

End CanonicalForm.

(** ** Symmetric matrices and the Fock matrix *)

Section SymmetryFacts.
Context (K : scalar).
Add Ring Kring_sym : (num_ring K).
Local Open Scope num_scope.

Local Abbreviation sum := (sum_n K).
Local Abbreviation arr := (ndarray K).

Lemma gram_symmetric (s a b : arr) i j :
  symmetric s -> gram s a b i j = gram s b a j i.
Proof.
  intros [Hsq Hs]. unfold gram. rewrite <- Hsq.
  rewrite (sum_n_swap K (nrows s) (nrows s)
             (fun p q => entry b p j * entry s p q * entry a q i)).
  apply sum_n_ext. intros p Hp. apply sum_n_ext. intros q Hq.
  rewrite (Hs p q Hp Hq). ring.
Qed.

Lemma fock_block_symmetric (f b : arr) :
  nrows b = nrows f -> symmetric f -> symmetric (fock_block f b).
Proof.
  intros Hb Hf. pose proof Hf as [Hsq _]. split; [reflexivity|].
  intros i j Hi Hj. simpl in Hi, Hj. unfold fock_block.
  rewrite !gram_entry by congruence. apply gram_symmetric. exact Hf.
Qed.

Lemma np_neg_symmetric (a : arr) : symmetric a -> symmetric (np_neg a).
Proof.
  intros [Hsq Ha]. split; [exact Hsq|]. intros i j Hi Hj. simpl in Hi, Hj.
  rewrite !entry_np_neg by congruence. rewrite (Ha i j Hi Hj). reflexivity.
Qed.

Lemma block_symmetric (a : arr) idx :
  List.Forall (fun x => (x < nrows a)%nat) idx ->
  symmetric a -> symmetric (block a idx).
Proof.
  intros Hidx [Hsq Ha]. split; [reflexivity|].
  intros i j Hi Hj. simpl in Hi, Hj.
  rewrite List.Forall_forall in Hidx.
  assert (Hn : forall k, (k < length idx)%nat -> (nth k idx 0 < nrows a)%nat)
    by (intros k Hk; apply Hidx, nth_In; exact Hk).
  rewrite !entry_block by (try assumption; rewrite <- Hsq; apply Hn; assumption).
  apply Ha; apply Hn; assumption.
Qed.

Lemma spec_dm_mixed_symmetric (a b : arr) :
  shape b = shape a -> symmetric a -> symmetric b ->
  symmetric (spec_dm_mixed a b).
Proof.
  intros Hab [Hsa Ha] [Hsb Hb]. unfold shape in Hab. injection Hab as Hr Hc.
  split; [exact Hsa|]. intros i j Hi Hj. simpl in Hi, Hj.
  unfold spec_dm_mixed. rewrite !entry_tabulate by congruence.
  rewrite (Ha i j Hi Hj), (Hb i j) by congruence. reflexivity.
Qed.

(** [a . m . a.T] is symmetric when [m] is. *)
Lemma sandwich_symmetric (a m : arr) :
  ncols a = nrows m -> symmetric m ->
  symmetric (mdot (mdot a m) (np_T a)).
Proof.
  intros Ham [Hsq Hm]. split; [reflexivity|].
  intros i j Hi Hj. simpl in Hi, Hj.
  assert (E : forall i j, (i < nrows a)%nat -> (j < nrows a)%nat ->
              entry (mdot (mdot a m) (np_T a)) i j
              = sum (nrows m) (fun l => sum (nrows m) (fun k =>
                  entry a i k * entry m k l * entry a j l))).
  { intros i' j' Hi' Hj'. rewrite entry_mdot by (simpl; assumption).
    simpl ncols. rewrite <- Hsq. apply sum_n_ext. intros l Hl.
    rewrite entry_mdot by (simpl; congruence).
    rewrite entry_np_T by congruence. rewrite Ham.
    rewrite <- sum_n_mul_r. reflexivity. }
  rewrite !E by assumption.
  rewrite (sum_n_swap K (nrows m) (nrows m)
             (fun l k => entry a j k * entry m k l * entry a i l)).
  apply sum_n_ext. intros l Hl. apply sum_n_ext. intros k Hk.
  rewrite (Hm k l Hk Hl). ring.
Qed.

(** The entries of the Fock matrix of line 71. *)
Lemma entry_spec_fock (s c : arr) (e : list K) n i j :
  shape s = (n, n) -> nrows c = n ->
  (i < n)%nat -> (j < n)%nat ->
  entry (spec_fock s c e) i j
  = sum n (fun t => sum n (fun m =>
      entry s i m
      * sum (ncols c) (fun k => entry c m k * vec_entry K e k * entry c t k)
      * entry s t j)).
Proof.
  intros Hs Hc Hi Hj. apply shape_eq in Hs. destruct Hs as [Hs1 Hs2].
  unfold spec_fock.
  rewrite entry_mdot by (simpl; congruence). simpl ncols. rewrite Hc.
  apply sum_n_ext. intros t Ht.
  rewrite (sum_n_mul_r K n (entry s t j)
             (fun m => entry s i m
                       * sum (ncols c) (fun k =>
                           entry c m k * vec_entry K e k * entry c t k))).
  f_equal.
  rewrite entry_mdot by (simpl; congruence). simpl ncols.
  transitivity (sum (ncols c) (fun k => sum n (fun m =>
                  entry s i m * (entry c m k * vec_entry K e k * entry c t k)))).
  - apply sum_n_ext. intros k Hk.
    rewrite entry_np_T by congruence.
    rewrite entry_mdot by (simpl; congruence). rewrite Hs2.
    rewrite <- sum_n_mul_r. apply sum_n_ext. intros m Hm.
    unfold scale_columns. rewrite entry_tabulate by congruence. ring.
  - rewrite (sum_n_swap K (ncols c) n).
    apply sum_n_ext. intros m Hm.
    rewrite sum_n_mul_l. reflexivity.
Qed.

Lemma spec_fock_symmetric (s c : arr) (e : list K) n :
  shape s = (n, n) -> nrows c = n -> symmetric s ->
  symmetric (spec_fock s c e).
Proof.
  intros Hs Hc [Hsq Hsym]. pose proof (shape_eq K _ _ _ Hs) as [Hs1 Hs2].
  split; [simpl; congruence|].
  intros i j Hi Hj. simpl in Hi, Hj. rewrite Hs1 in Hi, Hj.
  rewrite !(entry_spec_fock s c e n) by assumption.
  rewrite (sum_n_swap K n n).
  apply sum_n_ext. intros t Ht. apply sum_n_ext. intros m Hm.
  rewrite (Hsym i t), (Hsym m j) by congruence.
  assert (E : sum (ncols c) (fun k => entry c t k * vec_entry K e k * entry c m k)
              = sum (ncols c) (fun k => entry c m k * vec_entry K e k * entry c t k))
    by (apply sum_n_ext; intros k _; ring).
  rewrite E. ring.
Qed.

Lemma mdot_assoc (a b c : arr) :
  ncols a = nrows b ->
  mdot (mdot a b) c = mdot a (mdot b c).
Proof.
  intros Hab. unfold mdot at 1 3. simpl nrows. simpl ncols.
  apply tabulate_ext. intros i j Hi Hj.
  transitivity (sum (ncols b) (fun l => sum (ncols a) (fun k =>
                  entry a i k * entry b k l * entry c l j))).
  - apply sum_n_ext. intros l Hl. rewrite entry_mdot by assumption.
    rewrite <- sum_n_mul_r. reflexivity.
  - rewrite (sum_n_swap K (ncols b) (ncols a)).
    apply sum_n_ext. intros k Hk. rewrite entry_mdot by congruence.
    rewrite <- sum_n_mul_l. apply sum_n_ext. intros l Hl. ring.
Qed.

Lemma mdot_identity_r (a : arr) n :
  wf_ndarray a -> ncols a = n -> mdot a (identity K n) = a.
Proof.
  intros Hwf Hn. subst n.
  transitivity (tabulate K (nrows a) (ncols a) (entry a));
    [|apply tabulate_entry; exact Hwf].
  unfold mdot. simpl ncols.
  apply tabulate_ext. intros i j Hi Hj.
  rewrite (sum_n_ext K (ncols a) _ (fun k => delta K j k * entry a i k)).
  - apply (sum_n_delta_l K (ncols a) j (fun k => entry a i k)). exact Hj.
  - intros k Hk. rewrite entry_identity by assumption.
    rewrite (delta_sym K k j). ring.
Qed.

(** Line 71 gives back the Fock matrix [f0] that the mean-field orbitals
    diagonalise: [S C e C^T S = f0] when [f0 C = S C e] and
    [C C^T S = 1]. *)
Lemma spec_fock_rebuilds (s c f0 : arr) (e : list K) n :
  wf_ndarray f0 -> shape f0 = (n, n) -> nrows c = n ->
  mdot f0 c = mdot s (scale_columns c e) ->
  mdot (mdot c (np_T c)) s = identity K n ->
  spec_fock s c e = f0.
Proof.
  intros Hwf Hf Hc Hroot Hcomp. apply shape_eq in Hf. destruct Hf as [Hf1 Hf2].
  unfold spec_fock. rewrite <- Hroot.
  rewrite (mdot_assoc f0 c (np_T c)) by congruence.
  rewrite (mdot_assoc f0 (mdot c (np_T c)) s) by (simpl; congruence).
  rewrite Hcomp. apply mdot_identity_r; assumption.
Qed.

End SymmetryFacts.

(** ** The arguments of the eigensolver *)

Section SelectorSymmetry.
Context (K : scalar).
Context (eigh : ndarray K -> result (list K * ndarray K)).
Context (orth_ao : Mole K -> ndarray K).
Local Open Scope num_scope.

(** Every matrix that the selector hands to the eigensolver is symmetric
    when the overlap matrix and the two density matrices are: the negated
    impurity and bath blocks of the transformed density (lines 58-59) and
    the three Fock blocks (lines 73-80), the transformed density and the
    Fock matrix of line 71 being symmetric themselves. *)
Theorem eigensolver_arguments_symmetric st mc dma dmb implst g :
  valid_input orth_ao st mc dma dmb implst g ->
  eigh_total eigh ->
  symmetric (mol_ovlp g) -> symmetric dma -> symmetric dmb ->
  (forall d p c,
     dmet_cas_frames eigh orth_ao st mc [dma; dmb] implst = Ok (d, p, c) ->
     let imp := imp_positions implst in
     let bath := bath_positions (mol_nao g) implst in
     symmetric (d_dm d)
     /\ symmetric (np_neg (block (d_dm d) imp))
     /\ eigh (np_neg (block (d_dm d) imp)) = Ok (p_occi p, p_ui p)
     /\ symmetric (np_neg (block (d_dm d) bath))
     /\ eigh (np_neg (block (d_dm d) bath)) = Ok (p_occb p, p_ub p)
     /\ symmetric (c_fock c)
     /\ symmetric (c_fockc c) /\ (exists w, eigh (c_fockc c) = Ok (w, c_uc c))
     /\ symmetric (c_focka c) /\ (exists w, eigh (c_focka c) = Ok (w, c_ua c))
     /\ symmetric (c_focke c) /\ (exists w, eigh (c_focke c) = Ok (w, c_ue c)))
  /\ (nondegenerate (mol_nao g) implst ->
      exists d p c,
        dmet_cas_frames eigh orth_ao st mc [dma; dmb] implst = Ok (d, p, c)).
Proof.
  intros Hv Htot Hss Hsa Hsb. split.
  2: { intros Hnd.
       pose proof (nondegenerate_indices K orth_ao st mc dma dmb implst g Hv Hnd) as Hvx.
       destruct (dmet_cas_frames_ok K eigh orth_ao st mc dma dmb implst g
                   (proj1 Hv) Hvx Htot) as [r [Hfr _]].
       eexists _, _, _. exact Hfr. }
  intros d p c Hfr imp bath.
  destruct (completed_run_closed_form K eigh orth_ao st mc dma dmb implst g d p c
              Hv Htot Hfr) as [[Hvs Hvp] [r [-> [-> [-> Hrun]]]]].
  pose proof (rp_indices Hvp) as Hvx.
  destruct Hrun as [Hei Heb Hec Hea Hee _ _ _ _ _ _ _].
  destruct Hvs as [[_ _ Hco Hs Ha Hb] Hhf1 _].
  pose proof (shape_eq K _ _ _ Hco) as [Hco1 Hco2].
  pose proof (shape_eq K _ _ _ Hs) as [Hs1 Hs2].
  pose proof (shape_eq K _ _ _ Ha) as [Ha1 Ha2].
  assert (Hdm : symmetric (d_dm (density_of orth_ao mc dma dmb implst g))).
  { simpl. unfold spec_dm_orth. apply sandwich_symmetric.
    - simpl. congruence.
    - apply spec_dm_mixed_symmetric; [congruence|assumption|assumption]. }
  assert (Hn : nrows (d_dm (density_of orth_ao mc dma dmb implst g)) = mol_nao g)
    by (simpl; exact Hco2).
  assert (Hfock : symmetric (spec_fock (mol_ovlp g) (mo_coeff (cas_scf mc))
                               (mo_energy (cas_scf mc))))
    by (apply (spec_fock_symmetric K _ _ _ (mol_nao g)); assumption).
  split; [exact Hdm|].
  split.
  { apply np_neg_symmetric, block_symmetric; [|exact Hdm].
    rewrite Hn. apply imp_positions_range. exact Hvx. }
  split; [exact Hei|].
  split.
  { apply np_neg_symmetric, block_symmetric; [|exact Hdm].
    rewrite Hn. apply bath_positions_range. }
  split; [exact Heb|].
  split; [exact Hfock|].
  split; [apply fock_block_symmetric; [simpl; congruence|exact Hfock]|].
  split; [exact Hec|].
  split; [apply fock_block_symmetric; [simpl; congruence|exact Hfock]|].
  split; [exact Hea|].
  split; [apply fock_block_symmetric; [simpl; congruence|exact Hfock]|].
  exact Hee.
Qed.

(** Line 71 rebuilds the Fock matrix of the mean-field calculation: when
    the mean-field orbitals [C] with energies [e] solve [F C = S C e] and
    are complete, [C C^T S = 1], the matrix that the selector
    canonicalises with is [F]. *)
Theorem fock_rebuilt_from_mean_field st mc dma dmb implst g (f0 : ndarray K) :
  valid_input orth_ao st mc dma dmb implst g ->
  eigh_total eigh ->
  wf_ndarray f0 -> shape f0 = (mol_nao g, mol_nao g) ->
  mdot f0 (mo_coeff (cas_scf mc))
  = mdot (mol_ovlp g)
      (scale_columns (mo_coeff (cas_scf mc)) (mo_energy (cas_scf mc))) ->
  mdot (mdot (mo_coeff (cas_scf mc)) (np_T (mo_coeff (cas_scf mc)))) (mol_ovlp g)
  = identity K (mol_nao g) ->
  (forall d p c,
     dmet_cas_frames eigh orth_ao st mc [dma; dmb] implst = Ok (d, p, c) ->
     c_fock c = f0)
  /\ (nondegenerate (mol_nao g) implst ->
      exists d p c,
        dmet_cas_frames eigh orth_ao st mc [dma; dmb] implst = Ok (d, p, c)).
Proof.
  intros Hv Htot Hwf Hf Hroot Hcomp. split.
  2: { intros Hnd.
       pose proof (nondegenerate_indices K orth_ao st mc dma dmb implst g Hv Hnd) as Hvx.
       destruct (dmet_cas_frames_ok K eigh orth_ao st mc dma dmb implst g
                   (proj1 Hv) Hvx Htot) as [r [Hfr _]].
       eexists _, _, _. exact Hfr. }
  intros d p c Hfr.
  destruct (completed_run_closed_form K eigh orth_ao st mc dma dmb implst g d p c
              Hv Htot Hfr) as [[Hvs _] [r [-> [-> [-> _]]]]].
  simpl. apply (spec_fock_rebuilds K _ _ _ _ (mol_nao g)); try assumption.
  exact (vs_hf_rows Hvs).
Qed.

End SelectorSymmetry.

(** ** Orbital labels *)

Section LabelFacts.

Lemma append_nil (s : string) : String.append EmptyString s = s.
Proof. reflexivity. Qed.

Lemma append_cons c (a b : string) :
  String.append (String c a) b = String c (String.append a b).
Proof. reflexivity. Qed.

Lemma prefix_spec (p s : string) :
  String.prefix p s = true <-> exists b, s = String.append p b.
Proof.
  revert s. induction p as [|c p IH]; intros s.
  - split; [intros _; exists s; reflexivity|]. intros _. destruct s; reflexivity.
  - destruct s as [|c' s]; simpl.
    + split; [discriminate|]. intros [b Hb]. rewrite append_cons in Hb.
      discriminate.
    + destruct (Ascii.ascii_dec c c') as [->|Hne].
      * rewrite IH. split; intros [b Hb]; exists b.
        -- rewrite append_cons. congruence.
        -- rewrite append_cons in Hb. congruence.
      * split; [discriminate|]. intros [b Hb]. rewrite append_cons in Hb.
        congruence.
Qed.

(** [str_contains p s] holds exactly when [p] occurs in [s]. *)
Lemma str_contains_spec (p s : string) :
  str_contains p s = true
  <-> exists a b, s = String.append a (String.append p b).
Proof.
  split.
  - induction s as [|c s IH]; cbn [str_contains]; rewrite orb_true_iff.
    + intros [H|H]; [|discriminate]. apply prefix_spec in H.
      destruct H as [b Hb]. exists EmptyString, b. exact Hb.
    + intros [H|H].
      * apply prefix_spec in H. destruct H as [b Hb].
        exists EmptyString, b. exact Hb.
      * destruct (IH H) as [a [b Hab]]. exists (String c a), b.
        rewrite append_cons, <- Hab. reflexivity.
  - intros [a [b Hab]]. subst s. induction a as [|c a IH].
    + rewrite append_nil.
      assert (H : String.prefix p (String.append p b) = true)
        by (apply prefix_spec; exists b; reflexivity).
      destruct (String.append p b); cbn [str_contains];
        rewrite orb_true_iff; left; exact H.
    + rewrite append_cons. cbn [str_contains]. rewrite IH. apply orb_true_r.
Qed.

Lemma impurity_label_spec (s : string) :
  impurity_label s = true
  <-> exists pat a b, In pat impurity_patterns
                      /\ s = String.append a (String.append pat b).
Proof.
  unfold impurity_label, impurity_patterns.
  rewrite !orb_true_iff, !str_contains_spec. split.
  - intros [[[[a [b H]]|[a [b H]]]|[a [b H]]]|[a [b H]]];
      eexists _, a, b; (split; [|exact H]); simpl; tauto.
  - intros [pat [a [b [Hin H]]]]. simpl in Hin.
    destruct Hin as [<-|[<-|[<-|[<-|[]]]]]; eauto 6.
Qed.

Lemma in_enumerate_from {A} (xs : list A) s i x :
  In (i, x) (combine (map Z.of_nat (seq s (length xs))) xs)
  <-> exists k, i = Z.of_nat (s + k) /\ nth_error xs k = Some x.
Proof.
  revert s. induction xs as [|y xs IH]; intros s; simpl.
  - split; [contradiction|]. intros [k [_ H]]. destruct k; discriminate.
  - rewrite IH. split.
    + intros [H|[k [Hi Hk]]].
      * injection H as <- <-. exists 0%nat. split; [f_equal; lia|reflexivity].
      * exists (S k). split; [rewrite Hi; f_equal; lia|exact Hk].
    + intros [[|k] [Hi Hk]].
      * left. simpl in Hk. injection Hk as <-. rewrite Hi. f_equal. f_equal. lia.
      * right. exists k. split; [rewrite Hi; f_equal; lia|exact Hk].
Qed.

Lemma in_enumerate {A} (xs : list A) i x :
  In (i, x) (enumerate xs)
  <-> (0 <= i < Z.of_nat (length xs))%Z /\ nth_error xs (Z.to_nat i) = Some x.
Proof.
  unfold enumerate. rewrite in_enumerate_from. split.
  - intros [k [-> Hk]]. simpl. rewrite Nat2Z.id. split; [|exact Hk].
    assert (k < length xs)%nat by (apply nth_error_Some; congruence). lia.
  - intros [Hi Hx]. exists (Z.to_nat i). split; [simpl; lia|exact Hx].
Qed.

Lemma map_fst_enumerate {A} (xs : list A) :
  map fst (enumerate xs) = map Z.of_nat (seq 0 (length xs)).
Proof.
  unfold enumerate. generalize 0%nat.
  induction xs as [|x xs IH]; intros s; simpl; [reflexivity|].
  rewrite IH. reflexivity.
Qed.

Lemma sorted_of_nat_seq s n : StronglySorted Z.lt (map Z.of_nat (seq s n)).
Proof.
  revert s. induction n as [|n IH]; intros s; simpl; constructor; [apply IH|].
  apply List.Forall_forall. intros x Hx. apply in_map_iff in Hx.
  destruct Hx as [k [<- Hk]]. apply in_seq in Hk. lia.
Qed.

Lemma sorted_filter_fst {A} (g : Z * A -> bool) (l : list (Z * A)) :
  StronglySorted Z.lt (map fst l) ->
  StronglySorted Z.lt (map fst (List.filter g l)).
Proof.
  induction l as [|p l IH]; simpl; intros H; [constructor|].
  inversion H as [|? ? Hl Hp]; subst.
  destruct (g p); simpl; [|apply IH; exact Hl].
  constructor; [apply IH; exact Hl|].
  apply List.Forall_forall. intros y Hy. apply in_map_iff in Hy.
  destruct Hy as [q [<- Hq]]. apply filter_In in Hq.
  rewrite List.Forall_forall in Hp. apply Hp. apply in_map. tauto.
Qed.

Lemma sorted_lt_NoDup (l : list Z) : StronglySorted Z.lt l -> List.NoDup l.
Proof.
  induction 1 as [|x l Hl IH Hx]; constructor; [|exact IH].
  intros Hin. rewrite List.Forall_forall in Hx. specialize (Hx x Hin). lia.
Qed.

End LabelFacts.

(** ** The impurity list of the script *)

Section ScriptRuns.
Context (K : scalar).
Context (E : engine K).
Local Open Scope num_scope.

(** The impurity list of lines 157-158 (and 195-196): the statement binds
    [idx] to the positions, in increasing order, of the labels of the
    global [mol] that contain 'Fe 3d', 'Fe 4d', 'Fe 4s' or 'N 2pz', and
    changes nothing else; the list has no repetition and stays within the
    range of the labels. *)
Theorem impurity_indices_from_labels (st : state K) l (m : Mole K) :
  globals st !! "mol" = Some (VMole l) -> heap st !! l = Some m ->
  exists idx,
    stmt_idx st
    = (Ok tt, {| globals := <["idx" := VIndices idx]> (globals st);
                 heap := heap st;
                 selector_calls := selector_calls st |})
    /\ StronglySorted Z.lt idx
    /\ List.NoDup idx
    /\ List.Forall (fun i => (0 <= i < Z.of_nat (length (mol_labels m)))%Z) idx
    /\ forall i,
         In i idx
         <-> (0 <= i < Z.of_nat (length (mol_labels m)))%Z
             /\ exists pat a b,
                  In pat impurity_patterns
                  /\ nth (Z.to_nat i) (mol_labels m) EmptyString
                     = String.append a (String.append pat b).
Proof.
  intros Hl Hm.
  set (idx := map fst (List.filter (fun p => impurity_label (snd p))
                         (enumerate (mol_labels m)))).
  assert (Hin : forall i,
            In i idx
            <-> (0 <= i < Z.of_nat (length (mol_labels m)))%Z
                /\ impurity_label (nth (Z.to_nat i) (mol_labels m) EmptyString)
                   = true).
  { intros i. unfold idx. rewrite in_map_iff. split.
    - intros [[i' x] [Hi Hf]]. simpl in Hi. subst i'.
      apply filter_In in Hf. destruct Hf as [Hx Hlab]. simpl in Hlab.
      apply in_enumerate in Hx. destruct Hx as [Hr Hx].
      split; [exact Hr|]. rewrite (nth_error_nth _ _ _ Hx). exact Hlab.
    - intros [Hr Hlab].
      exists (i, nth (Z.to_nat i) (mol_labels m) EmptyString).
      split; [reflexivity|]. apply filter_In. split; [|exact Hlab].
      apply in_enumerate. split; [exact Hr|].
      apply nth_error_nth'. lia. }
  assert (Hs : StronglySorted Z.lt idx).
  { unfold idx. apply sorted_filter_fst. rewrite map_fst_enumerate.
    apply sorted_of_nat_seq. }
  exists idx. split.
  - unfold stmt_idx, sbind, name, lookup_global. rewrite Hl. simpl.
    unfold deref. rewrite Hm. reflexivity.
  - split; [exact Hs|]. split; [apply sorted_lt_NoDup; exact Hs|]. split.
    + apply List.Forall_forall. intros i Hi. apply Hin in Hi. tauto.
    + intros i. rewrite Hin, impurity_label_spec. reflexivity.
Qed.

End ScriptRuns.

(** ** The overlap of the active spaces *)

Section ReportFacts.
Context (K : scalar).
Local Open Scope num_scope.

Ltac slice_crush :=
  unfold slice_len, slice_start, slice_bound;
  repeat match goal with
         | |- context [(?a <? ?b)%Z] => destruct (Z.ltb_spec a b)
         end; lia.

(** The overlap of an active space with itself (lines 165, 203 and 214):
    for a coefficient matrix that is orthonormal in the metric [s] and has
    columns [ncore .. ncore+ncas-1], the active block taken from it has
    [ncas] columns, and the overlap matrix of that block with itself is
    the identity. *)
Theorem active_overlap_of_same_space (s mo : ndarray K) n ncore ncas :
  shape s = (n, n) -> nrows mo = n ->
  (ncore + ncas <= ncols mo)%nat ->
  mdot (mdot (np_T mo) s) mo = identity K (ncols mo) ->
  shape (active_columns mo ncore ncas) = (n, ncas)
  /\ active_overlap (active_columns mo ncore ncas) s
       (active_columns mo ncore ncas)
     = Ok (identity K ncas).
Proof.
  intros Hs Hmo Hw Hid. apply shape_eq in Hs. destruct Hs as [Hs1 Hs2].
  assert (Hc : ncols (active_columns mo ncore ncas) = ncas)
    by (unfold active_columns; simpl; slice_crush).
  assert (Hr : nrows (active_columns mo ncore ncas) = n) by exact Hmo.
  split; [unfold shape; rewrite Hr, Hc; reflexivity|].
  unfold active_overlap, reduce_dot, fold_dot.
  rewrite np_dot_ok by (simpl; congruence). cbn [mbind result_bind rbind].
  rewrite np_dot_ok by (simpl; congruence). cbn [mbind result_bind rbind].
  f_equal. apply s_orthonormal_identity; try congruence.
  unfold active_columns. apply s_orthonormal_np_cols; try congruence.
  apply (identity_s_orthonormal K s mo (ncols mo)); congruence.
Qed.

End ReportFacts.

(** ** Where the run of the script ends *)

Section ScriptStops.
Context (K : scalar).
Context (E : engine K).

#[local] Existing Instance unbound_kept_rel.
#[local] Existing Instance calls_kept_rel.

#[local] Instance spin_kept_rel v : StepRel (@spin_kept K v).
Proof.
  split; unfold spin_kept.
  - intros st H. exact H.
  - intros a b c H1 H2 H. exact (H2 (H1 H)).
Qed.

Lemma spin_assign v y (x : val K) : preserves (@spin_kept K v) (assign (K := K) y x).
Proof. intros st H. exact H. Qed.

Lemma spin_alloc v (m : Mole K) :
  mol_spin m = v -> preserves (@spin_kept K v) (alloc m).
Proof.
  intros Hm st H l m'. simpl.
  destruct (decide (l = fresh (dom (heap st)))) as [->|Hne].
  - rewrite lookup_insert_eq. intros [= <-]. exact Hm.
  - rewrite lookup_insert_ne by congruence. apply H.
Qed.

Ltac keeps :=
  repeat first
    [ apply preserves_bind; [typeclasses eauto| |intros ?]
    | apply preserves_sret; typeclasses eauto
    | apply preserves_lift; typeclasses eauto
    | apply preserves_name; typeclasses eauto
    | apply preserves_get_state; typeclasses eauto
    | apply preserves_the_mole; typeclasses eauto
    | apply preserves_the_scf; typeclasses eauto
    | apply unbound_assign; discriminate
    | apply unbound_alloc
    | apply calls_assign
    | apply calls_alloc
    | apply spin_assign
    | apply spin_alloc; reflexivity ].

(** Run from the start, the script stops in the quintet section, at
    line 156 at the latest: the run ends with an exception, the body of the
    selector has not been entered, none of the names [mc], [idx], [mo],
    [e_q], [cas_q], [ept2_q], [e_t], [cas_t], [ept2_t], [s] and [tools] is
    bound, and the molecule still has [spin = 4], line 182 not having been
    reached. *)
Theorem script_stops_in_quintet_section :
  exists e st',
    run (program E) (initial_state K) = (Raise e, st')
    /\ selector_calls st' = 0%nat
    /\ (forall x,
          In x ["mc"; "idx"; "mo"; "e_q"; "cas_q"; "ept2_q"; "e_t"; "cas_t";
                "ept2_t"; "s"; "tools"; "m"; "idx3d"] ->
          globals st' !! x = None)
    /\ (forall l m, heap st' !! l = Some m -> mol_spin m = 4%Z).
Proof.
  assert (Hu : forall x,
            In x ["mc"; "idx"; "mo"; "e_q"; "cas_q"; "ept2_q"; "e_t"; "cas_t";
                  "ept2_t"; "s"; "tools"; "m"; "idx3d"] ->
            List.Forall (preserves (@unbound_kept K x)) (before_first_m E)).
  { intros x Hx. unfold before_first_m.
    simpl in Hx.
    repeat (destruct Hx as [<-|Hx];
            [repeat constructor;
             unfold lines_3_12, line_35, lines_98_143, stmt_rohf,
               stmt_fast_newton, bind_modules; keeps|]).
    contradiction. }
  assert (Hc : List.Forall (preserves (@calls_kept K)) (before_first_m E)).
  { unfold before_first_m. repeat constructor;
      unfold lines_3_12, line_35, lines_98_143, stmt_rohf, stmt_fast_newton,
        bind_modules; keeps. }
  assert (Hs : List.Forall (preserves (@spin_kept K 4%Z)) (before_first_m E)).
  { unfold before_first_m. repeat constructor;
      unfold lines_3_12, line_35, lines_98_143, stmt_rohf, stmt_fast_newton,
        bind_modules; keeps. }
  pose proof (fun x Hx => run_preserves K _ _ (Hu x Hx) (initial_state K) eq_refl)
    as Hu'.
  pose proof (run_preserves K _ _ Hc (initial_state K)) as Hc'.
  assert (Hs' : forall l m,
            heap (snd (run (before_first_m E) (initial_state K))) !! l = Some m ->
            mol_spin m = 4%Z).
  { apply (run_preserves K _ _ Hs (initial_state K)).
    intros l m H. simpl in H. rewrite lookup_empty in H. discriminate. }
  change (program E)
    with ((before_first_m E)
          ++ stmt_dmrgscf E ::
             ([stmt_idx (K := K); stmt_dmet_cas E "idx";
               stmt_kernel E; stmt_read_mc "e_q"; stmt_read_mc "cas_q";
               stmt_nevpt E "ept2_q"]
              ++ triplet_branch E ++ [lines_210_233 (K := K)])).
  rewrite run_app. unfold sbind at 1.
  destruct (run (before_first_m E) (initial_state K)) as [[[]|e] st1]; simpl in *.
  - destruct (stmt_dmrgscf_unbound K E st1) as [e He];
      [apply Hu'; simpl; tauto|].
    exists e, st1. unfold sbind. rewrite He.
    split; [reflexivity|]. split; [exact Hc'|]. split; [exact Hu'|exact Hs'].
  - exists e, st1.
    split; [reflexivity|]. split; [exact Hc'|]. split; [exact Hu'|exact Hs'].
Qed.

End ScriptStops.

(** ** Mean-field coefficients that do not fit *)

Section MeanFieldShape.
Context (K : scalar).
Context (eigh : ndarray K -> result (list K * ndarray K)).
Context (orth_ao : Mole K -> ndarray K).
Local Open Scope num_scope.

Lemma np_mul_vec_cases (a : ndarray K) (v : list K) :
  (exists b, np_mul_vec a v = Ok b /\ nrows b = nrows a)
  \/ (np_mul_vec a v = Raise ValueError
      /\ ncols a <> length v /\ ncols a <> 1%nat /\ length v <> 1%nat).
Proof.
  unfold np_mul_vec, broadcast_dim.
  destruct (Nat.eqb_spec (ncols a) (length v)) as [E1|E1];
    [left; eexists; split; reflexivity|].
  destruct (Nat.eqb_spec (ncols a) 1) as [E2|E2];
    [left; eexists; split; reflexivity|].
  destruct (Nat.eqb_spec (length v) 1) as [E3|E3];
    [left; eexists; split; reflexivity|].
  right. repeat split; assumption.
Qed.

(** Mean-field coefficients that do not fit are refused on line 71 with
    [ValueError], after the impurity list has been accepted and the
    eigensolver has been called twice: when [mo_coeff] has not [nao] rows,
    and when [mo_energy] cannot be broadcast against its columns. *)
Theorem mean_field_of_wrong_shape_raises st mc dma dmb implst g :
  valid_density orth_ao st mc dma dmb g ->
  valid_indices (mol_nao g) implst ->
  eigh_total eigh ->
  nrows (mo_coeff (cas_scf mc)) <> mol_nao g
  \/ (ncols (mo_coeff (cas_scf mc)) <> length (mo_energy (cas_scf mc))
      /\ ncols (mo_coeff (cas_scf mc)) <> 1%nat
      /\ length (mo_energy (cas_scf mc)) <> 1%nat) ->
  dmet_cas eigh orth_ao st mc [dma; dmb] implst = Raise ValueError.
Proof.
  intros Hvd Hvx Htot Hbad.
  unfold dmet_cas, dmet_cas_frames.
  rewrite (dmet_density_ok K orth_ao st mc dma dmb implst g Hvd).
  cbn [mbind result_bind rbind].
  destruct (dmet_partition_ok K eigh orth_ao mc dma dmb implst g
              (vd_corth Hvd) Hvx Htot)
    as [occi [ui [occb [ub [_ [_ [_ [_ [_ [_ Hp]]]]]]]]]].
  rewrite (Hp ui ui ui). cbn [mbind result_bind rbind].
  unfold dmet_canonical. cbv zeta.
  destruct Hbad as [Hrows|[H1 [H2 H3]]].
  - destruct (np_mul_vec_cases (mo_coeff (cas_scf mc)) (mo_energy (cas_scf mc)))
      as [[b [-> Hb]]|[-> _]]; [|reflexivity].
    cbn [mbind result_bind rbind reduce_dot fold_dot d_s density_of].
    assert (Hdot : np_dot (mol_ovlp g) b = Raise ValueError).
    { unfold np_dot.
      pose proof (shape_eq K _ _ _ (vd_ovlp Hvd)) as [_ Hs2].
      rewrite Hs2, Hb.
      destruct (Nat.eqb_spec (mol_nao g) (nrows (mo_coeff (cas_scf mc))));
        [congruence|reflexivity]. }
    rewrite Hdot. reflexivity.
  - assert (Hmul : np_mul_vec (mo_coeff (cas_scf mc)) (mo_energy (cas_scf mc))
                   = Raise ValueError).
    { destruct (np_mul_vec_cases (mo_coeff (cas_scf mc))
                  (mo_energy (cas_scf mc))) as [[b [Hb _]]|[Hr _]];
        [|exact Hr].
      unfold np_mul_vec, broadcast_dim in Hb.
      destruct (Nat.eqb_spec (ncols (mo_coeff (cas_scf mc)))
                  (length (mo_energy (cas_scf mc)))); [contradiction|].
      destruct (Nat.eqb_spec (ncols (mo_coeff (cas_scf mc))) 1); [contradiction|].
      destruct (Nat.eqb_spec (length (mo_energy (cas_scf mc))) 1);
        [contradiction|discriminate]. }
    rewrite Hmul. reflexivity.
Qed.

End MeanFieldShape.

(** ** Preconditions that are not checked *)

Section UncheckedPartition.
Context (K : scalar).
Context (eigh : ndarray K -> result (list K * ndarray K)).
Context (orth_ao : Mole K -> ndarray K).
Local Open Scope num_scope.

Ltac slice_crush :=
  unfold slice_len, slice_start, slice_bound;
  repeat match goal with
         | |- context [(?a <? ?b)%Z] => destruct (Z.ltb_spec a b)
         end; lia.

(** The blocks of lines 62-64 for a list of distinct orbitals, whatever
    [ncore] and [ncas] are. *)
Lemma unchecked_partition_run st mc dma dmb implst g :
  valid_shapes orth_ao st mc dma dmb g ->
  valid_indices (mol_nao g) implst ->
  eigh_total eigh ->
  let ncore := Z.of_nat (cas_ncore mc) in
  let nbath := (Z.of_nat (cas_ncas mc) - Z.of_nat (length implst))%Z in
  exists d p c,
    dmet_cas_frames eigh orth_ao st mc [dma; dmb] implst = Ok (d, p, c)
    /\ dmet_cas eigh orth_ao st mc [dma; dmb] implst = Ok (c_mo_init c)
    /\ nrows (p_bathorb p) = mol_nao g
    /\ ncols (p_imporb p) = length implst
    /\ (length implst + ncols (p_bathorb p) = mol_nao g)%nat
    /\ p_mocore p = np_cols (p_bathorb p) None (Some ncore)
    /\ p_mocas p
       = mhstack (p_imporb p)
           (np_cols (p_bathorb p) (Some ncore) (Some (ncore + nbath)%Z))
    /\ p_moext p = np_cols (p_bathorb p) (Some (ncore + nbath)%Z) None
    /\ nrows (c_mo_init c) = mol_nao g
    /\ ncols (c_mo_init c)
       = (ncols (p_mocore p) + ncols (p_mocas p) + ncols (p_moext p))%nat.
Proof.
  intros Hvs [Hnd Hr Hne Hb] Htot ncore nbath.
  destruct (valid_shapes_fitting K orth_ao st mc dma dmb g Hvs) as [mm [Hn Hfs]].
  pose proof (dmet_cas_cases K eigh orth_ao st mc dma dmb implst g mm Hfs Htot) as H.
  cbv zeta in H. rewrite Hn in H.
  pose proof (complement_length (mol_nao g) implst Hnd Hr) as Hlen.
  destruct H as [[_ [_ [_ [_ [p [c [Hfr [Hmo [Hi [Hbo [Hmc [Hma [Hme [Hrows Hcols]]]]]]]]]]]]]]
                |[[Hx|[Hx|[Hx|Hx]]] _]].
  - apply shape_eq in Hi, Hbo. destruct Hi as [_ Hi], Hbo as [Hbo1 Hbo2].
    eexists _, p, c. split; [exact Hfr|]. split; [exact Hmo|].
    split; [exact Hbo1|]. split; [exact Hi|].
    split; [rewrite Hbo2; exact Hlen|].
    split; [exact Hmc|]. split; [exact Hma|]. split; [exact Hme|].
    split; [exact Hrows|exact Hcols].
  - contradiction.
  - exfalso. apply Hx. eapply List.Forall_impl; [|exact Hr].
    unfold resolvable. simpl. intros; lia.
  - rewrite Hx in Hlen. simpl in Hlen. lia.
  - exfalso. apply Hx. apply complement_resolvable.
Qed.

(** An impurity list longer than [ncas] makes the core and the external
    block overlap: for [nimp - ncas <= ncore] the slices of lines 62 and 64
    share [nimp - ncas] columns of [bathorb], the bath contributes nothing
    to the active block, and the matrix returned has [nimp - ncas] columns
    more than it has rows. *)
Theorem oversized_impurity_repeats_core st mc dma dmb implst g :
  valid_shapes orth_ao st mc dma dmb g ->
  valid_indices (mol_nao g) implst ->
  eigh_total eigh ->
  (cas_ncas mc < length implst)%nat ->
  (length implst - cas_ncas mc <= cas_ncore mc)%nat ->
  (cas_ncore mc + length implst <= mol_nao g)%nat ->
  let extra := (length implst - cas_ncas mc)%nat in
  exists d p c,
    dmet_cas_frames eigh orth_ao st mc [dma; dmb] implst = Ok (d, p, c)
    /\ dmet_cas eigh orth_ao st mc [dma; dmb] implst = Ok (c_mo_init c)
    /\ shape (c_mo_init c) = (mol_nao g, (mol_nao g + extra)%nat)
    /\ ncols (p_mocore p) = cas_ncore mc
    /\ p_mocas p = mhstack (p_imporb p)
                     (np_cols (p_bathorb p) (Some (Z.of_nat (cas_ncore mc)))
                        (Some (Z.of_nat (cas_ncore mc) - Z.of_nat extra)%Z))
    /\ ncols (p_mocas p) = length implst
    /\ forall i j, (i < mol_nao g)%nat -> (j < extra)%nat ->
         entry (p_moext p) i j
         = entry (p_mocore p) i (cas_ncore mc - extra + j).
Proof.
  intros Hvs Hvx Htot Hlt Hle Hfit extra.
  destruct (unchecked_partition_run st mc dma dmb implst g Hvs Hvx Htot)
    as [d [p [c [Hfr [Hmo [Hbr [Hi [Hlen [Hmc [Hma [Hme [Hrows Hcols]]]]]]]]]]]].
  cbv zeta in Hmc, Hma, Hme.
  exists d, p, c. split; [exact Hfr|]. split; [exact Hmo|].
  set (nb := ncols (p_bathorb p)) in *.
  assert (Hwc : ncols (p_mocore p) = cas_ncore mc)
    by (rewrite Hmc; simpl; fold nb; slice_crush).
  assert (Hwa : ncols (p_mocas p) = length implst)
    by (rewrite Hma; simpl; fold nb; rewrite Hi; slice_crush).
  assert (Hwe : ncols (p_moext p) = (nb - (cas_ncore mc - extra))%nat)
    by (rewrite Hme; simpl; fold nb; unfold extra; slice_crush).
  split.
  { unfold shape. rewrite Hrows, Hcols, Hwc, Hwa, Hwe. f_equal.
    unfold extra. lia. }
  split; [exact Hwc|].
  split.
  { rewrite Hma. do 3 f_equal. unfold extra. lia. }
  split; [exact Hwa|].
  intros i j Hi' Hj.
  rewrite Hme, Hmc.
  rewrite !entry_np_cols; try (rewrite Hbr; exact Hi').
  - f_equal. fold nb. unfold extra in *. slice_crush.
  - fold nb. unfold extra in *. slice_crush.
  - fold nb. unfold extra in *. slice_crush.
Qed.

(** An active space that does not fit, [ncore + ncas > nao], is not
    refused either: the slices of lines 62-64 stop at the end of
    [bathorb], so that the matrix returned is square, no external orbital
    is left, and the core or the active block is narrower than asked
    for. *)
Theorem overfull_active_space_clamped st mc dma dmb implst g :
  valid_shapes orth_ao st mc dma dmb g ->
  valid_indices (mol_nao g) implst ->
  eigh_total eigh ->
  (length implst <= cas_ncas mc)%nat ->
  (mol_nao g < cas_ncore mc + cas_ncas mc)%nat ->
  exists d p c,
    dmet_cas_frames eigh orth_ao st mc [dma; dmb] implst = Ok (d, p, c)
    /\ dmet_cas eigh orth_ao st mc [dma; dmb] implst = Ok (c_mo_init c)
    /\ shape (c_mo_init c) = (mol_nao g, mol_nao g)
    /\ ncols (p_moext p) = 0%nat
    /\ ncols (p_mocore p) = Nat.min (cas_ncore mc) (mol_nao g - length implst)
    /\ (ncols (p_mocore p) + ncols (p_mocas p) = mol_nao g)%nat
    /\ (ncols (p_mocore p) < cas_ncore mc
        \/ ncols (p_mocas p) < cas_ncas mc)%nat.
Proof.
  intros Hvs Hvx Htot Hnimp Hover.
  destruct (unchecked_partition_run st mc dma dmb implst g Hvs Hvx Htot)
    as [d [p [c [Hfr [Hmo [Hbr [Hi [Hlen [Hmc [Hma [Hme [Hrows Hcols]]]]]]]]]]]].
  cbv zeta in Hmc, Hma, Hme.
  exists d, p, c. split; [exact Hfr|]. split; [exact Hmo|].
  set (nb := ncols (p_bathorb p)) in *.
  assert (Hwe : ncols (p_moext p) = 0%nat)
    by (rewrite Hme; simpl; fold nb; slice_crush).
  assert (Hwc : ncols (p_mocore p) = Nat.min (cas_ncore mc) nb)
    by (rewrite Hmc; simpl; fold nb; slice_crush).
  assert (Hwa : ncols (p_mocas p) = (length implst + (nb - Nat.min (cas_ncore mc) nb))%nat)
    by (rewrite Hma; simpl; fold nb; rewrite Hi; slice_crush).
  split; [unfold shape; rewrite Hrows, Hcols, Hwc, Hwa, Hwe; f_equal; lia|].
  split; [exact Hwe|].
  split; [rewrite Hwc; f_equal; lia|].
  split; [rewrite Hwc, Hwa; lia|].
  rewrite Hwc, Hwa. lia.
Qed.

End UncheckedPartition.

(** ** The further theorems on concrete inputs *)

Lemma selectable_one : selectable 4 [1%Z].
Proof.
  split; [discriminate|]. split.
  - repeat constructor; unfold resolvable; simpl; lia.
  - exists 0%Z. split; [lia|]. simpl. intros [H|[]]. discriminate.
Qed.

Lemma selector_domain_witness :
  (exists mo,
     dmet_cas Scenario.eigh_diagonal Scenario.orth_ao Scenario.st4
       (Scenario.mc4 1 2) [Scenario.dm_alpha; Scenario.dm_beta] [1%Z] = Ok mo
     /\ nrows mo = 4%nat)
  /\ dmet_cas Scenario.eigh_diagonal Scenario.orth_ao Scenario.st4
       (Scenario.mc4 1 2) [Scenario.dm_alpha; Scenario.dm_beta] []
     = Raise IndexError.
Proof.
  split.
  - exact (proj1 (selector_domain Zscalar Scenario.eigh_diagonal
                    Scenario.orth_ao Scenario.st4 (Scenario.mc4 1 2)
                    Scenario.dm_alpha Scenario.dm_beta [1%Z] Scenario.mol4
                    (scenario_shapes 1 2) eigh_diagonal_total)
             selectable_one).
  - apply (proj2 (selector_domain Zscalar Scenario.eigh_diagonal
                    Scenario.orth_ao Scenario.st4 (Scenario.mc4 1 2)
                    Scenario.dm_alpha Scenario.dm_beta [] Scenario.mol4
                    (scenario_shapes 1 2) eigh_diagonal_total)).
    intros [H _]. apply H. reflexivity.
Defined.

Lemma selector_output_shape_witness :
  shape (identity Zscalar 4) = (4, 1 + 3)%nat
  /\ (4 <= ncols (identity Zscalar 4))%nat
  /\ (ncols (identity Zscalar 4) = 4%nat
      <-> List.NoDup [1%Z]
          /\ List.Forall (fun i => (0 <= i < Z.of_nat 4)%Z) [1%Z]).
Proof.
  exact (selector_output_shape Zscalar Scenario.eigh_diagonal Scenario.orth_ao
           Scenario.st4 (Scenario.mc4 1 2) Scenario.dm_alpha Scenario.dm_beta
           [1%Z] Scenario.mol4 (identity Zscalar 4)
           (scenario_shapes 1 2) eigh_diagonal_total
           ltac:(simpl; lia) (proj1 scenario_rebound_outputs)).
Defined.

Lemma two_molecules_fit :
  fitting_shapes Scenario.orth_ao Cases.st_two_molecules Cases.mc3
    Scenario.dm_alpha Scenario.dm_beta Scenario.mol4 Cases.mol3.
Proof.
  constructor; try reflexivity. exists 0%nat. split; reflexivity.
Qed.

Lemma mismatched_solver_molecule_witness :
  exists mo,
    dmet_cas Scenario.eigh_diagonal Scenario.orth_ao Cases.st_two_molecules
      Cases.mc3 [Scenario.dm_alpha; Scenario.dm_beta] [1%Z] = Ok mo
    /\ shape mo = (4, 3)%nat.
Proof.
  apply (proj2 (mismatched_solver_molecule Zscalar Scenario.eigh_diagonal
                  Scenario.orth_ao Cases.st_two_molecules Cases.mc3
                  Scenario.dm_alpha Scenario.dm_beta [1%Z] Scenario.mol4
                  Cases.mol3 two_molecules_fit eigh_diagonal_total)).
  - simpl. lia.
  - constructor; simpl; try lia; try discriminate.
    + repeat constructor. simpl. tauto.
    + repeat constructor; lia.
  - simpl. lia.
Defined.

Lemma density_of_wrong_shape_raises_witness :
  dmet_cas Scenario.eigh_diagonal Scenario.orth_ao Scenario.st4
    (Scenario.mc4 1 2) [Cases.dm_small; Cases.dm_small] [1%Z]
  = Raise ValueError.
Proof.
  apply (density_of_wrong_shape_raises Zscalar Scenario.orth_ao
           Scenario.eigh_diagonal Scenario.st4 (Scenario.mc4 1 2)
           Cases.dm_small Cases.dm_small [1%Z] 0%nat Scenario.mol4
           Scenario.mol4); try reflexivity.
  discriminate.
Defined.

Lemma same_eigenvectors_diagonal :
  same_eigenvectors Scenario.eigh_diagonal Cases.eigh_vectors_only.
Proof.
  intros a. unfold Scenario.eigh_diagonal, Cases.eigh_vectors_only.
  destruct (Nat.eqb (nrows a) (ncols a)); reflexivity.
Qed.

Lemma eigenvalues_never_used_witness :
  dmet_cas Scenario.eigh_diagonal Scenario.orth_ao Scenario.st4
    (Scenario.mc4 1 2) [Scenario.dm_alpha; Scenario.dm_beta] [1%Z]
  = dmet_cas Cases.eigh_vectors_only Scenario.orth_ao Scenario.st4
      (Scenario.mc4 1 2) [Scenario.dm_alpha; Scenario.dm_beta] [1%Z].
Proof.
  exact (eigenvalues_never_used Zscalar Scenario.orth_ao
           Scenario.eigh_diagonal Cases.eigh_vectors_only Scenario.st4
           (Scenario.mc4 1 2) [Scenario.dm_alpha; Scenario.dm_beta] [1%Z]
           same_eigenvectors_diagonal).
Defined.

Lemma scenario_frames :
  exists d p c,
    dmet_cas_frames Scenario.eigh_diagonal Scenario.orth_ao Scenario.st4
      (Scenario.mc4 1 2) [Scenario.dm_alpha; Scenario.dm_beta] [1%Z]
    = Ok (d, p, c).
Proof.
  destruct (dmet_cas_frames_ok Zscalar Scenario.eigh_diagonal Scenario.orth_ao
              Scenario.st4 (Scenario.mc4 1 2) Scenario.dm_alpha
              Scenario.dm_beta [1%Z] Scenario.mol4 (scenario_shapes 1 2)
              (scenario_indices [1%Z] (or_introl eq_refl)) eigh_diagonal_total)
    as [r [Hfr _]].
  eexists _, _, _. exact Hfr.
Qed.

Lemma bath_columns_split_witness :
  exists d p c,
    dmet_cas_frames Scenario.eigh_diagonal Scenario.orth_ao Scenario.st4
      (Scenario.mc4 1 2) [Scenario.dm_alpha; Scenario.dm_beta] [1%Z]
    = Ok (d, p, c)
    /\ np_hstack [p_mocore p;
                  np_cols (p_bathorb p) (Some 1%Z) (Some 2%Z);
                  p_moext p] = Ok (p_bathorb p).
Proof.
  destruct scenario_frames as [d [p [c Hfr]]].
  exists d, p, c. split; [exact Hfr|].
  exact (proj1 (bath_columns_split Zscalar Scenario.eigh_diagonal
                  Scenario.orth_ao Scenario.st4 (Scenario.mc4 1 2)
                  [Scenario.dm_alpha; Scenario.dm_beta] [1%Z] d p c Hfr
                  ltac:(simpl; lia))).
Defined.

Lemma diag_diagonalised (l : list Z) :
  eigh_diagonalises Scenario.eigh_diagonal (Scenario.diag l).
Proof.
  intros w u H. unfold Scenario.eigh_diagonal in H. simpl in H.
  rewrite Nat.eqb_refl in H. injection H as <- <-.
  intros i j Hi Hj. simpl in Hi, Hj.
  rewrite gram_entry by (simpl; first [reflexivity|assumption]).
  unfold gram. simpl nrows. simpl ncols.
  rewrite (sum_n_ext Zscalar (length l) _
             (fun p => delta Zscalar i p
                       * (if Nat.eqb p j then nth p l 0%Z else 0%Z))%Z).
  - rewrite (sum_n_delta_l Zscalar (length l) i) by exact Hi.
    unfold vec_entry. rewrite (nth_map_seq (fun k => entry (Scenario.diag l) k k)) by exact Hi.
    unfold Scenario.diag. rewrite entry_tabulate by assumption.
    rewrite Nat.eqb_refl. reflexivity.
  - intros p Hp.
    rewrite (sum_n_ext Zscalar (length l) _
               (fun q => delta Zscalar j q
                         * (entry (identity Zscalar (length l)) p i
                            * entry (Scenario.diag l) p q))%Z).
    + rewrite (sum_n_delta_l Zscalar (length l) j) by exact Hj.
      rewrite entry_identity by assumption.
      unfold Scenario.diag. rewrite entry_tabulate by assumption.
      rewrite (delta_sym Zscalar p i). reflexivity.
    + intros q Hq. rewrite (entry_identity Zscalar _ q j) by assumption.
      rewrite (delta_sym Zscalar q j). simpl. ring.
Qed.

Lemma canonical_blocks_diagonal_witness :
  exists d p c wc wa we,
    dmet_cas_frames Scenario.eigh_diagonal Scenario.orth_ao Scenario.st4
      (Scenario.mc4 1 2) [Scenario.dm_alpha; Scenario.dm_beta] [1%Z]
    = Ok (d, p, c)
    /\ wc = [-3]%Z /\ wa = [-2; -1]%Z /\ we = [5]%Z
    /\ (forall i j, (i < 2)%nat -> (j < 2)%nat ->
          entry (fock_block (c_fock c) (c_mocas c)) i j
          = if Nat.eqb i j then vec_entry Zscalar wa i else 0%Z).
Proof.
  destruct scenario_frames as [d [p [c Hfr]]].
  assert (Hc : c_fockc c = Scenario.diag [-3]%Z
               /\ c_focka c = Scenario.diag [-2; -1]%Z
               /\ c_focke c = Scenario.diag [5]%Z
               /\ ncols (c_mocas c) = 2%nat).
  { vm_compute in Hfr. injection Hfr as _ _ <-. vm_compute. auto. }
  destruct Hc as [Hc1 [Hc2 [Hc3 Hc4]]].
  destruct (canonical_blocks_diagonal Zscalar Scenario.eigh_diagonal
              Scenario.orth_ao Scenario.st4 (Scenario.mc4 1 2)
              [Scenario.dm_alpha; Scenario.dm_beta] [1%Z] d p c Hfr
              ltac:(rewrite Hc1; apply diag_diagonalised)
              ltac:(rewrite Hc2; apply diag_diagonalised)
              ltac:(rewrite Hc3; apply diag_diagonalised))
    as [wc [wa [we [Hwc [Hwa [Hwe [_ [Ha _]]]]]]]].
  exists d, p, c, wc, wa, we. split; [exact Hfr|].
  rewrite Hc1 in Hwc. rewrite Hc2 in Hwa. rewrite Hc3 in Hwe.
  vm_compute in Hwc, Hwa, Hwe.
  injection Hwc as <- _. injection Hwa as <- _. injection Hwe as <- _.
  do 3 (split; [reflexivity|]).
  rewrite Hc4 in Ha. exact Ha.
Defined.

Lemma diag_symmetric (l : list Z) : symmetric (Scenario.diag l).
Proof.
  split; [reflexivity|]. intros i j Hi Hj. simpl in Hi, Hj.
  unfold Scenario.diag. rewrite !entry_tabulate by assumption.
  destruct (Nat.eqb_spec i j) as [->|Hne]; [rewrite Nat.eqb_refl; reflexivity|].
  destruct (Nat.eqb_spec j i); [congruence|reflexivity].
Qed.

Lemma identity_symmetric n : symmetric (identity Zscalar n).
Proof.
  split; [reflexivity|]. intros i j Hi Hj. simpl in Hi, Hj.
  rewrite !entry_identity by assumption. apply delta_sym.
Qed.

Lemma eigensolver_arguments_symmetric_witness :
  exists d p c,
    dmet_cas_frames Scenario.eigh_diagonal Scenario.orth_ao Scenario.st4
      (Scenario.mc4 1 2) [Scenario.dm_alpha; Scenario.dm_beta] [1%Z]
    = Ok (d, p, c)
    /\ symmetric (d_dm d)
    /\ symmetric (np_neg (block (d_dm d) (bath_positions 4 [1%Z])))
    /\ Scenario.eigh_diagonal (np_neg (block (d_dm d) (bath_positions 4 [1%Z])))
       = Ok (p_occb p, p_ub p)
    /\ symmetric (c_fock c)
    /\ symmetric (c_focka c).
Proof.
  destruct (eigensolver_arguments_symmetric Zscalar Scenario.eigh_diagonal
              Scenario.orth_ao Scenario.st4 (Scenario.mc4 1 2)
              Scenario.dm_alpha Scenario.dm_beta [1%Z] Scenario.mol4
              (scenario_valid 1 2 ltac:(lia) ltac:(lia)) eigh_diagonal_total
              (identity_symmetric 4) (diag_symmetric [1; 1; 1; 0]%Z)
              (diag_symmetric [1; 0; 0; 0]%Z)) as [Hall Hex].
  destruct (Hex scenario_nondegenerate) as [d [p [c Hfr]]].
  exists d, p, c. split; [exact Hfr|].
  pose proof (Hall d p c Hfr) as H. cbv zeta in H.
  destruct H as [H1 [_ [_ [H4 [H5 [H6 [_ [_ [H9 _]]]]]]]]].
  split; [exact H1|]. split; [exact H4|]. split; [exact H5|].
  split; [exact H6|exact H9].
Defined.

Lemma impurity_within_active_space_witness :
  exists mo,
    dmet_cas Scenario.eigh_diagonal Scenario.orth_ao Scenario.st4
      (Scenario.mc4 1 2) [Scenario.dm_alpha; Scenario.dm_beta] [1%Z] = Ok mo
    /\ forall j, (j < 4)%nat -> (j < 1 \/ 1 + 2 <= j)%nat ->
         entry (mdot (mdot (np_T (take_cols (identity Zscalar 4) [1%nat]))
                        (identity Zscalar 4)) mo) 0 j = 0%Z.
Proof.
  destruct (impurity_within_active_space Zscalar Scenario.eigh_diagonal
              Scenario.orth_ao Scenario.st4 (Scenario.mc4 1 2)
              Scenario.dm_alpha Scenario.dm_beta [1%Z] Scenario.mol4
              (scenario_valid 1 2 ltac:(lia) ltac:(lia)) eigh_diagonal_total
              ltac:(vm_compute; reflexivity)) as [Hall Hex].
  destruct (Hex scenario_nondegenerate) as [mo Hmo].
  exists mo. split; [exact Hmo|].
  intros j Hj Hcol.
  exact (Hall mo Hmo 0%nat j ltac:(simpl; lia) Hj Hcol).
Defined.

Lemma impurity_indices_from_labels_witness :
  exists idx,
    stmt_idx Scenario.st4
    = (Ok tt, {| globals := <["idx" := VIndices idx]> (globals Scenario.st4);
                 heap := heap Scenario.st4;
                 selector_calls := selector_calls Scenario.st4 |})
    /\ idx = [0; 1; 3]%Z
    /\ StronglySorted Z.lt idx
    /\ List.NoDup idx.
Proof.
  destruct (impurity_indices_from_labels Zscalar Scenario.st4 0%nat
              Scenario.mol4 eq_refl eq_refl)
    as [idx [Hrun [Hs [Hnd _]]]].
  exists idx. split; [exact Hrun|]. split; [|split; assumption].
  vm_compute in Hrun. injection Hrun as Hg. symmetry. exact Hg.
Defined.

Lemma active_overlap_of_same_space_witness :
  shape (active_columns (identity Zscalar 4) 1 2) = (4, 2)%nat
  /\ active_overlap (active_columns (identity Zscalar 4) 1 2)
       (identity Zscalar 4) (active_columns (identity Zscalar 4) 1 2)
     = Ok (identity Zscalar 2).
Proof.
  apply (active_overlap_of_same_space Zscalar (identity Zscalar 4)
           (identity Zscalar 4) 4 1 2);
    first [reflexivity | simpl; lia | vm_compute; reflexivity].
Defined.

Lemma fock_rebuilt_from_mean_field_witness :
  exists d p c,
    dmet_cas_frames Scenario.eigh_diagonal Scenario.orth_ao Scenario.st4
      (Scenario.mc4 1 2) [Scenario.dm_alpha; Scenario.dm_beta] [1%Z]
    = Ok (d, p, c)
    /\ c_fock c = Scenario.diag [-3; -2; -1; 5]%Z.
Proof.
  destruct (fock_rebuilt_from_mean_field Zscalar Scenario.eigh_diagonal
              Scenario.orth_ao Scenario.st4 (Scenario.mc4 1 2)
              Scenario.dm_alpha Scenario.dm_beta [1%Z] Scenario.mol4
              (Scenario.diag [-3; -2; -1; 5]%Z)
              (scenario_valid 1 2 ltac:(lia) ltac:(lia)) eigh_diagonal_total
              (wf_tabulate Zscalar _ _ _) eq_refl
              ltac:(vm_compute; reflexivity) ltac:(vm_compute; reflexivity))
    as [Hall Hex].
  destruct (Hex scenario_nondegenerate) as [d [p [c Hfr]]].
  exists d, p, c. split; [exact Hfr|exact (Hall d p c Hfr)].
Defined.

Lemma mean_field_of_wrong_shape_raises_witness :
  dmet_cas Scenario.eigh_diagonal Scenario.orth_ao Scenario.st4
    Cases.mc_short_energies [Scenario.dm_alpha; Scenario.dm_beta] [1%Z]
  = Raise ValueError.
Proof.
  apply (mean_field_of_wrong_shape_raises Zscalar Scenario.eigh_diagonal
           Scenario.orth_ao Scenario.st4 Cases.mc_short_energies
           Scenario.dm_alpha Scenario.dm_beta [1%Z] Scenario.mol4).
  - constructor; try reflexivity.
    + exists 0%nat. split; reflexivity.
    + exists Scenario.mol4. split; reflexivity.
  - exact (scenario_indices [1%Z] (or_introl eq_refl)).
  - exact eigh_diagonal_total.
  - right. simpl. lia.
Defined.

Lemma oversized_impurity_repeats_core_witness :
  exists d p c,
    dmet_cas_frames Scenario.eigh_diagonal Scenario.orth_ao Scenario.st4
      (Scenario.mc4 1 1) [Scenario.dm_alpha; Scenario.dm_beta] [0; 1]%Z
    = Ok (d, p, c)
    /\ shape (c_mo_init c) = (4, 5)%nat
    /\ forall i, (i < 4)%nat ->
         entry (p_moext p) i 0 = entry (p_mocore p) i 0.
Proof.
  destruct (oversized_impurity_repeats_core Zscalar Scenario.eigh_diagonal
              Scenario.orth_ao Scenario.st4 (Scenario.mc4 1 1)
              Scenario.dm_alpha Scenario.dm_beta [0; 1]%Z Scenario.mol4
              (scenario_shapes 1 1)
              (scenario_indices [0; 1]%Z (or_intror eq_refl))
              eigh_diagonal_total
              ltac:(simpl; lia) ltac:(simpl; lia) ltac:(simpl; lia))
    as [d [p [c [Hfr [_ [Hs [_ [_ [_ He]]]]]]]]].
  exists d, p, c. split; [exact Hfr|]. split; [exact Hs|].
  intros i Hi. exact (He i 0%nat Hi ltac:(simpl; lia)).
Defined.

Lemma overfull_active_space_clamped_witness :
  exists d p c,
    dmet_cas_frames Scenario.eigh_diagonal Scenario.orth_ao Scenario.st4
      (Scenario.mc4 3 2) [Scenario.dm_alpha; Scenario.dm_beta] [1%Z]
    = Ok (d, p, c)
    /\ shape (c_mo_init c) = (4, 4)%nat
    /\ ncols (p_moext p) = 0%nat
    /\ ncols (p_mocas p) = 1%nat.
Proof.
  destruct (overfull_active_space_clamped Zscalar Scenario.eigh_diagonal
              Scenario.orth_ao Scenario.st4 (Scenario.mc4 3 2)
              Scenario.dm_alpha Scenario.dm_beta [1%Z] Scenario.mol4
              (scenario_shapes 3 2)
              (scenario_indices [1%Z] (or_introl eq_refl))
              eigh_diagonal_total
              ltac:(simpl; lia) ltac:(simpl; lia))
    as [d [p [c [Hfr [_ [Hs [He [Hc [Hsum _]]]]]]]]].
  exists d, p, c. split; [exact Hfr|]. split; [exact Hs|].
  split; [exact He|]. simpl in Hc, Hsum. simpl. lia.
Defined.
